(** * Sorting visualizer: a shallow embedding of [app.js] and its properties

  The sorting engine of the visualizer is embedded as a state-and-error
  monad over three pieces of state: the local [heights] array every
  algorithm works on, the bars of the page (their pixel heights, as
  [parseInt] reads them) and the log of what the algorithm did to the
  bars (highlights, height updates, marks, sounds and pauses).  A bar
  without a height in its style reads as NaN.

  Array indices are JavaScript numbers used as integers and are kept in
  [Z] ([partition] starts from [low - 1], the insertion loop ends at
  [-1]).  Loops and recursive helpers take a fuel argument. *)

From Stdlib Require Import ZArith Lia Ascii String Sorted.
From stdpp Require Import base tactics option list list_numbers sorting.

Local Open Scope Z_scope.

(** ** Values and comparisons *)

(** What the script does with a height [v]: the three relational
  operators of the algorithms, and the assignment
  [bar.style.height = `${v}px`] of [updateBarHeight].  The style takes the
  text only when it is a height of CSS; [px v] tells whether it is. *)
Class JsOrd (V : Type) := {
gtb : V -> V -> bool;   (* a > b  *)
ltb : V -> V -> bool;   (* a < b  *)
leb : V -> V -> bool;   (* a <= b *)
px : V -> bool          (* `${v}px` is a height the style of a bar takes *)
}.

(** Finite heights: the pixel counts of bars that have a height, which
  the style of a bar takes. *)
#[export] Instance Z_JsOrd : JsOrd Z :=
{| gtb := Z.gtb; ltb := Z.ltb; leb := Z.leb; px := fun _ => true |}.

(** A JavaScript number as [parseInt] can return it: an integer, one of
  the infinities (for a digit string beyond the double range), or NaN
  (for a missing or non-numeric style value). *)
Inductive jsnum : Type :=
| NaN
| NegInf
| Fin (z : Z)
| PosInf.

Definition jsnum_lt (a b : jsnum) : bool :=
match a, b with
| NaN, _ | _, NaN => false
| NegInf, NegInf => false
| NegInf, _ => true
| Fin x, Fin y => x <? y
| Fin _, PosInf => true
| Fin _, NegInf => false
| PosInf, _ => false
end.

Definition jsnum_eq (a b : jsnum) : bool :=
match a, b with
| NegInf, NegInf | PosInf, PosInf => true
| Fin x, Fin y => x =? y
| _, _ => false
end.

(** [NaNpx], [Infinitypx], [-Infinitypx] and a negative length are no
  heights of CSS: the assignment is dropped and the style keeps the
  height it has. *)
Definition jsnum_px (a : jsnum) : bool :=
match a with
| Fin z => 0 <=? z
| _ => false
end.

#[export] Instance jsnum_JsOrd : JsOrd jsnum :=
{| gtb := fun a b => jsnum_lt b a;
   ltb := jsnum_lt;
   leb := fun a b => jsnum_lt a b || jsnum_eq a b;
   px := jsnum_px |}.

(** ** Arrays indexed by JavaScript numbers *)

Section Arrays.
Context {A : Type}.

Definition in_bounds (l : list A) (i : Z) : bool :=
  (0 <=? i) && (i <? Z.of_nat (length l)).

(** [l[i]]; [None] stands for JavaScript's [undefined]. *)
Definition zget (l : list A) (i : Z) : option A :=
  if 0 <=? i then l !! Z.to_nat i else None.

(** [l[i] = v] for an index inside the array. *)
Definition zset (l : list A) (i : Z) (v : A) : list A :=
  if 0 <=? i then <[Z.to_nat i := v]> l else l.

(** [l.slice(a, b)]: negative arguments count from the end, both are
    clamped to the array. *)
Definition slice_pos (l : list A) (x : Z) : Z :=
  let n := Z.of_nat (length l) in
  if x <? 0 then Z.max (n + x) 0 else Z.min x n.

Definition slice (l : list A) (a b : Z) : list A :=
  let a' := slice_pos l a in
  let b' := slice_pos l b in
  take (Z.to_nat (b' - a')) (drop (Z.to_nat a') l).
End Arrays.

(** ** State, log and the monad *)

Inductive colour : Type := Red | Teal | Yellow.
Inductive effect : Type := Glow | Pulse.

Inductive error : Type :=
| TypeError     (* a property of [undefined] was read: [bars[i]] out of range *)
| IndexError    (* [heights[i]] (or a slice) accessed outside [0, length) *)
| OutOfFuel.    (* the fuel of the embedding ran out *)

Section Engine.
Context {V : Type} `{JsOrd V}.

(** What a function of the script does to one bar. *)
Inductive bar_op : Type :=
| Highlight (c : colour) (e : effect)   (* highlightBar(bar, c, e) *)
| SetHeight (v : V)                     (* updateBarHeight(bar, v) *)
| AddPulse                              (* bar.classList.add('raytrace-pulse') *)
| ResetStyle                            (* resetBarStyle(bar) *)
| MarkSorted.                           (* markAsSorted(bar) *)

(** A pause is logged with the array the algorithm holds while it is
    suspended: this is the moment at which the page is painted. *)
Inductive event : Type :=
| Bar (i : Z) (op : bar_op)
| Sound                                 (* playSound(...) *)
| Wait (h : list V)                     (* await new Promise(setTimeout) *)
| ConsoleError (e : error).             (* console.error in startSort *)

(** [log] holds the events most recent first; [trace] gives them in the
    order they happened. *)
Record state : Type := {
  heights : list V;
  bars : list V;
  log : list event
}.

Definition trace (s : state) : list event := rev (log s).

Inductive outcome (A : Type) : Type :=
| Ok (a : A) (s : state)
| Err (e : error) (s : state).
Global Arguments Ok {A} a s.
Global Arguments Err {A} e s.

Definition final {A} (o : outcome A) : state :=
  match o with Ok _ s => s | Err _ s => s end.

Definition M (A : Type) : Type := state -> outcome A.

Definition ret {A} (a : A) : M A := fun s => Ok a s.

Definition bind {A B} (m : M A) (f : A -> M B) : M B :=
  fun s => match m s with
           | Ok a s' => f a s'
           | Err e s' => Err e s'
           end.

Definition throw {A} (e : error) : M A := fun s => Err e s.

(** [try { m } catch (error) { console.error(...) }]: running out of
    fuel is not a JavaScript exception and is not caught. *)
Definition try_catch (m : M unit) : M unit :=
  fun s => match m s with
           | Ok a s' => Ok a s'
           | Err OutOfFuel s' => Err OutOfFuel s'
           | Err e s' =>
               Ok tt {| heights := heights s'; bars := bars s';
                        log := ConsoleError e :: log s' |}
           end.
End Engine.

Global Arguments bar_op : clear implicits.
Global Arguments event : clear implicits.
Global Arguments state : clear implicits.
Global Arguments outcome : clear implicits.
Global Arguments M : clear implicits.

Declare Scope js_scope.
Delimit Scope js_scope with js.
Notation "x <- m ;; k" := (bind m (fun x => k))
(at level 100, m at next level, k at level 200, right associativity) : js_scope.
Notation "m ;; k" := (bind m (fun _ => k))
(at level 100, k at level 200, right associativity) : js_scope.
Local Open Scope js_scope.

Section Script.
Context {V : Type} `{JsOrd V}.

(** *** Primitive accesses *)

(** [const heights = getBarHeights()] *)
Definition getBarHeights : M V unit :=
  fun s => Ok tt {| heights := bars s; bars := bars s; log := log s |}.

(** [heights.length] and [bars.length] *)
Definition lengthH : M V Z := fun s => Ok (Z.of_nat (length (heights s))) s.
Definition lengthB : M V Z := fun s => Ok (Z.of_nat (length (bars s))) s.

(** [heights[i]] as a value.  JavaScript yields [undefined] outside the
    array; the embedding reports the bound violation as [IndexError]. *)
Definition readH (i : Z) : M V V :=
  fun s => match zget (heights s) i with
           | Some v => Ok v s
           | None => Err IndexError s
           end.

(** [heights[i] = v].  JavaScript grows the array when [i] is outside
    it; the embedding reports the bound violation as [IndexError]. *)
Definition writeH (i : Z) (v : V) : M V unit :=
  fun s => if in_bounds (heights s) i
           then Ok tt {| heights := zset (heights s) i v;
                         bars := bars s; log := log s |}
           else Err IndexError s.

(** [heights.slice(a, b)] *)
Definition sliceH (a b : Z) : M V (list V) :=
  fun s => Ok (slice (heights s) a b) s.

(** [arr[i]] for the local arrays of [merge]. *)
Definition readA (arr : list V) (i : Z) : M V V :=
  fun s => match zget arr i with
           | Some v => Ok v s
           | None => Err IndexError s
           end.

(** [bar.style.height = `${v}px`] for bar [i] of the list: the bar takes
    the height [v] when the text is a height of CSS and keeps its height
    otherwise. *)
Definition setPx (b : list V) (i : Z) (v : V) : list V :=
  if px v then zset b i v else b.

(** A call [f(bars[i], ...)] that reads or writes the style of the bar:
    [bars[i]] is [undefined] outside the list and the property access
    throws a TypeError. *)
Definition onBar (i : Z) (op : bar_op V) : M V unit :=
  fun s => if in_bounds (bars s) i
           then Ok tt {| heights := heights s;
                         bars := match op with
                                 | SetHeight v => setPx (bars s) i v
                                 | _ => bars s
                                 end;
                         log := Bar i op :: log s |}
           else Err TypeError s.

Definition emit (e : event V) : M V unit :=
  fun s => Ok tt {| heights := heights s; bars := bars s; log := e :: log s |}.

Definition highlightBar (i : Z) (c : colour) (e : effect) : M V unit :=
  onBar i (Highlight c e).
Definition updateBarHeight (i : Z) (v : V) : M V unit := onBar i (SetHeight v).
Definition addPulse (i : Z) : M V unit := onBar i AddPulse.
Definition resetBarStyle (i : Z) : M V unit := onBar i ResetStyle.
Definition markAsSorted (i : Z) : M V unit := onBar i MarkSorted.
Definition playSound : M V unit := emit Sound.

(** [await new Promise(resolve => setTimeout(resolve, ...))] *)
Definition delay : M V unit :=
  fun s => Ok tt {| heights := heights s; bars := bars s;
                    log := Wait (heights s) :: log s |}.

(** [[heights[i], heights[j]] = [heights[j], heights[i]]]: the right-hand
    side is evaluated first, then the two slots are assigned in order. *)
Definition swapH (i j : Z) : M V unit :=
  a <- readH j ;;
  b <- readH i ;;
  writeH i a ;;
  writeH j b.

(** [updateBarHeight(bars[i], heights[i])] *)
Definition syncBar (i : Z) : M V unit :=
  v <- readH i ;; updateBarHeight i v.

(** *** Loops *)

(** [while (cond) body] over the local variables [x] of the loop. *)
Fixpoint while {L : Type} (fuel : nat) (cond : L -> M V bool)
    (body : L -> M V L) (x : L) : M V L :=
  match fuel with
  | O => throw OutOfFuel
  | S f =>
      c <- cond x ;;
      if c then (x' <- body x ;; while f cond body x') else ret x
  end.

(** *** Bubble sort *)

Definition bubbleSort (fuel : nat) : M V unit :=
  getBarHeights ;;
  while fuel
    (fun i => n <- lengthH ;; ret (i <? n))
    (fun i =>
       while fuel
         (fun j => n <- lengthH ;; ret (j <? n - i - 1))
         (fun j =>
            highlightBar j Red Glow ;;
            highlightBar (j + 1) Teal Glow ;;
            readH j ;; playSound ;;
            delay ;;
            a <- readH j ;;
            b <- readH (j + 1) ;;
            (if gtb a b then
               swapH j (j + 1) ;;
               syncBar j ;;
               syncBar (j + 1) ;;
               addPulse j ;;
               addPulse (j + 1) ;;
               playSound
             else ret tt) ;;
            resetBarStyle j ;;
            resetBarStyle (j + 1) ;;
            ret (j + 1))
         0 ;;
       ret (i + 1))
    0 ;;
  while fuel
    (fun i => n <- lengthB ;; ret (i <? n))
    (fun i => markAsSorted i ;; delay ;; ret (i + 1))
    0 ;;
  ret tt.

(** *** Selection sort *)

Definition selectionSort (fuel : nat) : M V unit :=
  getBarHeights ;;
  while fuel
    (fun i => n <- lengthH ;; ret (i <? n))
    (fun i =>
       jm <- while fuel
         (fun '(j, minIndex) => n <- lengthH ;; ret (j <? n))
         (fun '(j, minIndex) =>
            highlightBar j Red Glow ;;
            highlightBar minIndex Teal Glow ;;
            readH j ;; playSound ;;
            delay ;;
            a <- readH j ;;
            b <- readH minIndex ;;
            if ltb a b then
              resetBarStyle minIndex ;;
              ret (j + 1, j)
            else
              resetBarStyle j ;;
              ret (j + 1, minIndex))
         (i + 1, i) ;;
       let minIndex := snd jm in
       (if negb (minIndex =? i) then
          swapH i minIndex ;;
          syncBar i ;;
          syncBar minIndex ;;
          addPulse i ;;
          addPulse minIndex ;;
          playSound
        else ret tt) ;;
       markAsSorted i ;;
       ret (i + 1))
    0 ;;
  ret tt.

(** *** Insertion sort *)

Definition insertionSort (fuel : nat) : M V unit :=
  getBarHeights ;;
  while fuel
    (fun i => n <- lengthH ;; ret (i <? n))
    (fun i =>
       currentHeight <- readH i ;;
       highlightBar i Red Pulse ;;
       j <- while fuel
         (fun j =>
            if j >=? 0 then (a <- readH j ;; ret (gtb a currentHeight))
            else ret false)
         (fun j =>
            highlightBar j Teal Glow ;;
            readH j ;; playSound ;;
            delay ;;
            a <- readH j ;;
            writeH (j + 1) a ;;
            syncBar (j + 1) ;;
            resetBarStyle j ;;
            ret (j - 1))
         (i - 1) ;;
       writeH (j + 1) currentHeight ;;
       updateBarHeight (j + 1) currentHeight ;;
       markAsSorted (j + 1) ;;
       ret (i + 1))
    1 ;;
  ret tt.

(** *** Quick sort *)

Definition partition (fuel : nat) (low high : Z) : M V Z :=
  pivot <- readH high ;;
  highlightBar high Yellow Pulse ;;
  ij <- while fuel
    (fun '(i, j) => ret (j <? high))
    (fun '(i, j) =>
       highlightBar j Red Glow ;;
       readH j ;; playSound ;;
       delay ;;
       a <- readH j ;;
       i' <- (if leb a pivot then
                let i := i + 1 in
                (if negb (i =? j) then
                   swapH i j ;;
                   syncBar i ;;
                   syncBar j ;;
                   addPulse i ;;
                   addPulse j ;;
                   playSound
                 else ret tt) ;;
                ret i
              else ret i) ;;
       resetBarStyle j ;;
       ret (i', j + 1))
    (low - 1, low) ;;
  let i := fst ij in
  swapH (i + 1) high ;;
  syncBar (i + 1) ;;
  syncBar high ;;
  resetBarStyle high ;;
  markAsSorted (i + 1) ;;
  ret (i + 1).

Fixpoint quickSortHelper (fuel : nat) (low high : Z) : M V unit :=
  match fuel with
  | O => throw OutOfFuel
  | S f =>
      if low <? high then
        pi <- partition fuel low high ;;
        quickSortHelper f low (pi - 1) ;;
        quickSortHelper f (pi + 1) high
      else ret tt
  end.

Definition quickSort (fuel : nat) : M V unit :=
  getBarHeights ;;
  n <- lengthH ;;
  quickSortHelper fuel 0 (n - 1).

(** *** Merge sort *)

Definition merge (fuel : nat) (left mid right : Z) : M V unit :=
  leftArray <- sliceH left (mid + 1) ;;
  rightArray <- sliceH (mid + 1) (right + 1) ;;
  let llen := Z.of_nat (length leftArray) in
  let rlen := Z.of_nat (length rightArray) in
  ijk <- while fuel
    (fun '(i, j, k) => ret ((i <? llen) && (j <? rlen)))
    (fun '(i, j, k) =>
       highlightBar k Red Glow ;;
       readH k ;; playSound ;;
       delay ;;
       a <- readA leftArray i ;;
       b <- readA rightArray j ;;
       ij <- (if leb a b then
                x <- readA leftArray i ;;
                writeH k x ;;
                syncBar k ;;
                ret (i + 1, j)
              else
                x <- readA rightArray j ;;
                writeH k x ;;
                syncBar k ;;
                ret (i, j + 1)) ;;
       markAsSorted k ;;
       ret (fst ij, snd ij, k + 1))
    (0, 0, left) ;;
  ijk <- while fuel
    (fun '(i, j, k) => ret (i <? llen))
    (fun '(i, j, k) =>
       x <- readA leftArray i ;;
       writeH k x ;;
       syncBar k ;;
       markAsSorted k ;;
       ret (i + 1, j, k + 1))
    ijk ;;
  while fuel
    (fun '(i, j, k) => ret (j <? rlen))
    (fun '(i, j, k) =>
       x <- readA rightArray j ;;
       writeH k x ;;
       syncBar k ;;
       markAsSorted k ;;
       ret (i, j + 1, k + 1))
    ijk ;;
  ret tt.

Fixpoint mergeSortHelper (fuel : nat) (left right : Z) : M V unit :=
  match fuel with
  | O => throw OutOfFuel
  | S f =>
      if left <? right then
        let mid := (left + right) / 2 in
        mergeSortHelper f left mid ;;
        mergeSortHelper f (mid + 1) right ;;
        merge fuel left mid right
      else ret tt
  end.

Definition mergeSort (fuel : nat) : M V unit :=
  getBarHeights ;;
  n <- lengthH ;;
  mergeSortHelper fuel 0 (n - 1).

(** *** Heap sort *)

Fixpoint heapify (fuel : nat) (n i : Z) : M V unit :=
  match fuel with
  | O => throw OutOfFuel
  | S f =>
      let left := 2 * i + 1 in
      let right := 2 * i + 2 in
      largest <- (if left <? n then
                    a <- readH left ;;
                    b <- readH i ;;
                    ret (if gtb a b then left else i)
                  else ret i) ;;
      largest <- (if right <? n then
                    a <- readH right ;;
                    b <- readH largest ;;
                    ret (if gtb a b then right else largest)
                  else ret largest) ;;
      if negb (largest =? i) then
        highlightBar i Red Glow ;;
        highlightBar largest Teal Glow ;;
        readH largest ;; playSound ;;
        delay ;;
        swapH i largest ;;
        syncBar i ;;
        syncBar largest ;;
        resetBarStyle i ;;
        resetBarStyle largest ;;
        heapify f n largest
      else ret tt
  end.

Definition heapSort (fuel : nat) : M V unit :=
  getBarHeights ;;
  n <- lengthH ;;
  while fuel
    (fun i => ret (i >=? 0))
    (fun i =>
       n <- lengthH ;;
       heapify fuel n i ;;
       ret (i - 1))
    (n / 2 - 1) ;;
  n <- lengthH ;;
  while fuel
    (fun i => ret (i >? 0))
    (fun i =>
       swapH 0 i ;;
       syncBar 0 ;;
       syncBar i ;;
       markAsSorted i ;;
       playSound ;;
       delay ;;
       heapify fuel i 0 ;;
       ret (i - 1))
    (n - 1) ;;
  markAsSorted 0.

(** *** Shell sort *)

Definition shellSort (fuel : nat) : M V unit :=
  getBarHeights ;;
  n <- lengthH ;;
  while fuel
    (fun gap => ret (gap >? 0))
    (fun gap =>
       while fuel
         (fun i => ret (i <? n))
         (fun i =>
            temp <- readH i ;;
            highlightBar i Red Pulse ;;
            j <- while fuel
              (fun j =>
                 if j >=? gap then (a <- readH (j - gap) ;; ret (gtb a temp))
                 else ret false)
              (fun j =>
                 highlightBar (j - gap) Teal Glow ;;
                 readH (j - gap) ;; playSound ;;
                 delay ;;
                 a <- readH (j - gap) ;;
                 writeH j a ;;
                 syncBar j ;;
                 resetBarStyle (j - gap) ;;
                 ret (j - gap))
              i ;;
            writeH j temp ;;
            updateBarHeight j temp ;;
            resetBarStyle i ;;
            ret (i + 1))
         gap ;;
       ret (gap / 2))
    (n / 2) ;;
  while fuel
    (fun i => ret (i <? n))
    (fun i => markAsSorted i ;; delay ;; ret (i + 1))
    0 ;;
  ret tt.

(** *** The controller *)

Inductive algorithm : Type :=
| Bubble | Selection | Insertion | Quick | Merge | Heap | Shell.

Definition sortBy (alg : algorithm) (fuel : nat) : M V unit :=
  match alg with
  | Bubble => bubbleSort fuel
  | Selection => selectionSort fuel
  | Insertion => insertionSort fuel
  | Quick => quickSort fuel
  | Merge => mergeSort fuel
  | Heap => heapSort fuel
  | Shell => shellSort fuel
  end.

(** The values of the [<select>] that the [switch] of [startSort]
    recognises. *)
Definition algorithm_of_name (name : string) : option algorithm :=
  if String.eqb name "bubble" then Some Bubble
  else if String.eqb name "selection" then Some Selection
  else if String.eqb name "insertion" then Some Insertion
  else if String.eqb name "quick" then Some Quick
  else if String.eqb name "merge" then Some Merge
  else if String.eqb name "heap" then Some Heap
  else if String.eqb name "shell" then Some Shell
  else None.

(** [startSort]: the [switch] has no [default] case; whatever the
    algorithm throws is caught and written to the console; all bars get
    their style reset afterwards. *)
Definition startSort (fuel : nat) (name : string) : M V unit :=
  try_catch
    ((match algorithm_of_name name with
      | Some alg => sortBy alg fuel
      | None => ret tt
      end) ;;
     playSound) ;;
  while fuel
    (fun i => n <- lengthB ;; ret (i <? n))
    (fun i => resetBarStyle i ;; ret (i + 1))
    0 ;;
  ret tt.

(** A run from a page that shows the given bars. *)
Definition page (values : list V) : state V :=
  {| heights := []; bars := values; log := [] |}.

Definition runSort (fuel : nat) (alg : algorithm) (values : list V) : outcome V unit :=
  sortBy alg fuel (page values).
End Script.

(** ** The number of bars *)

(** [calculateOptimalBarCount()] for a window that is [screenWidth] CSS
    pixels wide ([window.innerWidth], an integer): [Math.floor] of a
    quotient by a positive number is the division of [Z]. *)
Definition calculateOptimalBarCount (screenWidth : Z) : Z :=
  if screenWidth <=? 360 then (screenWidth - 40) / 14
  else if screenWidth <=? 480 then (screenWidth - 40) / 16
  else if screenWidth <=? 768 then (screenWidth - 60) / 18
  else Z.min (screenWidth - 100) 1200 / 22.

(** [updateBarCountInput()]: the count written to the input and
    returned. *)
Definition updateBarCountInput (screenWidth : Z) : Z :=
  Z.max 5 (Z.min 100 (calculateOptimalBarCount screenWidth)).

(** ** The colours of a gradient *)

(** One character of the class [[a-fA-F0-9]]. *)
Definition is_hex_digit (c : Ascii.ascii) : bool :=
  let n := Ascii.nat_of_ascii c in
  ((48 <=? n) && (n <=? 57) || (97 <=? n) && (n <=? 102) ||
   (65 <=? n) && (n <=? 70))%nat.

(** The string starts with [k] characters of that class. *)
Fixpoint hex_prefix (k : nat) (s : string) : bool :=
  match k, s with
  | O, _ => true
  | S k', String c s' => is_hex_digit c && hex_prefix k' s'
  | S _, EmptyString => false
  end.

(** [s.match(/#[a-fA-F0-9]{6}/g)]: the matches from left to right; the
    search goes on behind a match ([skip] characters are still part of
    the last one).  The empty list stands for [null]. *)
Fixpoint match_colors_from (skip : nat) (s : string) : list string :=
  match s with
  | EmptyString => []
  | String c s' =>
      match skip with
      | S k => match_colors_from k s'
      | O =>
          if Ascii.eqb c "#"%char && hex_prefix 6 s'
          then String c (substring 0 6 s') :: match_colors_from 6 s'
          else match_colors_from 0 s'
      end
  end.

Definition match_colors (s : string) : list string := match_colors_from 0 s.

(** The template of [applyCustomGradient] and [updateGradientPreview]:
    [`linear-gradient(${direction}, ${startColor} 0%, ${endColor} 100%)`]. *)
Definition customGradient (direction startColor endColor : string) : string :=
  ("linear-gradient(" ++ direction ++ ", " ++ startColor ++ " 0%, " ++
   endColor ++ " 100%)")%string.

(** The colours that [loadSavedTheme] writes to the two colour inputs
    for a saved gradient: the first two matches, when there are two. *)
Definition savedGradientColors (gradient : string) : option (string * string) :=
  match match_colors gradient with
  | c0 :: c1 :: _ => Some (c0, c1)
  | _ => None
  end.

(** ** Vocabulary of the properties *)

Section Vocabulary.
Context {V : Type}.

(** Total and partial weakest preconditions of a computation. *)
Definition twp {A} (m : M V A) (Q : A -> state V -> Prop) (s : state V) : Prop :=
  match m s with
  | Ok a s' => Q a s'
  | Err _ _ => False
  end.

Definition wp {A} (m : M V A) (Q : A -> state V -> Prop) (s : state V) : Prop :=
  match m s with
  | Ok a s' => Q a s'
  | Err _ _ => True
  end.

(** A property of the state that survives the computation however it
    ends. *)
Definition preserves {A} (W : state V -> Prop) (m : M V A) : Prop :=
  forall s, W s -> W (final (m s)).

(** The indices passed to [markAsSorted], for a list of events. *)
Fixpoint marks (l : list (event V)) : list Z :=
  match l with
  | [] => []
  | Bar i MarkSorted :: l' => i :: marks l'
  | _ :: l' => marks l'
  end.

(** What an event does to the heights shown by the bars. *)
Definition apply_event (e : event V) (b : list V) : list V :=
  match e with
  | Bar i (SetHeight v) => zset b i v
  | _ => b
  end.

(** Replaying a trace on a copy of the bars. *)
Definition replay (t : list (event V)) (b : list V) : list V :=
  fold_left (fun b e => apply_event e b) t b.

(** The same for a log (most recent event first). *)
Definition replay_log (l : list (event V)) (b : list V) : list V :=
  foldr apply_event b l.

(** At every pause of a log the array of the algorithm was the array
    [b] of the start with the height updates logged before the pause. *)
Fixpoint pauses_ok (b : list V) (l : list (event V)) : Prop :=
  match l with
  | [] => True
  | Wait h :: l' => replay_log l' b = h /\ pauses_ok b l'
  | _ :: l' => pauses_ok b l'
  end.

(** Two states with the same array and the same bars, and a computation
    that does not look at the log: from such states it ends the same
    way, in such states. *)
Definition same_store (s1 s2 : state V) : Prop :=
  heights s1 = heights s2 /\ bars s1 = bars s2.

Definition log_blind {A} (m : M V A) : Prop :=
  forall s1 s2, same_store s1 s2 ->
    match m s1, m s2 with
    | Ok a s1', Ok b s2' => a = b /\ same_store s1' s2'
    | Err e s1', Err e' s2' => e = e' /\ same_store s1' s2'
    | _, _ => False
    end.

(** The errors written to the console, for a list of events. *)
Fixpoint errors (l : list (event V)) : list error :=
  match l with
  | [] => []
  | ConsoleError e :: l' => e :: errors l'
  | _ :: l' => errors l'
  end.


Fixpoint settled (l : list (event V)) : Prop :=
  match l with
  | [] => True
  | Bar i (SetHeight _) :: l' => (i ∉ marks l') /\ settled l'
  | _ :: l' => settled l'
  end.




(** The bars show the array, which has [n] slots. *)
Definition in_sync (n : Z) (s : state V) : Prop :=
  bars s = heights s /\ Z.of_nat (length (heights s)) = n.

(** There are as many bars as slots of the array, [n]; moreover the log
    holds the marks [mk] (most recent first) and no update of a marked
    bar. *)
Definition in_len (n : Z) (s : state V) : Prop :=
  length (bars s) = length (heights s) /\ Z.of_nat (length (heights s)) = n.

Definition in_step (n : Z) (mk : list Z) (s : state V) : Prop :=
  in_len n s /\ marks (log s) = mk /\ settled (log s).

(** Every height update of the trace writes to a bar the value that the
    array [h] has at that index. *)
Definition quiet_event (h : list V) (e : event V) : Prop :=
  match e with
  | Bar i (SetHeight v) => zget h i = Some v
  | _ => True
  end.

Definition quiet (h : list V) (t : list (event V)) : Prop :=
  Forall (quiet_event h) t.

(** The array and the bars are the array [h], and the log holds no
    update that changes a bar of [h]. *)
Definition at_rest (h : list V) (s : state V) : Prop :=
  heights s = h /\ bars s = h /\ quiet h (log s).

(** The comparisons of a trace as the page shows them: the red glow on
    the bar whose height is about to be compared (in [partition], once
    for every test [heights[j] <= pivot]). *)
Definition compares (t : list (event V)) : nat :=
  length (omap (fun e => match e with
                         | Bar _ (Highlight Red Glow) => Some tt
                         | _ => None
                         end) t).


(** No height but those of [vals]: in the array, on the bars, and in the
    height updates of the log. *)
Definition update_from (vals : list V) (e : event V) : Prop :=
  match e with
  | Bar _ (SetHeight v) => v ∈ vals
  | _ => True
  end.

Definition from_input (vals : list V) (s : state V) : Prop :=
  Forall (fun v => v ∈ vals) (heights s) /\
  Forall (fun v => v ∈ vals) (bars s) /\
  Forall (update_from vals) (log s).

(** Two arrays agree outside the index range [lo..hi]. *)
Definition same_outside (lo hi : Z) (h h' : list V) : Prop :=
  length h' = length h /\
  forall k, k < lo \/ hi < k -> zget h' k = zget h k.

(** The slots of an array that a heapify call at [i] may touch: [i] and
    its descendants in the implicit binary tree. *)
Inductive below (i : Z) : Z -> Prop :=
| below_refl : below i i
| below_left k : below i k -> below i (2 * k + 1)
| below_right k : below i k -> below i (2 * k + 2).

(** A heapify call at [i] on the heap [h[0..n-1]] leaves the other slots
    alone. *)
Definition same_unless_below (n i : Z) (h h' : list V) : Prop :=
  length h' = length h /\
  forall k, ~ (below i k /\ k < n) -> zget h' k = zget h k.

End Vocabulary.

Section Shown.
Context {V : Type} `{JsOrd V}.

(** The array is the array [b] of the start with the height updates of
    the log, and it was so at every pause; there are as many bars as
    slots, and the bars show the array when the style of a bar takes
    every height. *)
Definition on_show (b : list V) (s : state V) : Prop :=
  replay_log (log s) b = heights s /\ pauses_ok b (log s) /\
  length (bars s) = length (heights s) /\
  ((forall v : V, px v = true) -> bars s = heights s).
End Shown.

(** *** Order on finite heights *)

(** [h[i]] for an array of integers, 0 outside the array. *)
Definition hget (h : list Z) (i : Z) : Z := default 0 (zget h i).

(** The slots [lo..hi-1] are in non-decreasing order. *)
Definition sorted_range (h : list Z) (lo hi : Z) : Prop :=
  forall a b, lo <= a -> a <= b -> b < hi -> hget h a <= hget h b.

(** The insertion loops: slot [p] of [h[0..i]] is free for [cur], the
    other slots are in order and those after [p] hold larger values. *)
Definition hole_inv (h : list Z) (i p cur : Z) : Prop :=
  (forall a b, 0 <= a <= b -> b <= i -> a <> p -> b <> p ->
     hget h a <= hget h b) /\
  (forall b, p < b <= i -> cur < hget h b).

(** The merge of two lists as the three loops of [merge] compute it. *)
Fixpoint merge_list (l1 : list Z) : list Z -> list Z :=
  fix inner (l2 : list Z) : list Z :=
    match l1, l2 with
    | [], _ => l2
    | _, [] => l1
    | a :: l1', b :: l2' =>
        if a <=? b then a :: merge_list l1' l2 else b :: inner l2'
    end.

(** The max-heap condition at node [k] of the heap [h[0..n-1]]. *)
Definition heap_at (h : list Z) (n k : Z) : Prop :=
  (2 * k + 1 < n -> hget h (2 * k + 1) <= hget h k) /\
  (2 * k + 2 < n -> hget h (2 * k + 2) <= hget h k).

(** [h'] comes from [h] by exchanging slots inside [lo..hi]. *)
Inductive exchanged (lo hi : Z) (h : list Z) : list Z -> Prop :=
| exchanged_refl : exchanged lo hi h h
| exchanged_step h' i j :
    exchanged lo hi h h' ->
    lo <= i <= hi -> lo <= j <= hi ->
    in_bounds h' i = true -> in_bounds h' j = true ->
    exchanged lo hi h (zset (zset h' i (hget h' j)) j (hget h' i)).

(** Bookkeeping of the proofs about arrays: the indices met in the goal,
    and a quantified fact already used. *)
Definition idx_marks (l : list Z) : Prop := True.
Definition hold (P : Prop) : Prop := P.

(** *** Strings of the colour picker *)

(** A valid simple colour, as an [<input type="color">] holds it: a
    number sign and six hexadecimal digits. *)
Definition is_simple_color (c : string) : bool :=
  match c with
  | String h t =>
      Ascii.eqb h "#"%char && hex_prefix 6 t && (String.length t =? 6)%nat
  | EmptyString => false
  end.

(** The string holds a number sign. *)
Fixpoint has_hash (s : string) : bool :=
  match s with
  | EmptyString => false
  | String c s' => Ascii.eqb c "#"%char || has_hash s'
  end.

(** * Proofs *)

(** Boolean comparisons of the script, as propositions. *)
Ltac zbool :=
  repeat match goal with
  | H : (_ <=? _) = true |- _ => apply Z.leb_le in H
  | H : (_ <=? _) = false |- _ => apply Z.leb_gt in H
  | H : (_ <? _) = true |- _ => apply Z.ltb_lt in H
  | H : (_ <? _) = false |- _ => apply Z.ltb_ge in H
  | H : (_ >=? _) = true |- _ => rewrite Z.geb_leb in H
  | H : (_ >=? _) = false |- _ => rewrite Z.geb_leb in H
  | H : (_ >? _) = true |- _ => rewrite Z.gtb_ltb in H
  | H : (_ >? _) = false |- _ => rewrite Z.gtb_ltb in H
  | H : (_ =? _) = true |- _ => apply Z.eqb_eq in H
  | H : (_ =? _) = false |- _ => apply Z.eqb_neq in H
  | H : negb _ = true |- _ => apply negb_true_iff in H
  | H : negb _ = false |- _ => apply negb_false_iff in H
  | H : (_ && _) = true |- _ => apply andb_true_iff in H; destruct H
  | H : (_ && _) = false |- _ => apply andb_false_iff in H
  end.

(** Arithmetic with [Math.floor(x / 2)]. *)
Ltac zdiv := Z.to_euclidean_division_equations; lia.

(** ** Arrays *)

Section ArrayFacts.
Context {A : Type}.
Implicit Types (l : list A) (i j k : Z) (v : A).

Lemma in_bounds_iff l i :
  in_bounds l i = true <-> 0 <= i < Z.of_nat (length l).
Proof. unfold in_bounds. rewrite andb_true_iff. lia. Qed.

Lemma in_bounds_false_iff l i :
  in_bounds l i = false <-> ~ (0 <= i < Z.of_nat (length l)).
Proof. rewrite <- in_bounds_iff. destruct (in_bounds l i); split; congruence. Qed.

Lemma zget_bounds l i v : zget l i = Some v -> 0 <= i < Z.of_nat (length l).
Proof.
  unfold zget. destruct (0 <=? i) eqn:E; [|discriminate].
  intros Hl. apply lookup_lt_Some in Hl. lia.
Qed.

Lemma zget_in_bounds l i v : zget l i = Some v -> in_bounds l i = true.
Proof. intros Hl. apply in_bounds_iff. eauto using zget_bounds. Qed.

Lemma in_bounds_zget l i : in_bounds l i = true -> exists v, zget l i = Some v.
Proof.
  rewrite in_bounds_iff. intros Hi. unfold zget.
  destruct (0 <=? i) eqn:E; [|lia].
  apply lookup_lt_is_Some. lia.
Qed.

Lemma zget_None l i : in_bounds l i = false -> zget l i = None.
Proof.
  rewrite in_bounds_false_iff. intros Hi. unfold zget.
  destruct (0 <=? i) eqn:E; [|done].
  apply lookup_ge_None. lia.
Qed.

Lemma length_zset l i v : length (zset l i v) = length l.
Proof. unfold zset. destruct (0 <=? i); [apply length_insert|done]. Qed.

Lemma in_bounds_zset l i v k : in_bounds (zset l i v) k = in_bounds l k.
Proof. unfold in_bounds. by rewrite length_zset. Qed.

Lemma zget_zset_eq l i v : in_bounds l i = true -> zget (zset l i v) i = Some v.
Proof.
  rewrite in_bounds_iff. intros Hi. unfold zget, zset.
  destruct (0 <=? i) eqn:E; [|lia].
  apply list_lookup_insert_eq. lia.
Qed.

Lemma zget_zset_ne l i j v : i <> j -> zget (zset l i v) j = zget l j.
Proof.
  intros Hne. unfold zget, zset.
  destruct (0 <=? j) eqn:Ej; [|done].
  destruct (0 <=? i) eqn:Ei; [|done].
  apply list_lookup_insert_ne. lia.
Qed.

Lemma zset_id l i v : zget l i = Some v -> zset l i v = l.
Proof.
  unfold zget, zset. destruct (0 <=? i); [|done].
  apply list_insert_id.
Qed.

Lemma zget_ext l l' : (forall i, zget l i = zget l' i) -> l = l'.
Proof.
  intros Hext. apply list_eq. intros n.
  specialize (Hext (Z.of_nat n)). unfold zget in Hext.
  destruct (0 <=? Z.of_nat n) eqn:E; [|zbool; lia].
  by rewrite Nat2Z.id in Hext.
Qed.

Lemma zset_exchange_perm l i j a b :
  zget l i = Some a -> zget l j = Some b -> zset (zset l i b) j a ≡ₚ l.
Proof.
  unfold zget, zset. destruct (0 <=? i); [|done]. destruct (0 <=? j); [|done].
  apply Permutation_insert_swap.
Qed.

Lemma zget_exchange_l l i j a b :
  zget l j = Some a -> zget l i = Some b ->
  zget (zset (zset l i a) j b) i = Some a.
Proof.
  intros Ha Hb. destruct (decide (i = j)) as [->|Hne].
  - rewrite zget_zset_eq by (rewrite in_bounds_zset; eauto using zget_in_bounds).
    congruence.
  - rewrite zget_zset_ne by done. eauto using zget_zset_eq, zget_in_bounds.
Qed.

Lemma zget_exchange_r l i j a b :
  zget l j = Some a -> zget l i = Some b ->
  zget (zset (zset l i a) j b) j = Some b.
Proof.
  intros Ha Hb. apply zget_zset_eq. rewrite in_bounds_zset.
  eauto using zget_in_bounds.
Qed.

Lemma zget_exchange_other l i j a b k :
  k <> i -> k <> j -> zget (zset (zset l i a) j b) k = zget l k.
Proof. intros Hi Hj. by rewrite !zget_zset_ne. Qed.

Lemma zset_shift_perm l j k x cur :
  zget l j = Some x -> in_bounds l k = true -> j <> k ->
  zset (zset l k x) j cur ≡ₚ zset l k cur.
Proof.
  intros Hj Hk Hne.
  assert (Heq : zset (zset l k x) j cur = zset (zset (zset l k cur) j cur) k x).
  { apply zget_ext. intros p.
    assert (Hjb : in_bounds l j = true) by eauto using zget_in_bounds.
    destruct (decide (p = k)) as [->|Hpk].
    - rewrite zget_zset_ne by done.
      rewrite !zget_zset_eq; rewrite ?in_bounds_zset; done.
    - rewrite (zget_zset_ne _ k p) by done.
      destruct (decide (p = j)) as [->|Hpj].
      + rewrite !zget_zset_eq; rewrite ?in_bounds_zset; done.
      + by rewrite !zget_zset_ne. }
  rewrite Heq. apply zset_exchange_perm.
  - by rewrite zget_zset_ne.
  - by apply zget_zset_eq.
Qed.

Lemma zget_app_l l1 l2 i :
  i < Z.of_nat (length l1) -> zget (l1 ++ l2) i = zget l1 i.
Proof.
  intros Hi. unfold zget. destruct (0 <=? i) eqn:E; [|done].
  apply lookup_app_l. lia.
Qed.

Lemma zget_app_r l1 l2 i :
  Z.of_nat (length l1) <= i -> zget (l1 ++ l2) i = zget l2 (i - Z.of_nat (length l1)).
Proof.
  intros Hi. unfold zget.
  destruct (0 <=? i) eqn:E; [|lia].
  destruct (0 <=? i - Z.of_nat (length l1)) eqn:E'; [|lia].
  rewrite lookup_app_r by lia. f_equal. lia.
Qed.

Lemma slice_inside l a b :
  0 <= a -> a <= b -> b <= Z.of_nat (length l) ->
  slice l a b = take (Z.to_nat (b - a)) (drop (Z.to_nat a) l).
Proof.
  intros Ha Hab Hb. unfold slice, slice_pos.
  destruct (a <? 0) eqn:Ea; [lia|]. destruct (b <? 0) eqn:Eb; [lia|].
  by rewrite !Z.min_l by lia.
Qed.

Lemma length_slice l a b :
  0 <= a -> a <= b -> b <= Z.of_nat (length l) ->
  Z.of_nat (length (slice l a b)) = b - a.
Proof.
  intros Ha Hab Hb. rewrite slice_inside by done.
  rewrite length_take, length_drop. lia.
Qed.

Lemma zget_slice l a b i :
  0 <= a -> a <= b -> b <= Z.of_nat (length l) ->
  0 <= i < b - a -> zget (slice l a b) i = zget l (a + i).
Proof.
  intros Ha Hab Hb Hi. rewrite slice_inside by done. unfold zget.
  destruct (0 <=? i) eqn:E; [|lia]. destruct (0 <=? a + i) eqn:E'; [|lia].
  rewrite lookup_take. case_decide; [|lia].
  rewrite lookup_drop. f_equal. lia.
Qed.
End ArrayFacts.

(** ** The monad *)

Section MonadFacts.
Context {V : Type} `{JsOrd V}.
Implicit Types (s : state V) (W : state V -> Prop).

Lemma twp_ret {A} (a : A) (Q : A -> state V -> Prop) s :
  Q a s -> twp (ret a) Q s.
Proof. done. Qed.

Lemma twp_bind {A B} (m : M V A) (f : A -> M V B) Q s :
  twp m (fun a s' => twp (f a) Q s') s -> twp (bind m f) Q s.
Proof. unfold twp, bind. by destruct (m s). Qed.

Lemma twp_mono {A} (m : M V A) (Q Q' : A -> state V -> Prop) s :
  twp m Q s -> (forall a s', Q a s' -> Q' a s') -> twp m Q' s.
Proof. unfold twp. destruct (m s); [eauto|done]. Qed.

Lemma twp_elim {A} (m : M V A) Q s :
  twp m Q s -> exists a s', m s = Ok a s' /\ Q a s'.
Proof. unfold twp. destruct (m s); [eauto|done]. Qed.

Lemma twp_intro {A} (m : M V A) (Q : A -> state V -> Prop) s a s' :
  m s = Ok a s' -> Q a s' -> twp m Q s.
Proof. unfold twp. intros Hm HQ. by rewrite Hm. Qed.

Lemma twp_wp {A} (m : M V A) Q s : twp m Q s -> wp m Q s.
Proof. unfold twp, wp. by destruct (m s). Qed.

Lemma twp_conj {A} (m : M V A) (Q Q' : A -> state V -> Prop) s :
  twp m Q s -> wp m Q' s -> twp m (fun a s' => Q a s' /\ Q' a s') s.
Proof. unfold twp, wp. by destruct (m s). Qed.

Lemma wp_ret {A} (a : A) (Q : A -> state V -> Prop) s :
  Q a s -> wp (ret a) Q s.
Proof. done. Qed.

Lemma wp_bind {A B} (m : M V A) (f : A -> M V B) Q s :
  wp m (fun a s' => wp (f a) Q s') s -> wp (bind m f) Q s.
Proof. unfold wp, bind. by destruct (m s). Qed.

Lemma wp_mono {A} (m : M V A) (Q Q' : A -> state V -> Prop) s :
  wp m Q s -> (forall a s', Q a s' -> Q' a s') -> wp m Q' s.
Proof. unfold wp. destruct (m s); [eauto|done]. Qed.

Lemma wp_elim {A} (m : M V A) Q s a s' :
  wp m Q s -> m s = Ok a s' -> Q a s'.
Proof. unfold wp. intros Hwp Hm. by rewrite Hm in Hwp. Qed.

(** Primitive accesses. *)

Lemma twp_getBarHeights (Q : unit -> state V -> Prop) s :
  Q tt {| heights := bars s; bars := bars s; log := log s |} ->
  twp getBarHeights Q s.
Proof. done. Qed.

Lemma twp_lengthH (Q : Z -> state V -> Prop) s :
  Q (Z.of_nat (length (heights s))) s -> twp lengthH Q s.
Proof. done. Qed.

Lemma twp_lengthB (Q : Z -> state V -> Prop) s :
  Q (Z.of_nat (length (bars s))) s -> twp lengthB Q s.
Proof. done. Qed.

Lemma twp_readH i (Q : V -> state V -> Prop) s :
  in_bounds (heights s) i = true ->
  (forall v, zget (heights s) i = Some v -> Q v s) ->
  twp (readH i) Q s.
Proof.
  intros Hi HQ. destruct (in_bounds_zget _ _ Hi) as [v Hv].
  unfold twp, readH. rewrite Hv. auto.
Qed.

Lemma twp_readA arr i (Q : V -> state V -> Prop) s :
  in_bounds arr i = true ->
  (forall v, zget arr i = Some v -> Q v s) ->
  twp (readA arr i) Q s.
Proof.
  intros Hi HQ. destruct (in_bounds_zget _ _ Hi) as [v Hv].
  unfold twp, readA. rewrite Hv. auto.
Qed.

Lemma twp_sliceH a b (Q : list V -> state V -> Prop) s :
  (forall arr, arr = slice (heights s) a b -> Q arr s) -> twp (sliceH a b) Q s.
Proof. intros HQ. by apply HQ. Qed.

Lemma wp_sliceH a b (Q : list V -> state V -> Prop) s :
  (forall arr, arr = slice (heights s) a b -> Q arr s) -> wp (sliceH a b) Q s.
Proof. intros HQ. by apply HQ. Qed.

Lemma twp_writeH i v (Q : unit -> state V -> Prop) s :
  in_bounds (heights s) i = true ->
  Q tt {| heights := zset (heights s) i v; bars := bars s; log := log s |} ->
  twp (writeH i v) Q s.
Proof. intros Hi HQ. unfold twp, writeH. by rewrite Hi. Qed.

Lemma twp_onBar i op (Q : unit -> state V -> Prop) s :
  in_bounds (bars s) i = true ->
  Q tt {| heights := heights s;
          bars := match op with SetHeight v => setPx (bars s) i v | _ => bars s end;
          log := Bar i op :: log s |} ->
  twp (onBar i op) Q s.
Proof. intros Hi HQ. unfold twp, onBar. by rewrite Hi. Qed.

Lemma twp_emit e (Q : unit -> state V -> Prop) s :
  Q tt {| heights := heights s; bars := bars s; log := e :: log s |} ->
  twp (emit e) Q s.
Proof. done. Qed.

Lemma twp_delay (Q : unit -> state V -> Prop) s :
  Q tt {| heights := heights s; bars := bars s;
          log := Wait (heights s) :: log s |} ->
  twp delay Q s.
Proof. done. Qed.

Lemma wp_getBarHeights (Q : unit -> state V -> Prop) s :
  Q tt {| heights := bars s; bars := bars s; log := log s |} ->
  wp getBarHeights Q s.
Proof. done. Qed.

Lemma wp_lengthH (Q : Z -> state V -> Prop) s :
  Q (Z.of_nat (length (heights s))) s -> wp lengthH Q s.
Proof. done. Qed.

Lemma wp_lengthB (Q : Z -> state V -> Prop) s :
  Q (Z.of_nat (length (bars s))) s -> wp lengthB Q s.
Proof. done. Qed.

Lemma wp_readH i (Q : V -> state V -> Prop) s :
  (forall v, zget (heights s) i = Some v -> Q v s) -> wp (readH i) Q s.
Proof. intros HQ. unfold wp, readH. destruct (zget (heights s) i); auto. Qed.

Lemma wp_readA arr i (Q : V -> state V -> Prop) s :
  (forall v, zget arr i = Some v -> Q v s) -> wp (readA arr i) Q s.
Proof. intros HQ. unfold wp, readA. destruct (zget arr i); auto. Qed.

Lemma wp_writeH i v (Q : unit -> state V -> Prop) s :
  (in_bounds (heights s) i = true ->
   Q tt {| heights := zset (heights s) i v; bars := bars s; log := log s |}) ->
  wp (writeH i v) Q s.
Proof. intros HQ. unfold wp, writeH. destruct (in_bounds (heights s) i); auto. Qed.

Lemma wp_onBar i op (Q : unit -> state V -> Prop) s :
  (in_bounds (bars s) i = true ->
   Q tt {| heights := heights s;
           bars := match op with SetHeight v => setPx (bars s) i v | _ => bars s end;
           log := Bar i op :: log s |}) ->
  wp (onBar i op) Q s.
Proof. intros HQ. unfold wp, onBar. destruct (in_bounds (bars s) i); auto. Qed.

Lemma wp_emit e (Q : unit -> state V -> Prop) s :
  Q tt {| heights := heights s; bars := bars s; log := e :: log s |} ->
  wp (emit e) Q s.
Proof. done. Qed.

Lemma wp_delay (Q : unit -> state V -> Prop) s :
  Q tt {| heights := heights s; bars := bars s;
          log := Wait (heights s) :: log s |} ->
  wp delay Q s.
Proof. done. Qed.

(** The update of a bar. *)
Lemma length_setPx (b : list V) i v : length (setPx b i v) = length b.
Proof. unfold setPx. destruct (px v); [apply length_zset|done]. Qed.

Lemma in_bounds_setPx (b : list V) i v k :
  in_bounds (setPx b i v) k = in_bounds b k.
Proof. unfold in_bounds. by rewrite length_setPx. Qed.

Lemma setPx_valid (b : list V) i v : px v = true -> setPx b i v = zset b i v.
Proof. unfold setPx. by intros ->. Qed.

Lemma in_sync_len n s : in_sync n s -> in_len n s.
Proof. intros [Hb Hlen]. split; [by rewrite Hb|done]. Qed.

(** Loops: an invariant [I] and, for total correctness, a measure on the
    local variables that the body decreases. *)

Lemma twp_while {L} (I : L -> state V -> Prop) (mu : L -> nat)
    (cond : L -> M V bool) (body : L -> M V L) (Q : L -> state V -> Prop) :
  (forall x s, I x s ->
     twp (cond x) (fun c s' =>
       if c then twp (body x) (fun x' s'' => I x' s'' /\ (mu x' < mu x)%nat) s'
       else Q x s') s) ->
  forall fuel x s, I x s -> (mu x < fuel)%nat -> twp (while fuel cond body x) Q s.
Proof.
  intros Hstep fuel. induction fuel as [|fuel IH]; intros x s HI Hmu; [lia|].
  simpl. apply twp_bind. eapply twp_mono; [apply Hstep, HI|].
  intros [] s' Hc; simpl in Hc.
  - apply twp_bind. eapply twp_mono; [apply Hc|].
    intros x' s'' [HI' Hlt]. apply IH; [done|lia].
  - by apply twp_ret.
Qed.

Lemma wp_while {L} (I : L -> state V -> Prop)
    (cond : L -> M V bool) (body : L -> M V L) (Q : L -> state V -> Prop) :
  (forall x s, I x s ->
     wp (cond x) (fun c s' => if c then wp (body x) I s' else Q x s') s) ->
  forall fuel x s, I x s -> wp (while fuel cond body x) Q s.
Proof.
  intros Hstep fuel. induction fuel as [|fuel IH]; intros x s HI; [done|].
  simpl. apply wp_bind. eapply wp_mono; [apply Hstep, HI|].
  intros [] s' Hc; simpl in Hc.
  - apply wp_bind. eapply wp_mono; [apply Hc|].
    intros x' s'' HI'. by apply IH.
  - by apply wp_ret.
Qed.

(** Properties that every step keeps. *)

Lemma preserves_ret {A} W (a : A) : preserves (V:=V) W (ret a).
Proof. by intros s. Qed.

Lemma preserves_throw {A} W e : preserves (V:=V) (A:=A) W (throw e).
Proof. by intros s. Qed.

Lemma preserves_bind {A B} W (m : M V A) (f : A -> M V B) :
  preserves W m -> (forall a, preserves W (f a)) -> preserves W (bind m f).
Proof.
  intros Hm Hf s HW. unfold bind. specialize (Hm s HW).
  destruct (m s) as [a s'|e s']; simpl in *; [by apply Hf|done].
Qed.

Lemma preserves_while {L} W (cond : L -> M V bool) (body : L -> M V L) :
  (forall x, preserves W (cond x)) -> (forall x, preserves W (body x)) ->
  forall fuel x, preserves W (while fuel cond body x).
Proof.
  intros Hc Hb fuel. induction fuel as [|fuel IH]; intros x; simpl.
  - apply preserves_throw.
  - apply preserves_bind; [apply Hc|]. intros [].
    + apply preserves_bind; [apply Hb|apply IH].
    + apply preserves_ret.
Qed.

Lemma preserves_pure {A} W (m : M V A) :
  (forall s, final (m s) = s) -> preserves W m.
Proof. intros Hm s HW. by rewrite Hm. Qed.

Lemma preserves_readH W i : preserves W (readH i).
Proof. apply preserves_pure. intros s. unfold readH. by destruct (zget _ _). Qed.

Lemma preserves_readA W arr i : preserves W (readA arr i).
Proof. apply preserves_pure. intros s. unfold readA. by destruct (zget _ _). Qed.

Lemma preserves_sliceH W a b : preserves W (sliceH a b).
Proof. by apply preserves_pure. Qed.

Lemma preserves_lengthH W : preserves W lengthH.
Proof. by apply preserves_pure. Qed.

Lemma preserves_lengthB W : preserves W lengthB.
Proof. by apply preserves_pure. Qed.
End MonadFacts.

(** Symbolic execution of one primitive statement. *)
Ltac reduce_state := cbn [heights bars log fst snd].

Ltac in_range :=
  apply in_bounds_iff; reduce_state;
  rewrite ?length_zset, ?length_setPx; zbool; lia.

Ltac unfold_bar_ops :=
  unfold highlightBar, updateBarHeight, addPulse, resetBarStyle, markAsSorted,
    playSound, delay.

Ltac tprim :=
  lazymatch goal with
  | |- twp (ret _) _ _ => apply twp_ret
  | |- twp (readH _) _ _ => apply twp_readH; [try in_range|reduce_state; intros ? ?]
  | |- twp (readA _ _) _ _ => apply twp_readA; [try in_range|reduce_state; intros ? ?]
  | |- twp (sliceH _ _) _ _ => apply twp_sliceH; reduce_state; intros ? ?
  | |- twp (writeH _ _) _ _ => apply twp_writeH; [try in_range|]
  | |- twp (onBar _ _) _ _ => apply twp_onBar; [try in_range|]
  | |- twp (emit _) _ _ => apply twp_emit
  | |- twp lengthH _ _ => apply twp_lengthH
  | |- twp lengthB _ _ => apply twp_lengthB
  | |- twp getBarHeights _ _ => apply twp_getBarHeights
  | |- twp (highlightBar _ _ _) _ _ => unfold highlightBar; apply twp_onBar; [try in_range|]
  | |- twp (updateBarHeight _ _) _ _ => unfold updateBarHeight; apply twp_onBar; [try in_range|]
  | |- twp (addPulse _) _ _ => unfold addPulse; apply twp_onBar; [try in_range|]
  | |- twp (resetBarStyle _) _ _ => unfold resetBarStyle; apply twp_onBar; [try in_range|]
  | |- twp (markAsSorted _) _ _ => unfold markAsSorted; apply twp_onBar; [try in_range|]
  | |- twp playSound _ _ => apply twp_emit
  | |- twp delay _ _ => apply twp_delay
  end; reduce_state.

Ltac pprim :=
  lazymatch goal with
  | |- wp (ret _) _ _ => apply wp_ret
  | |- wp (readH _) _ _ => apply wp_readH; reduce_state; intros ? ?
  | |- wp (readA _ _) _ _ => apply wp_readA; reduce_state; intros ? ?
  | |- wp (sliceH _ _) _ _ => apply wp_sliceH; reduce_state; intros ? ?
  | |- wp (writeH _ _) _ _ => apply wp_writeH; reduce_state; intros ?
  | |- wp (onBar _ _) _ _ => apply wp_onBar; reduce_state; intros ?
  | |- wp (emit _) _ _ => apply wp_emit
  | |- wp lengthH _ _ => apply wp_lengthH
  | |- wp lengthB _ _ => apply wp_lengthB
  | |- wp getBarHeights _ _ => apply wp_getBarHeights
  | |- wp (highlightBar _ _ _) _ _ => unfold highlightBar; apply wp_onBar; reduce_state; intros ?
  | |- wp (updateBarHeight _ _) _ _ => unfold updateBarHeight; apply wp_onBar; reduce_state; intros ?
  | |- wp (addPulse _) _ _ => unfold addPulse; apply wp_onBar; reduce_state; intros ?
  | |- wp (resetBarStyle _) _ _ => unfold resetBarStyle; apply wp_onBar; reduce_state; intros ?
  | |- wp (markAsSorted _) _ _ => unfold markAsSorted; apply wp_onBar; reduce_state; intros ?
  | |- wp playSound _ _ => apply wp_emit
  | |- wp delay _ _ => apply wp_delay
  end; reduce_state.

(** ** An assignment to the array with the update of its bar *)

Section SyncedSteps.
Context {V : Type} `{JsOrd V}.
Implicit Types (s : state V) (h : list V) (l : list (event V)).

(** [[h[i], h[j]] = [h[j], h[i]]] followed by the two bar updates. *)
Lemma twp_swap_sync {A} i j (k : M V A) Q s :
  length (bars s) = length (heights s) ->
  in_bounds (heights s) i = true -> in_bounds (heights s) j = true ->
  (forall a b, zget (heights s) j = Some a -> zget (heights s) i = Some b ->
     twp k Q {| heights := zset (zset (heights s) i a) j b;
                bars := setPx (setPx (bars s) i a) j b;
                log := Bar j (SetHeight b) :: Bar i (SetHeight a) :: log s |}) ->
  twp (swapH i j ;; syncBar i ;; syncBar j ;; k) Q s.
Proof.
  intros Hsync Hi Hj Hk.
  assert (Hbi : in_bounds (bars s) i = true).
  { apply in_bounds_iff. apply in_bounds_iff in Hi. lia. }
  assert (Hbj : in_bounds (bars s) j = true).
  { apply in_bounds_iff. apply in_bounds_iff in Hj. lia. }
  unfold swapH, syncBar;
    repeat (first [apply twp_bind|tprim];
            rewrite ?in_bounds_zset, ?in_bounds_setPx; try done).
  repeat match goal with
  | Hx : zget (zset (zset _ i _) j _) i = Some _ |- _ =>
      rewrite zget_exchange_l in Hx by done; injection Hx as <-
  | Hx : zget (zset (zset _ i _) j _) j = Some _ |- _ =>
      rewrite zget_exchange_r in Hx by done; injection Hx as <-
  end.
  try (by apply Hk).
Qed.

Lemma wp_swap_sync {A} i j (k : M V A) Q s :
  (forall a b, zget (heights s) j = Some a -> zget (heights s) i = Some b ->
     wp k Q {| heights := zset (zset (heights s) i a) j b;
               bars := setPx (setPx (bars s) i a) j b;
               log := Bar j (SetHeight b) :: Bar i (SetHeight a) :: log s |}) ->
  wp (swapH i j ;; syncBar i ;; syncBar j ;; k) Q s.
Proof.
  intros Hk.
  unfold swapH, syncBar;
    repeat (first [apply wp_bind|pprim]; rewrite ?in_bounds_zset).
  repeat match goal with
  | Hx : zget (zset (zset _ i _) j _) i = Some _ |- _ =>
      rewrite zget_exchange_l in Hx by done; injection Hx as <-
  | Hx : zget (zset (zset _ i _) j _) j = Some _ |- _ =>
      rewrite zget_exchange_r in Hx by done; injection Hx as <-
  end.
  try (by apply Hk).
Qed.

(** [h[k] = v] followed by the update of bar [k]. *)
Lemma twp_write_sync {A} i v (k : M V A) Q s :
  length (bars s) = length (heights s) ->
  in_bounds (heights s) i = true ->
  twp k Q {| heights := zset (heights s) i v; bars := setPx (bars s) i v;
             log := Bar i (SetHeight v) :: log s |} ->
  twp (writeH i v ;; syncBar i ;; k) Q s.
Proof.
  intros Hsync Hi Hk.
  assert (Hbi : in_bounds (bars s) i = true).
  { apply in_bounds_iff. apply in_bounds_iff in Hi. lia. }
  unfold swapH, syncBar;
    repeat (first [apply twp_bind|tprim];
            rewrite ?in_bounds_zset, ?in_bounds_setPx; try done).
  match goal with
  | Hx : zget (zset _ i _) i = Some _ |- _ =>
      rewrite zget_zset_eq in Hx by done; injection Hx as <-
  end.
  try (by apply Hk).
Qed.

Lemma wp_write_sync {A} i v (k : M V A) Q s :
  (in_bounds (heights s) i = true ->
   wp k Q {| heights := zset (heights s) i v; bars := setPx (bars s) i v;
             log := Bar i (SetHeight v) :: log s |}) ->
  wp (writeH i v ;; syncBar i ;; k) Q s.
Proof.
  intros Hk.
  unfold swapH, syncBar;
    repeat (first [apply wp_bind|pprim]; rewrite ?in_bounds_zset).
  match goal with
  | Hx : zget (zset _ i _) i = Some _ |- _ =>
      rewrite zget_zset_eq in Hx by done; injection Hx as <-
  end.
  try (by apply Hk).
Qed.

Lemma twp_write_update {A} i v (k : M V A) Q s :
  length (bars s) = length (heights s) ->
  in_bounds (heights s) i = true ->
  twp k Q {| heights := zset (heights s) i v; bars := setPx (bars s) i v;
             log := Bar i (SetHeight v) :: log s |} ->
  twp (writeH i v ;; updateBarHeight i v ;; k) Q s.
Proof.
  intros Hsync Hi Hk.
  assert (Hbi : in_bounds (bars s) i = true).
  { apply in_bounds_iff. apply in_bounds_iff in Hi. lia. }
  unfold swapH, syncBar;
    repeat (first [apply twp_bind|tprim];
            rewrite ?in_bounds_zset, ?in_bounds_setPx; try done).
Qed.

Lemma wp_write_update {A} i v (k : M V A) Q s :
  (in_bounds (heights s) i = true ->
   wp k Q {| heights := zset (heights s) i v; bars := setPx (bars s) i v;
             log := Bar i (SetHeight v) :: log s |}) ->
  wp (writeH i v ;; updateBarHeight i v ;; k) Q s.
Proof.
  intros Hk.
  unfold swapH, syncBar;
    repeat (first [apply wp_bind|pprim]; rewrite ?in_bounds_zset).
  try (by apply Hk).
Qed.
End SyncedSteps.

(** Symbolic execution of the next statement of a sequence. *)
Ltac tstep :=
  cbv beta iota;
  lazymatch goal with
  | |- twp (bind (swapH _ _) (fun _ => bind (syncBar _) (fun _ => bind (syncBar _) _))) _ _ =>
      apply twp_swap_sync;
      [reduce_state; try done | try in_range | try in_range
      | reduce_state; intros ? ? ? ?]
  | |- twp (bind (writeH _ _) (fun _ => bind (syncBar _) _)) _ _ =>
      apply twp_write_sync; [reduce_state; try done | try in_range | reduce_state]
  | |- twp (bind (writeH _ _) (fun _ => bind (updateBarHeight _ _) _)) _ _ =>
      apply twp_write_update; [reduce_state; try done | try in_range | reduce_state]
  | |- twp (bind _ _) _ _ => apply twp_bind; try tprim
  | |- _ => tprim
  end.

Ltac pstep :=
  cbv beta iota;
  lazymatch goal with
  | |- wp (bind (swapH _ _) (fun _ => bind (syncBar _) (fun _ => bind (syncBar _) _))) _ _ =>
      apply wp_swap_sync; reduce_state; intros ? ? ? ?
  | |- wp (bind (writeH _ _) (fun _ => bind (syncBar _) _)) _ _ =>
      apply wp_write_sync; reduce_state; intros ?
  | |- wp (bind (writeH _ _) (fun _ => bind (updateBarHeight _ _) _)) _ _ =>
      apply wp_write_update; reduce_state; intros ?
  | |- wp (bind _ _) _ _ => apply wp_bind; try pprim
  | |- _ => pprim
  end.

Ltac open_step :=
  cbv beta in *;
  repeat match goal with
  | Hx : in_step _ _ _ |- _ => destruct Hx as (? & ? & ?)
  | Hx : in_len _ _ |- _ => destruct Hx as (? & ?)
  end.

Ltac close_step :=
  unfold in_step, in_len; cbn [heights bars log marks settled];
  repeat match goal with Hm : marks (log _) = _ |- _ => rewrite Hm end;
  rewrite ?length_zset, ?length_setPx; repeat split;
  try done; try lia; try apply not_elem_of_nil;
  try (rewrite elem_of_reverse, elem_of_seqZ; lia);
  try (rewrite elem_of_seqZ; lia).

Lemma reverse_seqZ_succ i :
  0 <= i -> reverse (seqZ 0 (i + 1)) = i :: reverse (seqZ 0 i).
Proof.
  intros Hi. replace (i + 1) with (Z.of_nat (S (Z.to_nat i))) by lia.
  rewrite seqZ_S, reverse_app, Z2Nat.id by lia. simpl. f_equal; lia.
Qed.

(** ** Runs finish and stay in bounds *)

Section Structure.
Context {V : Type} `{JsOrd V}.
Implicit Types (s : state V) (h : list V) (l : list (event V)).

(** The closing cascade of bubble and shell sort marks the bars in
    increasing order. *)
Lemma mark_cascade_structure fuel N s (cond : Z -> M V bool) :
  (forall i s', Z.of_nat (length (bars s')) = N -> cond i s' = Ok (i <? N) s') ->
  (Z.to_nat N < fuel)%nat -> 0 <= N ->
  in_step N [] s ->
  twp (while fuel cond (fun i => markAsSorted i ;; delay ;; ret (i + 1)) 0)
    (fun _ s' => in_step N (reverse (seqZ 0 N)) s' /\ heights s' = heights s) s.
Proof.
  intros Hcond Hfuel HN Hs.
  apply (twp_while
           (fun i s' => 0 <= i <= N /\ in_step N (reverse (seqZ 0 i)) s' /\
                        heights s' = heights s)
           (fun i => Z.to_nat (N - i))); cycle 1.
  { split; [lia|]. by split. }
  { lia. }
  intros i s1 (Hi & Hs1 & Hh). open_step.
  unfold twp at 1. rewrite Hcond by congruence.
  destruct (i <? N) eqn:Hc; zbool.
  - repeat tstep. split; [split; [lia|split; [|done]]|lia].
    rewrite reverse_seqZ_succ by lia. close_step.
  - assert (i = N) as -> by lia. split; [close_step|done].
Qed.

Lemma bubbleSort_structure fuel s :
  (length (bars s) < fuel)%nat ->
  marks (log s) = [] -> settled (log s) ->
  twp (bubbleSort fuel)
    (fun _ s' => in_step (Z.of_nat (length (bars s)))
                   (reverse (seqZ 0 (Z.of_nat (length (bars s))))) s') s.
Proof.
  intros Hfuel Hmk Hst. unfold bubbleSort.
  set (N := Z.of_nat (length (bars s))).
  tstep. tstep.
  eapply twp_mono.
  { apply (twp_while (fun i s' => 0 <= i <= N /\ in_step N [] s')
             (fun i => Z.to_nat (N - i))
             _ _ (fun _ s' => in_step N [] s')).
    - intros i s1 (Hi & Hs1). open_step. repeat tstep.
      replace (Z.of_nat (length (heights s1))) with N by done.
      destruct (i <? N) eqn:Hc; zbool; [|close_step].
      tstep. eapply twp_mono.
      { apply (twp_while (fun j s' => 0 <= j /\ in_step N [] s')
             (fun j => Z.to_nat (N - i - 1 - j))
             _ _ (fun _ s' => in_step N [] s')).
        - intros j s2 (Hj & Hs2). open_step. repeat tstep.
          replace (Z.of_nat (length (heights s2))) with N by done.
          destruct (j <? N - i - 1) eqn:Hc2; zbool; [|close_step].
          repeat tstep.
          destruct (gtb _ _); repeat tstep; close_step.
        - split; [lia|close_step].
        - lia. }
      intros ? s2 Hs2. tstep. split; [split; [lia|done]|lia].
    - split; [lia|close_step].
    - lia. }
  intros ? s1 Hs1. tstep. eapply twp_mono.
  { apply (mark_cascade_structure fuel N); [| lia | lia | done].
    intros i s' Hlen. unfold bind, lengthB, ret. by rewrite Hlen. }
  intros ? s2 [Hs2 _]. by tstep.
Qed.

Lemma selectionSort_structure fuel s :
  (length (bars s) < fuel)%nat ->
  marks (log s) = [] -> settled (log s) ->
  twp (selectionSort fuel)
    (fun _ s' => in_step (Z.of_nat (length (bars s)))
                   (reverse (seqZ 0 (Z.of_nat (length (bars s))))) s') s.
Proof.
  intros Hfuel Hmk Hst. unfold selectionSort.
  set (N := Z.of_nat (length (bars s))).
  repeat tstep.
  eapply twp_mono.
  { apply (twp_while (fun i s' => 0 <= i <= N /\ in_step N (reverse (seqZ 0 i)) s')
             (fun i => Z.to_nat (N - i))
             _ _ (fun _ s' => in_step N (reverse (seqZ 0 N)) s')).
    - intros i s1 (Hi & Hs1). open_step. repeat tstep.
      replace (Z.of_nat (length (heights s1))) with N by done.
      destruct (i <? N) eqn:Hc; zbool; cycle 1.
      { assert (i = N) as -> by lia. close_step. }
      tstep. eapply twp_mono.
      { apply (twp_while
                 (fun '(j, m) s' => i + 1 <= j <= N /\ i <= m < j /\
                                    in_step N (reverse (seqZ 0 i)) s')
                 (fun '(j, m) => Z.to_nat (N - j))
                 _ _ (fun '(j, m) s' => i <= m < N /\
                                        in_step N (reverse (seqZ 0 i)) s')).
        - intros [j m] s2 (Hj & Hm & Hs2). open_step. repeat tstep.
          replace (Z.of_nat (length (heights s2))) with N by done.
          destruct (j <? N) eqn:Hc2; zbool; [|split; [lia|close_step]].
          repeat tstep.
          destruct (ltb _ _); repeat tstep; (split; [|lia]);
            (split; [lia|]); (split; [lia|]); close_step.
        - split; [lia|]. split; [lia|]. close_step.
        - lia. }
      intros [j m] s2 (Hm & Hs2). open_step. tstep. cbn [snd].
      destruct (negb (m =? i)); repeat tstep;
        rewrite reverse_seqZ_succ by lia; (split; [|lia]); (split; [lia|]);
        close_step.
    - split; [lia|close_step].
    - lia. }
  intros ? s1 Hs1. by tstep.
Qed.

Lemma insertionSort_structure fuel s :
  (length (bars s) < fuel)%nat ->
  twp (insertionSort fuel)
    (fun _ s' => in_len (Z.of_nat (length (bars s))) s') s.
Proof.
  intros Hfuel. unfold insertionSort.
  set (N := Z.of_nat (length (bars s))).
  repeat tstep.
  eapply twp_mono.
  { apply (twp_while (fun i s' => 1 <= i /\ in_len N s')
             (fun i => Z.to_nat (N - i))
             _ _ (fun _ s' => in_len N s')).
    - intros i s1 (Hi & Hs1). open_step. repeat tstep.
      replace (Z.of_nat (length (heights s1))) with N by done.
      destruct (i <? N) eqn:Hc; zbool; [|close_step].
      repeat tstep. eapply twp_mono.
      { apply (twp_while
                 (fun j s' => -1 <= j < i /\ in_len N s')
                 (fun j => Z.to_nat (j + 1))
                 _ _ (fun j s' => -1 <= j < i /\ in_len N s')).
        - intros j s2 (Hj & Hs2). open_step.
          destruct (j >=? 0) eqn:Hc2; zbool.
          + repeat tstep. destruct (gtb _ _); [|split; [lia|close_step]].
            repeat tstep. split; [|lia]. split; [lia|close_step].
          + tstep. split; [lia|close_step].
        - split; [lia|close_step].
        - lia. }
      intros j s2 (Hj & Hs2). open_step. repeat tstep.
      split; [|lia]. split; [lia|close_step].
    - split; [lia|close_step].
    - lia. }
  intros ? s1 Hs1. by tstep.
Qed.

Lemma shellSort_structure fuel s :
  (length (bars s) < fuel)%nat ->
  marks (log s) = [] -> settled (log s) ->
  twp (shellSort fuel)
    (fun _ s' => in_step (Z.of_nat (length (bars s)))
                   (reverse (seqZ 0 (Z.of_nat (length (bars s))))) s') s.
Proof.
  intros Hfuel Hmk Hst. unfold shellSort.
  set (N := Z.of_nat (length (bars s))).
  repeat tstep. fold N.
  eapply twp_mono.
  { apply (twp_while (fun gap s' => 0 <= gap <= N /\ in_step N [] s')
             (fun gap => Z.to_nat gap)
             _ _ (fun _ s' => in_step N [] s')).
    - intros gap s1 (Hgap & Hs1). open_step. tstep.
      destruct (gap >? 0) eqn:Hc; zbool; [|close_step].
      tstep. eapply twp_mono.
      { apply (twp_while (fun i s' => gap <= i /\ in_step N [] s')
                 (fun i => Z.to_nat (N - i))
                 _ _ (fun _ s' => in_step N [] s')).
        - intros i s2 (Hi & Hs2). open_step. tstep.
          destruct (i <? N) eqn:Hc2; zbool; [|close_step].
          repeat tstep. eapply twp_mono.
          { apply (twp_while (fun j s' => 0 <= j <= i /\ in_step N [] s')
                     (fun j => Z.to_nat j)
                     _ _ (fun j s' => 0 <= j <= i /\ in_step N [] s')).
            - intros j s3 (Hj & Hs3). open_step.
              destruct (j >=? gap) eqn:Hc3; zbool.
              + repeat tstep. destruct (gtb _ _); [|split; [lia|close_step]].
                repeat tstep. split; [|lia]. split; [lia|close_step].
              + tstep. split; [lia|close_step].
            - split; [lia|close_step].
            - lia. }
          intros j s3 (Hj & Hs3). open_step. repeat tstep.
          split; [|lia]. split; [lia|close_step].
        - split; [lia|close_step].
        - lia. }
      intros ? s2 Hs2. tstep. split; [|zdiv]. split; [zdiv|done].
    - split; [zdiv|close_step].
    - zdiv. }
  intros ? s1 Hs1. tstep. fold N. eapply twp_mono.
  { apply (mark_cascade_structure fuel N); [|lia|lia|done]. done. }
  intros ? s2 [Hs2 _]. by tstep.
Qed.

(** *** Frames *)

Lemma same_outside_refl lo hi h : same_outside lo hi h h.
Proof. by split. Qed.

Lemma same_outside_zset lo hi h0 h i v :
  same_outside lo hi h0 h -> lo <= i <= hi ->
  same_outside lo hi h0 (zset h i v).
Proof.
  intros [Hlen Hout] Hi. split; [by rewrite length_zset|].
  intros k Hk. rewrite zget_zset_ne by lia. by apply Hout.
Qed.

Lemma same_outside_trans lo hi h0 h1 h2 :
  same_outside lo hi h0 h1 -> same_outside lo hi h1 h2 ->
  same_outside lo hi h0 h2.
Proof.
  intros [Hlen1 Hout1] [Hlen2 Hout2]. split; [congruence|].
  intros k Hk. rewrite Hout2, Hout1; auto.
Qed.

Lemma same_outside_weaken lo hi lo' hi' h0 h :
  same_outside lo hi h0 h -> lo' <= lo -> hi <= hi' ->
  same_outside lo' hi' h0 h.
Proof.
  intros [Hlen Hout] Hlo Hhi. split; [done|].
  intros k Hk. apply Hout. lia.
Qed.

(** *** Quick sort *)

Lemma partition_structure fuel N mk low high s :
  in_step N mk s -> 0 <= low <= high -> high < N ->
  (forall k, k ∈ mk -> k < low \/ high < k) ->
  (Z.to_nat (high - low) < fuel)%nat ->
  twp (partition fuel low high)
    (fun pi s' => low <= pi <= high /\ in_step N (pi :: mk) s' /\
                  same_outside low high (heights s) (heights s')) s.
Proof.
  intros Hs Hlh HN Hmk Hfuel. unfold partition. open_step.
  repeat tstep.
  assert (Hnot : forall k, low <= k <= high -> k ∉ mk).
  { intros k Hk Hin. apply Hmk in Hin. lia. }
  eapply twp_mono.
  { apply (twp_while
             (fun '(i, j) s' => low - 1 <= i < j /\ j <= high /\ in_step N mk s' /\
                                same_outside low high (heights s) (heights s'))
             (fun '(i, j) => Z.to_nat (high - j))
             _ _ (fun '(i, j) s' => low - 1 <= i < high /\ in_step N mk s' /\
                                same_outside low high (heights s) (heights s'))).
    - intros [i j] s1 (Hi & Hj & Hs1 & Hout). open_step. tstep.
      destruct (j <? high) eqn:Hc; zbool; cycle 1.
      { split; [lia|]. split; [close_step|done]. }
      repeat tstep.
      destruct (leb _ _); cycle 1.
      { repeat tstep. split; [|lia]. split; [lia|]. split; [lia|].
        split; [close_step|done]. }
      tstep. destruct (negb (i + 1 =? j)) eqn:Hij; zbool.
      + repeat tstep. split; [|lia]. split; [lia|]. split; [lia|].
        split; [close_step; apply Hnot; lia|].
        repeat (apply same_outside_zset; [|lia]); done.
      + repeat tstep. split; [|lia]. split; [lia|]. split; [lia|].
        split; [close_step|done]. 
    - split; [lia|]. split; [lia|]. split; [close_step|apply same_outside_refl].
    - lia. }
  intros [i j] s1 (Hi & Hs1 & Hout). open_step. cbn [fst].
  repeat tstep. split; [lia|]. split.
  - close_step; apply Hnot; lia.
  - repeat (apply same_outside_zset; [|lia]); done.
Qed.

Lemma quickSortHelper_structure fuel : forall N mk low high s,
  in_step N mk s -> 0 <= low -> high < N ->
  (forall k, k ∈ mk -> k < low \/ high < k) ->
  (Z.to_nat (high - low + 1) < fuel)%nat ->
  twp (quickSortHelper fuel low high)
    (fun _ s' => exists new,
       in_step N (new ++ mk) s' /\ (forall k, k ∈ new -> low <= k <= high) /\
       NoDup new /\ same_outside low high (heights s) (heights s') /\
       high - low <= 2 * Z.of_nat (length new) /\
       Z.of_nat (length new) <= Z.max 0 (high - low)) s.
Proof.
  induction fuel as [|fuel IH]; intros N mk low high s Hs Hlow Hhigh Hmk Hfuel;
    [lia|].
  cbn [quickSortHelper]. destruct (low <? high) eqn:Hc; zbool; cycle 1.
  { tstep. exists []. split; [done|]. split; [by intros k Hk%elem_of_nil|].
    split; [constructor|]. split; [apply same_outside_refl|]. simpl. lia. }
  tstep. eapply twp_mono.
  { apply (partition_structure _ N mk); [done|lia|lia|done|lia]. }
  intros pi s1 (Hpi & Hs1 & Hout1). tstep. eapply twp_mono.
  { apply (IH N (pi :: mk) low (pi - 1)); [done|lia|lia| |lia].
    intros k [->|Hk]%elem_of_cons; [lia|]. apply Hmk in Hk. lia. }
  intros ? s2 (newL & Hs2 & HnewL & HndL & Hout2 & HcL). eapply twp_mono.
  { apply (IH N (newL ++ pi :: mk) (pi + 1) high); [done|lia|lia| |lia].
    intros k [Hk|[->|Hk]%elem_of_cons]%elem_of_app.
    - apply HnewL in Hk. lia.
    - lia.
    - apply Hmk in Hk. lia. }
  intros ? s3 (newR & Hs3 & HnewR & HndR & Hout3 & HcR).
  exists (newR ++ newL ++ [pi]). split; [|split; [|split; [|split]]].
  - by rewrite <- !app_assoc.
  - intros k Hk. rewrite !elem_of_app, list_elem_of_singleton in Hk.
    destruct Hk as [Hk|[Hk| ->]].
    + apply HnewR in Hk. lia.
    + apply HnewL in Hk. lia.
    + lia.
  - apply NoDup_app. split; [done|]. split.
    + intros k Hk Hk'. rewrite elem_of_app, list_elem_of_singleton in Hk'.
      destruct Hk' as [Hk'| ->].
      * apply HnewR in Hk. apply HnewL in Hk'. lia.
      * apply HnewR in Hk. lia.
    + apply NoDup_app. split; [done|]. split; [|apply NoDup_singleton].
      intros k Hk Hk'. apply list_elem_of_singleton in Hk' as ->.
      apply HnewL in Hk. lia.
  - eapply same_outside_trans; [apply Hout1|].
    eapply same_outside_trans.
    + eapply same_outside_weaken; [apply Hout2|lia|lia].
    + eapply same_outside_weaken; [apply Hout3|lia|lia].
  - rewrite !length_app. simpl. lia.
Qed.

Lemma quickSort_structure fuel s :
  (length (bars s) < fuel)%nat ->
  marks (log s) = [] -> settled (log s) ->
  twp (quickSort fuel)
    (fun _ s' => exists mk,
       in_step (Z.of_nat (length (bars s))) mk s' /\ NoDup mk /\
       (forall k, k ∈ mk -> 0 <= k < Z.of_nat (length (bars s))) /\
       Z.of_nat (length (bars s)) - 1 <= 2 * Z.of_nat (length mk) /\
       Z.of_nat (length mk) <= Z.max 0 (Z.of_nat (length (bars s)) - 1)) s.
Proof.
  intros Hfuel Hmk Hst. unfold quickSort.
  repeat tstep. eapply twp_mono.
  { apply (quickSortHelper_structure _ (Z.of_nat (length (bars s))) []);
      [close_step|lia|lia| |lia].
    by intros k Hk%elem_of_nil. }
  intros ? s1 (new & Hs1 & Hnew & Hnd & _ & Hc). exists new.
  rewrite app_nil_r in Hs1. split; [done|]. split; [done|]. split; [|lia].
  intros k Hk. apply Hnew in Hk. lia.
Qed.

(** *** Merge sort *)

Lemma merge_structure fuel N left mid right s :
  in_len N s -> 0 <= left <= mid -> mid < right < N ->
  (Z.to_nat (right - left + 1) < fuel)%nat ->
  twp (merge fuel left mid right)
    (fun _ s' => in_len N s' /\
                 same_outside left right (heights s) (heights s')) s.
Proof.
  intros Hs Hl Hr Hfuel. unfold merge. open_step.
  tstep. rename arr into L. tstep. rename arr into R.
  assert (HL : Z.of_nat (length L) = mid + 1 - left).
  { subst L. apply length_slice; lia. }
  assert (HR : Z.of_nat (length R) = right - mid).
  { subst R. rewrite length_slice; lia. }
  cbv zeta. rewrite HL, HR.
  set (I := fun '(i, j, k) (s' : state V) =>
              0 <= i <= mid + 1 - left /\ 0 <= j <= right - mid /\
              k = left + i + j /\ in_len N s' /\
              same_outside left right (heights s) (heights s')).
  tstep. eapply twp_mono.
  { apply (twp_while I
             (fun '(i, j, k) => Z.to_nat (right + 1 - k)) _ _ I).
    - intros [[i j] k] s1 (Hi & Hj & Hk & Hs1 & Hout). open_step. tstep.
      destruct (_ && _) eqn:Hc; zbool; [|done].
      repeat tstep.
      destruct (leb _ _); repeat tstep;
        (split; [|lia]); (split; [lia|]); (split; [lia|]); (split; [lia|]);
        (split; [close_step|]); (apply same_outside_zset; [done|lia]).
    - split; [lia|]. split; [lia|]. split; [lia|]. split; [done|].
      apply same_outside_refl.
    - lia. }
  intros [[i j] k] s1 HI. tstep. eapply twp_mono.
  { apply (twp_while I
             (fun '(i, j, k) => Z.to_nat (right + 1 - k)) _ _ I); [|done| ].
    - clear dependent s1. clear i j k.
      intros [[i j] k] s1 (Hi & Hj & Hk & Hs1 & Hout). open_step. tstep.
      destruct (_ <? _) eqn:Hc; zbool; [|done].
      repeat tstep.
      (split; [|lia]); (split; [lia|]); (split; [lia|]); (split; [lia|]);
        (split; [close_step|]); (apply same_outside_zset; [done|lia]).
    - destruct HI as (Hi & Hj & Hk & _). lia. }
  clear dependent s1. clear i j k.
  intros [[i j] k] s1 HI. tstep. eapply twp_mono.
  { apply (twp_while I
             (fun '(i, j, k) => Z.to_nat (right + 1 - k)) _ _ I); [|done| ].
    - clear dependent s1. clear i j k.
      intros [[i j] k] s1 (Hi & Hj & Hk & Hs1 & Hout). open_step. tstep.
      destruct (_ <? _) eqn:Hc; zbool; [|done].
      repeat tstep.
      (split; [|lia]); (split; [lia|]); (split; [lia|]); (split; [lia|]);
        (split; [close_step|]); (apply same_outside_zset; [done|lia]).
    - destruct HI as (Hi & Hj & Hk & _). lia. }
  clear dependent s1. clear i j k.
  intros [[i j] k] s1 (Hi & Hj & Hk & Hs1 & Hout). by tstep.
Qed.

Lemma mergeSortHelper_structure fuel : forall N left right s,
  in_len N s -> 0 <= left -> right < N ->
  (Z.to_nat (right - left + 1) < fuel)%nat ->
  twp (mergeSortHelper fuel left right)
    (fun _ s' => in_len N s' /\
                 same_outside left right (heights s) (heights s')) s.
Proof.
  induction fuel as [|fuel IH]; intros N left right s Hs Hl Hr Hfuel; [lia|].
  cbn [mergeSortHelper]. destruct (left <? right) eqn:Hc; zbool; cycle 1.
  { tstep. split; [done|apply same_outside_refl]. }
  cbv zeta. set (mid := (left + right) / 2).
  assert (left <= mid < right) by (subst mid; zdiv).
  tstep. eapply twp_mono.
  { apply (IH N left mid); [done|lia|lia|lia]. }
  intros ? s1 (Hs1 & Hout1). tstep. eapply twp_mono.
  { apply (IH N (mid + 1) right); [done|lia|lia|lia]. }
  intros ? s2 (Hs2 & Hout2). eapply twp_mono.
  { apply (merge_structure _ N); [done|lia|lia|lia]. }
  intros ? s3 (Hs3 & Hout3). split; [done|].
  eapply same_outside_trans.
  { eapply same_outside_weaken; [apply Hout1|lia|lia]. }
  eapply same_outside_trans; [|apply Hout3].
  eapply same_outside_weaken; [apply Hout2|lia|lia].
Qed.

Lemma mergeSort_structure fuel s :
  (length (bars s) < fuel)%nat ->
  twp (mergeSort fuel)
    (fun _ s' => in_len (Z.of_nat (length (bars s))) s') s.
Proof.
  intros Hfuel. unfold mergeSort.
  repeat tstep. eapply twp_mono.
  { apply (mergeSortHelper_structure _ (Z.of_nat (length (bars s))));
      [close_step|lia|lia|lia]. }
  by intros ? s1 (Hs1 & _).
Qed.

(** *** Heap sort *)

Lemma below_ge i k : 0 <= i -> below i k -> i <= k.
Proof. intros Hi Hb. induction Hb; lia. Qed.

Lemma below_trans i j k : below i j -> below j k -> below i k.
Proof. intros Hij Hjk. induction Hjk; eauto using below. Qed.

Lemma same_unless_below_refl n i h : same_unless_below n i h h.
Proof. by split. Qed.

Lemma heapify_structure fuel : forall N mk n i s,
  in_step N mk s -> 0 <= i -> n <= N ->
  (forall k, k ∈ mk -> n <= k) ->
  (Z.to_nat (n - i) < fuel)%nat ->
  twp (heapify fuel n i)
    (fun _ s' => in_step N mk s' /\
                 same_unless_below n i (heights s) (heights s')) s.
Proof.
  induction fuel as [|fuel IH]; intros N mk n i s Hs Hi Hn Hmk Hfuel; [lia|].
  cbn [heapify]. cbv zeta. open_step.
  assert (Hnot : forall k, k < n -> k ∉ mk).
  { intros k Hk Hin. apply Hmk in Hin. lia. }
  apply twp_bind.
  apply (twp_mono _ (fun lg s' => s' = s /\ (lg = i \/ lg = 2 * i + 1 /\ lg < n))).
  { destruct (2 * i + 1 <? n) eqn:Hc; zbool; [|by tstep; auto].
    repeat tstep. destruct (gtb _ _); auto. }
  intros lg1 ? [-> Hl1]. apply twp_bind.
  apply (twp_mono _ (fun lg s' => s' = s /\
           (lg = i \/ (lg = 2 * i + 1 \/ lg = 2 * i + 2) /\ lg < n))).
  { destruct (2 * i + 2 <? n) eqn:Hc; zbool; [|tstep; split; [done|lia]].
    repeat tstep. destruct (gtb _ _); (split; [done|lia]). }
  intros lg ? [-> Hl]. clear lg1 Hl1.
  destruct (negb (lg =? i)) eqn:Hli; zbool; cycle 1.
  { tstep. split; [close_step|apply same_unless_below_refl]. }
  assert (Hl' : (lg = 2 * i + 1 \/ lg = 2 * i + 2) /\ lg < n) by lia. clear Hl.
  repeat tstep. eapply twp_mono.
  { apply (IH N mk n lg); [|lia|lia|done|lia].
    close_step; apply Hnot; lia. }
  intros ? s1 (Hs1 & Hlen & Hout). split; [done|].
  cbn [heights] in Hlen, Hout. split; [by rewrite Hlen, !length_zset|].
  intros k Hk. rewrite Hout.
  - rewrite zget_exchange_other; [done| |].
    + intros ->. apply Hk. split; [constructor|lia].
    + intros ->. apply Hk. split; [|lia].
      destruct Hl' as [[-> | ->] _]; constructor; constructor.
  - intros [Hb Hkn]. apply Hk. split; [|done].
    eapply below_trans; [|apply Hb].
    destruct Hl' as [[-> | ->] _]; constructor; constructor.
Qed.

Lemma heapSort_structure fuel s :
  (length (bars s) < fuel)%nat -> bars s <> [] ->
  marks (log s) = [] -> settled (log s) ->
  twp (heapSort fuel)
    (fun _ s' => in_step (Z.of_nat (length (bars s)))
                   (seqZ 0 (Z.of_nat (length (bars s)))) s') s.
Proof.
  intros Hfuel Hne Hmk Hst. unfold heapSort.
  set (N := Z.of_nat (length (bars s))).
  assert (HN : 1 <= N) by (subst N; destruct (bars s); [done|simpl; lia]).
  repeat tstep. fold N. eapply twp_mono.
  { apply (twp_while (fun i s' => -1 <= i < N /\ in_step N [] s')
             (fun i => Z.to_nat (i + 1))
             _ _ (fun _ s' => in_step N [] s')).
    - intros i s1 (Hi & Hs1). tstep.
      destruct (i >=? 0) eqn:Hc; zbool; [|done].
      open_step. repeat tstep. eapply twp_mono.
      { apply (heapify_structure _ N []); [close_step|lia|lia| |lia].
        by intros k Hk%elem_of_nil. }
      intros ? s2 (Hs2 & _). tstep. split; [|lia]. split; [lia|done].
    - split; [zdiv|close_step].
    - zdiv. }
  intros ? s1 Hs1. repeat tstep. eapply twp_mono.
  { apply (twp_while
             (fun i s' => 0 <= i < N /\ in_step N (seqZ (i + 1) (N - 1 - i)) s')
             (fun i => Z.to_nat i)
             _ _ (fun _ s' => in_step N (seqZ 1 (N - 1)) s')).
    - intros i s2 (Hi & Hs2). tstep.
      destruct (i >? 0) eqn:Hc; zbool; cycle 1.
      { assert (i = 0) as -> by lia.
        by replace (N - 1 - 0) with (N - 1) in Hs2 by lia. }
      open_step. repeat tstep. eapply twp_mono.
      { apply (heapify_structure _ N (seqZ i (N - i))); [|lia|lia| |lia].
        - rewrite (seqZ_cons i) by lia.
          replace (Z.succ i) with (i + 1) by lia.
          replace (Z.pred (N - i)) with (N - 1 - i) by lia. close_step.
        - intros k Hk%elem_of_seqZ. lia. }
      intros ? s3 (Hs3 & _). tstep. split; [|lia]. split; [lia|].
      replace (i - 1 + 1) with i by lia.
      by replace (N - 1 - (i - 1)) with (N - i) by lia.
    - destruct Hs1 as (Hs1 & ? & ?). open_step.
      replace (Z.of_nat (length (heights s1))) with N by done.
      split; [lia|].
      replace (N - 1 - (N - 1)) with 0 by lia. rewrite seqZ_nil by lia.
      close_step.
    - destruct Hs1 as (Hs1 & ? & ?). open_step.
      replace (Z.of_nat (length (heights s1))) with N by done. lia. }
  intros ? s2 Hs2. open_step. tstep. fold N. 
  rewrite (seqZ_cons 0) by lia. replace (Z.pred N) with (N - 1) by lia.
  close_step.
Qed.

Lemma heapSort_empty fuel s :
  bars s = [] -> (0 < fuel)%nat ->
  heapSort fuel s = Err TypeError {| heights := []; bars := []; log := log s |}.
Proof.
  intros Hb Hfuel. destruct fuel as [|fuel]; [lia|].
  unfold heapSort, bind, getBarHeights, lengthH, markAsSorted, onBar; simpl.
  rewrite Hb. reflexivity.
Qed.
End Structure.

(** ** Arrays of finite heights *)

Lemma zget_hget h i v : zget h i = Some v -> hget h i = v.
Proof. unfold hget. by intros ->. Qed.

Lemma hget_zget h i : in_bounds h i = true -> zget h i = Some (hget h i).
Proof.
  intros Hi. destruct (in_bounds_zget _ _ Hi) as [v Hv].
  by rewrite (zget_hget _ _ _ Hv).
Qed.

Lemma hget_zset h i v k :
  in_bounds h i = true ->
  hget (zset h i v) k = if k =? i then v else hget h k.
Proof.
  intros Hi. unfold hget. destruct (Z.eqb_spec k i) as [->|Hne].
  - by rewrite zget_zset_eq.
  - by rewrite zget_zset_ne.
Qed.

Lemma hget_ext (h h' : list Z) :
  length h = length h' -> (forall k, hget h k = hget h' k) -> h = h'.
Proof.
  intros Hlen Hext. apply zget_ext. intros i.
  destruct (in_bounds h i) eqn:Hi.
  - assert (Hi' : in_bounds h' i = true).
    { apply in_bounds_iff. apply in_bounds_iff in Hi. lia. }
    rewrite (hget_zget _ _ Hi), (hget_zget _ _ Hi'). by rewrite Hext.
  - assert (Hi' : in_bounds h' i = false).
    { apply in_bounds_false_iff. apply in_bounds_false_iff in Hi. lia. }
    by rewrite !zget_None.
Qed.

Lemma exchange_perm (h : list Z) i j :
  in_bounds h i = true -> in_bounds h j = true ->
  zset (zset h i (hget h j)) j (hget h i) ≡ₚ h.
Proof. intros Hi Hj. apply zset_exchange_perm; by apply hget_zget. Qed.

(** Reads become equations on [hget], accesses become bounds. *)
Ltac learn_as Hn fact :=
  let T := type of fact in
  lazymatch goal with
  | _ : T |- _ => fail
  | _ => pose proof fact as Hn
  end.

Ltac same_reads :=
  repeat match goal with
  | Hx : zget ?h ?i = Some ?v, Hy : zget ?h ?i = Some ?w |- _ =>
      assert (w = v) by congruence; subst w; clear Hy
  end.

Ltac norm_reads :=
  same_reads;
  repeat match goal with
  | Hx : zget ?h ?i = Some ?v |- _ =>
      let Hb := fresh "Hbnd" in
      first [learn_as Hb (zget_in_bounds _ _ _ Hx) | idtac];
      apply zget_hget in Hx;
      first [subst v | rewrite <- Hx in * | idtac]
  end.

Ltac in_bounds_solve :=
  rewrite ?in_bounds_zset;
  first [assumption | apply in_bounds_iff; rewrite ?length_zset; lia].

Ltac norm_bounds :=
  repeat match goal with
  | Hx : in_bounds _ _ = true |- _ =>
      rewrite ?in_bounds_zset in Hx; apply in_bounds_iff in Hx
  end.

Ltac norm_hget :=
  repeat (rewrite hget_zset by in_bounds_solve);
  repeat match goal with
  | Hx : context [hget (zset _ _ _) _] |- _ =>
      rewrite hget_zset in Hx by in_bounds_solve
  end.

Ltac split_eqb :=
  repeat match goal with
  | |- context [?a =? ?b] => destruct (Z.eqb_spec a b)
  | Hx : context [?a =? ?b] |- _ => destruct (Z.eqb_spec a b)
  end.

(** Instances of the quantified facts about an array at the indices that
    occur in the goal; an instance is dropped when [lia] refutes one of
    its premises. *)
Ltac lmem t l :=
  lazymatch l with
  | t :: _ => constr:(true)
  | _ :: ?l' => lmem t l'
  | _ => constr:(false)
  end.

Ltac add_index t :=
  lazymatch goal with
  | IL : idx_marks ?l |- _ =>
      lazymatch lmem t l with
      | true => fail
      | false => change (idx_marks (t :: l)) in IL
      end
  end.

Ltac mark_indices :=
  assert (idx_marks (@nil Z)) by exact Logic.I;
  repeat match goal with
  | |- context [hget _ ?t] => add_index t
  | Hx : context [hget _ ?t] |- _ =>
      lazymatch type of Hx with
      | forall _ : Z, _ => fail
      | _ => add_index t
      end
  end.

Ltac iter_list l tac :=
  lazymatch l with
  | ?t :: ?l' => tac t; iter_list l' tac
  | _ => idtac
  end.

Ltac refuted T :=
  lazymatch T with
  | ?A -> ?B => first [ assert (~ A) as _ by lia | refuted B ]
  | _ => fail
  end.

Ltac inst_hyp Hx :=
  lazymatch type of Hx with
  | forall k : Z, _ =>
      lazymatch goal with
      | IL : idx_marks ?l |- _ =>
          iter_list l ltac:(fun t =>
            let Hi := fresh "Hi" in
            pose proof (Hx t) as Hi; inst_hyp Hi;
            try (lazymatch type of Hi with forall k : Z, _ => clear Hi end))
      end
  | ?A -> ?B =>
      first [ (let HA := fresh in
               assert (HA : A) by lia; specialize (Hx HA); clear HA);
              inst_hyp Hx
            | (let T := type of Hx in refuted T); clear Hx
            | (let T := type of Hx in change (hold T) in Hx) ]
  | _ => idtac
  end.

Ltac inst_all :=
  repeat match goal with
  | Hx : forall k : Z, _ |- _ =>
      let T := type of Hx in
      lazymatch type of T with Prop => idtac end;
      inst_hyp Hx; change (hold T) in Hx
  end;
  unfold hold in *.

Ltac clear_marks :=
  repeat match goal with M : idx_marks _ |- _ => clear M end.

Ltac arr_lia :=
  reduce_state; norm_reads; norm_hget; split_eqb; subst; norm_bounds;
  try lia; mark_indices; inst_all; clear_marks; lia.

(** *** Sorted ranges *)

Lemma sorted_range_Sorted (h : list Z) :
  sorted_range h 0 (Z.of_nat (length h)) -> Sorted Z.le h.
Proof.
  intros Hs. apply StronglySorted_Sorted.
  induction h as [|x h IH]; [constructor|].
  constructor.
  - apply IH. intros a b Ha Hab Hb.
    specialize (Hs (a + 1) (b + 1)). unfold hget, zget in *.
    destruct (0 <=? a) eqn:Ea; [|lia]. destruct (0 <=? b) eqn:Eb; [|lia].
    destruct (0 <=? a + 1) eqn:Ea'; [|lia]. destruct (0 <=? b + 1) eqn:Eb'; [|lia].
    replace (Z.to_nat (a + 1)) with (S (Z.to_nat a)) in Hs by lia.
    replace (Z.to_nat (b + 1)) with (S (Z.to_nat b)) in Hs by lia.
    simpl in Hs. apply Hs; simpl; lia.
  - apply Forall_forall. intros y Hy.
    apply list_elem_of_lookup in Hy as [n Hn].
    assert (n < length h)%nat by eauto using lookup_lt_Some.
    specialize (Hs 0 (Z.of_nat (S n))). unfold hget, zget in Hs.
    rewrite Nat2Z.id in Hs. simpl in Hs. rewrite Hn in Hs. simpl in Hs.
    apply Hs; lia.
Qed.

Lemma StronglySorted_lookup_le (h : list Z) :
  StronglySorted Z.le h ->
  forall i j x y, h !! i = Some x -> h !! j = Some y -> (i < j)%nat -> x <= y.
Proof.
  induction 1 as [|a h Hs IH Hall]; intros i j x y Hi Hj Hij; [done|].
  destruct j as [|j]; [lia|]. simpl in Hj. destruct i as [|i].
  - simpl in Hi. injection Hi as <-.
    rewrite Forall_forall in Hall. apply Hall.
    apply list_elem_of_lookup. eauto.
  - simpl in Hi. eapply IH; eauto. lia.
Qed.

Lemma Sorted_sorted_range (h : list Z) :
  Sorted Z.le h -> sorted_range h 0 (Z.of_nat (length h)).
Proof.
  intros Hs%Sorted_StronglySorted; [|intros x y z; lia].
  intros a b Ha Hab Hb.
  destruct (decide (a = b)) as [->|Hne]; [lia|].
  assert (Hia : in_bounds h a = true) by (apply in_bounds_iff; lia).
  assert (Hib : in_bounds h b = true) by (apply in_bounds_iff; lia).
  pose proof (hget_zget _ _ Hia) as Hga. pose proof (hget_zget _ _ Hib) as Hgb.
  unfold zget in Hga, Hgb.
  destruct (0 <=? a) eqn:Ea; [|lia]. destruct (0 <=? b) eqn:Eb; [|lia].
  eapply (StronglySorted_lookup_le h Hs); [apply Hga|apply Hgb|lia].
Qed.

Lemma sorted_range_weaken h lo hi lo' hi' :
  sorted_range h lo hi -> lo <= lo' -> hi' <= hi -> sorted_range h lo' hi'.
Proof. intros Hs Hlo Hhi a b Ha Hab Hb. apply Hs; lia. Qed.

(** Symbolic execution for the order properties: every access one by
    one, the bars and the log are of no interest. *)
Ltac oprim :=
  lazymatch goal with
  | |- wp (ret _) _ _ => apply wp_ret
  | |- wp (readH _) _ _ => apply wp_readH; reduce_state; intros ? ?
  | |- wp (readA _ _) _ _ => apply wp_readA; reduce_state; intros ? ?
  | |- wp (sliceH _ _) _ _ => apply wp_sliceH; reduce_state; intros ? ?
  | |- wp (writeH _ _) _ _ =>
      apply wp_writeH; reduce_state; rewrite ?in_bounds_zset; intros ?
  | |- wp (onBar _ _) _ _ => apply wp_onBar; reduce_state; intros _
  | |- wp (emit _) _ _ => apply wp_emit
  | |- wp lengthH _ _ => apply wp_lengthH
  | |- wp lengthB _ _ => apply wp_lengthB
  | |- wp getBarHeights _ _ => apply wp_getBarHeights
  | |- wp (highlightBar _ _ _) _ _ => unfold highlightBar
  | |- wp (updateBarHeight _ _) _ _ => unfold updateBarHeight
  | |- wp (addPulse _) _ _ => unfold addPulse
  | |- wp (resetBarStyle _) _ _ => unfold resetBarStyle
  | |- wp (markAsSorted _) _ _ => unfold markAsSorted
  | |- wp playSound _ _ => apply wp_emit
  | |- wp delay _ _ => apply wp_delay
  | |- wp (swapH _ _) _ _ => unfold swapH
  | |- wp (syncBar _) _ _ => unfold syncBar
  | |- wp (bind _ _) _ _ => apply wp_bind
  end; reduce_state.

Ltac ostep := cbv beta iota; oprim.

Ltac use_cmp :=
  cbn [gtb ltb leb Z_JsOrd] in *; zbool.

Ltac perm_solve :=
  reduce_state; norm_reads; rewrite ?exchange_perm by in_bounds_solve; done.

(** ** The algorithms sort *)

Section Order.
Implicit Types (s : state Z) (h : list Z).

Lemma bubbleSort_order fuel s :
  wp (bubbleSort fuel)
    (fun _ s' => heights s' ≡ₚ bars s /\
                 sorted_range (heights s') 0 (Z.of_nat (length (bars s)))) s.
Proof.
  unfold bubbleSort. set (N := Z.of_nat (length (bars s))).
  repeat ostep.
  set (I := fun (i : Z) (s' : state Z) =>
              0 <= i /\ heights s' ≡ₚ bars s /\
              forall a b, 0 <= a <= b -> N - i <= b < N ->
                hget (heights s') a <= hget (heights s') b).
  eapply wp_mono.
  { apply (wp_while I _ _ (fun _ s' => heights s' ≡ₚ bars s /\
                                       sorted_range (heights s') 0 N)).
    - intros i s1 (Hi & Hp & Hsuf). repeat ostep.
      assert (Hlen : Z.of_nat (length (heights s1)) = N).
      { subst N. by rewrite Hp. }
      rewrite Hlen. destruct (i <? N) eqn:Hc; zbool; cycle 1.
      { split; [done|]. intros a b Ha Hab Hb. apply Hsuf; lia. }
      repeat ostep. eapply wp_mono.
      { apply (wp_while
                 (fun j s' => 0 <= j <= N - i - 1 /\ heights s' ≡ₚ bars s /\
                    (forall a b, 0 <= a <= b -> N - i <= b < N ->
                       hget (heights s') a <= hget (heights s') b) /\
                    (forall a, 0 <= a <= j ->
                       hget (heights s') a <= hget (heights s') j))
                 _ _ (fun _ s' => I (i + 1) s')).
        - intros j s2 (Hj & Hp2 & Hsuf2 & Hmax). repeat ostep.
          assert (Hlen2 : Z.of_nat (length (heights s2)) = N).
          { subst N. by rewrite Hp2. }
          rewrite Hlen2. destruct (j <? N - i - 1) eqn:Hc2; zbool; cycle 1.
          { split; [lia|]. split; [done|]. intros a b Ha Hb.
            destruct (decide (b = N - i - 1)) as [->|Hne].
            - assert (j = N - i - 1) as -> by lia. apply Hmax. lia.
            - apply Hsuf2; lia. }
          clear Hsuf. repeat ostep. destruct (gtb _ _) eqn:Hgt; use_cmp.
          + repeat ostep. split; [lia|]. split; [perm_solve|].
            split; [intros a b Ha Hb|intros a Ha]; arr_lia.
          + repeat ostep. split; [lia|]. split; [done|].
            split; [done|]. intros a Ha.
            destruct (decide (a = j + 1)) as [->|]; arr_lia.
        - split; [lia|]. split; [done|]. split; [done|].
          intros a Ha. by assert (a = 0) as -> by lia.
      }
      intros ? s2 HI. by ostep.
    - split; [lia|]. split; [done|]. intros a b Ha Hb. lia. }
  intros ? s1 (Hp & Hs). repeat ostep.
  eapply wp_mono.
  { apply (wp_while (fun (_ : Z) s' => heights s' = heights s1)
             _ _ (fun _ s' => heights s' = heights s1)); [|done].
    intros i s2 Hh. repeat ostep.
    destruct (_ <? _); [|done]. by repeat ostep. }
  intros ? s2 Hh. ostep. by rewrite Hh.
Qed.

Lemma selectionSort_order fuel s :
  wp (selectionSort fuel)
    (fun _ s' => heights s' ≡ₚ bars s /\
                 sorted_range (heights s') 0 (Z.of_nat (length (bars s)))) s.
Proof.
  unfold selectionSort. set (N := Z.of_nat (length (bars s))).
  repeat ostep.
  set (I := fun (i : Z) (s' : state Z) =>
              0 <= i /\ heights s' ≡ₚ bars s /\
              (forall a b, 0 <= a <= b -> b < i ->
                 hget (heights s') a <= hget (heights s') b) /\
              (forall a b, 0 <= a < i -> i <= b < N ->
                 hget (heights s') a <= hget (heights s') b)).
  eapply wp_mono.
  { apply (wp_while I _ _ (fun _ s' => heights s' ≡ₚ bars s /\
                                       sorted_range (heights s') 0 N)).
    - intros i s1 (Hi & Hp & Hpre & Hcross). repeat ostep.
      assert (Hlen : Z.of_nat (length (heights s1)) = N).
      { subst N. by rewrite Hp. }
      rewrite Hlen. destruct (i <? N) eqn:Hc; zbool; cycle 1.
      { split; [done|]. intros a b Ha Hab Hb. apply Hpre; lia. }
      repeat ostep. eapply wp_mono.
      { apply (wp_while
                 (fun '(j, m) s' => heights s' = heights s1 /\ i <= m < j /\
                    forall k, i <= k < j ->
                      hget (heights s1) m <= hget (heights s1) k)
                 _ _
                 (fun '(j, m) s' => heights s' = heights s1 /\ i <= m /\
                    forall k, i <= k < N ->
                      hget (heights s1) m <= hget (heights s1) k)).
        - intros [j m] s2 (Hh & Hm & Hmin). repeat ostep.
          rewrite Hh, Hlen. destruct (j <? N) eqn:Hc2; zbool; cycle 1.
          { split; [done|]. split; [lia|]. intros k Hk. apply Hmin. lia. }
          clear Hpre Hcross. repeat ostep. rewrite Hh in *.
          destruct (ltb _ _) eqn:Hlt; use_cmp; repeat ostep;
            (split; [done|]); (split; [lia|]); intros k Hk;
            (destruct (decide (k = j)) as [->|]); arr_lia.
        - split; [done|]. split; [lia|]. intros k Hk.
          by assert (k = i) as -> by lia. }
      intros [j m] s2 (Hh & Hm & Hmin). ostep. cbn [snd].
      destruct (negb (m =? i)) eqn:Hmi; zbool.
      + repeat ostep. rewrite Hh in *. split; [lia|]. split.
        { perm_solve. }
        split; intros a b Ha Hb; arr_lia.
      + subst m. repeat ostep. rewrite Hh. split; [lia|]. split; [done|].
        split; intros a b Ha Hb.
        * destruct (decide (b = i)) as [->|]; [|apply Hpre; lia].
          destruct (decide (a = i)) as [->|]; [lia|apply Hcross; lia].
        * destruct (decide (a = i)) as [->|]; [apply Hmin; lia|].
          apply Hcross; lia.
    - split; [lia|]. split; [done|]. split; intros a b Ha Hb; lia. }
  intros ? s1 Hs1. by ostep.
Qed.

(** The two facts behind the insertion loops of insertion and shell
    sort. *)
Lemma hole_inv_shift h i p q cur x :
  hole_inv h i p cur -> q = p - 1 -> 0 <= q -> p <= i ->
  in_bounds h p = true -> zget h q = Some x -> cur < x ->
  hole_inv (zset h p x) i q cur.
Proof.
  intros [Hord Hgt] -> Hq Hp Hb Hx Hcur. split.
  - intros a b Ha Hbi Hna Hnb. arr_lia.
  - intros b Hbi. arr_lia.
Qed.

Lemma hole_inv_fill h i p q cur :
  hole_inv h i p cur -> q = p - 1 -> 0 <= p <= i -> in_bounds h p = true ->
  (q < 0 \/ hget h q <= cur) ->
  sorted_range (zset h p cur) 0 (i + 1).
Proof.
  intros [Hord Hgt] -> Hp Hb Hcur a b Ha Hab Hbi.
  destruct (decide (a = b)) as [->|]; [lia|].
  assert (Hprev : forall k, 0 <= k < p -> hget h k <= cur).
  { intros k Hk. destruct Hcur as [|Hcur]; [lia|].
    destruct (decide (k = p - 1)) as [->|]; [done|].
    etrans; [|apply Hcur]. apply Hord; lia. }
  arr_lia.
Qed.

Lemma hole_inv_init h i cur :
  sorted_range h 0 i -> hole_inv h i i cur.
Proof.
  intros Hs. split.
  - intros a b Ha Hb Hna Hnb. apply Hs; lia.
  - intros b Hb. lia.
Qed.

Lemma insertionSort_order fuel s :
  wp (insertionSort fuel)
    (fun _ s' => heights s' ≡ₚ bars s /\
                 sorted_range (heights s') 0 (Z.of_nat (length (bars s)))) s.
Proof.
  unfold insertionSort. set (N := Z.of_nat (length (bars s))).
  repeat ostep.
  eapply wp_mono.
  { apply (wp_while
             (fun i s' => 1 <= i /\ heights s' ≡ₚ bars s /\
                          sorted_range (heights s') 0 i)
             _ _ (fun _ s' => heights s' ≡ₚ bars s /\
                              sorted_range (heights s') 0 N)).
    - intros i s1 (Hi & Hp & Hsort). repeat ostep.
      assert (Hlen : Z.of_nat (length (heights s1)) = N).
      { subst N. by rewrite Hp. }
      rewrite Hlen. destruct (i <? N) eqn:Hc; zbool; cycle 1.
      { split; [done|]. eapply sorted_range_weaken; [done|lia|lia]. }
      repeat ostep. rename v into cur. eapply wp_mono.
      { apply (wp_while
                 (fun j s' => -1 <= j < i /\
                    Z.of_nat (length (heights s')) = N /\
                    zset (heights s') (j + 1) cur ≡ₚ bars s /\
                    hole_inv (heights s') i (j + 1) cur)
                 _ _
                 (fun j s' => -1 <= j < i /\
                    Z.of_nat (length (heights s')) = N /\
                    zset (heights s') (j + 1) cur ≡ₚ bars s /\
                    hole_inv (heights s') i (j + 1) cur /\
                    (j < 0 \/ hget (heights s') j <= cur))).
        - intros j s2 (Hj & Hlen2 & Hp2 & Hinv).
          destruct (j >=? 0) eqn:Hc2; zbool.
          + repeat ostep. destruct (gtb _ _) eqn:Hgt; use_cmp.
            * repeat ostep. split; [lia|]. split; [by rewrite length_zset|].
              replace (j - 1 + 1) with j by lia. split.
              { rewrite zset_shift_perm; [done|done|done|lia]. }
              same_reads. eapply hole_inv_shift; try done; lia.
            * do 4 (split; [done || lia|]). right.
              erewrite zget_hget by done. lia.
          + ostep. do 4 (split; [done || lia|]). lia.
        - split; [lia|]. split; [done|]. replace (i - 1 + 1) with i by lia.
          split; [by rewrite zset_id|]. by apply hole_inv_init. }
      intros j s2 (Hj & Hlen2 & Hp2 & Hinv & Hstop). repeat ostep.
      split; [lia|]. split; [done|].
      eapply (hole_inv_fill _ _ _ j); try done; lia.
    - split; [lia|]. split; [done|]. intros a b Ha Hab Hb.
      by assert (a = b) as -> by lia. }
  intros ? s1 Hs1. by ostep.
Qed.

Lemma shellSort_order fuel s :
  wp (shellSort fuel)
    (fun _ s' => heights s' ≡ₚ bars s /\
                 sorted_range (heights s') 0 (Z.of_nat (length (bars s)))) s.
Proof.
  unfold shellSort. set (N := Z.of_nat (length (bars s))).
  repeat ostep. fold N.
  eapply wp_mono.
  { apply (wp_while
             (fun gap s' => 0 <= gap /\ heights s' ≡ₚ bars s /\
                            (gap = 0 -> sorted_range (heights s') 0 N))
             _ _ (fun _ s' => heights s' ≡ₚ bars s /\
                              sorted_range (heights s') 0 N)).
    - intros gap s1 (Hgap & Hp & Hsort). ostep.
      destruct (gap >? 0) eqn:Hc; zbool; cycle 1.
      { split; [done|]. apply Hsort. lia. }
      clear Hsort. ostep. eapply wp_mono.
      { apply (wp_while
                 (fun i s' => gap <= i /\ heights s' ≡ₚ bars s /\
                              (gap = 1 -> sorted_range (heights s') 0 i))
                 _ _ (fun _ s' => heights s' ≡ₚ bars s /\
                                  (gap = 1 -> sorted_range (heights s') 0 N))).
        - intros i s2 (Hi & Hp2 & Hsort). ostep.
          destruct (i <? N) eqn:Hc2; zbool; cycle 1.
          { split; [done|]. intros Hg.
            eapply sorted_range_weaken; [by apply Hsort|lia|lia]. }
          assert (Hlen : Z.of_nat (length (heights s2)) = N).
          { subst N. by rewrite Hp2. }
          repeat ostep. rename v into temp. eapply wp_mono.
          { apply (wp_while
                     (fun j s' => 0 <= j <= i /\
                        Z.of_nat (length (heights s')) = N /\
                        zset (heights s') j temp ≡ₚ bars s /\
                        (gap = 1 -> hole_inv (heights s') i j temp))
                     _ _
                     (fun j s' => 0 <= j <= i /\
                        Z.of_nat (length (heights s')) = N /\
                        zset (heights s') j temp ≡ₚ bars s /\
                        (gap = 1 -> hole_inv (heights s') i j temp /\
                           (j - 1 < 0 \/ hget (heights s') (j - 1) <= temp)))).
            - intros j s3 (Hj & Hlen3 & Hp3 & Hinv).
              destruct (j >=? gap) eqn:Hc3; zbool.
              + repeat ostep. destruct (gtb _ _) eqn:Hgt; use_cmp.
                * repeat ostep. same_reads.
                  split; [lia|]. split; [by rewrite length_zset|]. split.
                  { rewrite zset_shift_perm; [done|done|done|lia]. }
                  intros ->. eapply hole_inv_shift; try done; try lia.
                  by apply Hinv.
                * do 3 (split; [done || lia|]). intros ->.
                  split; [by apply Hinv|]. right.
                  erewrite zget_hget by done. lia.
              + ostep. do 3 (split; [done || lia|]). intros ->.
                split; [by apply Hinv|]. lia.
            - split; [lia|]. split; [done|].
              split; [by rewrite zset_id|].
              intros Hg. by apply hole_inv_init, Hsort. }
          intros j s3 (Hj & Hlen3 & Hp3 & Hinv). repeat ostep.
          split; [lia|]. split; [done|]. intros Hg.
          destruct (Hinv Hg) as [Hhole Hstop].
          eapply (hole_inv_fill _ _ _ (j - 1)); try done; lia.
        - split; [lia|]. split; [done|]. intros ->.
          intros a b Ha Hab Hb. by assert (a = b) as -> by lia. }
      intros ? s2 (Hp2 & Hsort). ostep. split; [zdiv|]. split; [done|].
      intros Hg. apply Hsort. zdiv.
    - split; [zdiv|]. split; [done|]. intros Hg a b Ha Hab Hb.
      assert (a = b) as -> by zdiv. lia. }
  intros ? s1 (Hp & Hs). repeat ostep.
  eapply wp_mono.
  { apply (wp_while (fun (_ : Z) s' => heights s' = heights s1)
             _ _ (fun _ s' => heights s' = heights s1)); [|done].
    intros i s2 Hh. repeat ostep.
    destruct (_ <? _); [|done]. by repeat ostep. }
  intros ? s2 Hh. ostep. by rewrite Hh.
Qed.

(** *** Quick sort *)

Lemma exchanged_length lo hi h h' : exchanged lo hi h h' -> length h' = length h.
Proof. induction 1; [done|]. by rewrite !length_zset. Qed.

Lemma exchanged_perm lo hi h h' : exchanged lo hi h h' -> h' ≡ₚ h.
Proof. induction 1; [done|]. by rewrite exchange_perm. Qed.

Lemma exchanged_outside lo hi h h' k :
  exchanged lo hi h h' -> k < lo \/ hi < k -> hget h' k = hget h k.
Proof.
  induction 1 as [|h' i j Hex IH Hi Hj Hbi Hbj]; intros Hk; [done|].
  rewrite <- IH by done. arr_lia.
Qed.

Lemma exchanged_bound lo hi h h' (P : Z -> Prop) :
  exchanged lo hi h h' ->
  (forall k, lo <= k <= hi -> P (hget h k)) ->
  forall k, lo <= k <= hi -> P (hget h' k).
Proof.
  induction 1 as [|h' i j Hex IH Hi Hj Hbi Hbj]; intros HP k Hk; [auto|].
  specialize (IH HP). rewrite !hget_zset by in_bounds_solve.
  repeat case_match; auto.
Qed.

Lemma exchanged_weaken lo hi lo' hi' h h' :
  exchanged lo hi h h' -> lo' <= lo -> hi <= hi' -> exchanged lo' hi' h h'.
Proof.
  induction 1; intros Hlo Hhi; [constructor|].
  constructor; auto; lia.
Qed.

Lemma exchanged_trans lo hi h1 h2 h3 :
  exchanged lo hi h1 h2 -> exchanged lo hi h2 h3 -> exchanged lo hi h1 h3.
Proof. intros H12 H23. induction H23; [done|]. by constructor. Qed.

Lemma exchanged_swap lo hi h0 h i j a b :
  exchanged lo hi h0 h -> lo <= i <= hi -> lo <= j <= hi ->
  zget h j = Some a -> zget h i = Some b ->
  exchanged lo hi h0 (zset (zset h i a) j b).
Proof.
  intros Hex Hi Hj Ha Hb.
  rewrite <- (zget_hget _ _ _ Ha), <- (zget_hget _ _ _ Hb).
  constructor; eauto using zget_in_bounds.
Qed.

Lemma partition_order fuel low high s :
  low <= high ->
  wp (partition fuel low high)
    (fun pi s' =>
       low <= pi <= high /\
       exchanged low high (heights s) (heights s') /\
       (forall k, low <= k < pi -> hget (heights s') k <= hget (heights s') pi) /\
       (forall k, pi < k <= high -> hget (heights s') pi < hget (heights s') k)) s.
Proof.
  intros Hlh. unfold partition. repeat ostep. rename v into pivot.
  eapply wp_mono.
  { apply (wp_while
             (fun '(i, j) s' => low - 1 <= i < j /\ j <= high /\
                exchanged low high (heights s) (heights s') /\
                hget (heights s') high = pivot /\
                (forall k, low <= k <= i -> hget (heights s') k <= pivot) /\
                (forall k, i < k < j -> pivot < hget (heights s') k))
             _ _
             (fun '(i, j) s' => low - 1 <= i < high /\
                exchanged low high (heights s) (heights s') /\
                hget (heights s') high = pivot /\
                (forall k, low <= k <= i -> hget (heights s') k <= pivot) /\
                (forall k, i < k < high -> pivot < hget (heights s') k))).
    - intros [i j] s1 (Hi & Hj & Hex & Hpiv & Hle & Hgt). ostep.
      destruct (j <? high) eqn:Hc; zbool; cycle 1.
      { assert (j = high) as -> by lia. done. }
      repeat ostep. destruct (leb _ _) eqn:Hcmp; use_cmp.
      + ostep. destruct (negb (i + 1 =? j)) eqn:Hij; zbool.
        * repeat ostep. same_reads. split; [lia|]. split; [lia|].
          split; [eapply exchanged_swap; eauto; lia|].
          split; [arr_lia|]. split; intros k Hk; arr_lia.
        * repeat ostep. same_reads. split; [lia|]. split; [lia|].
          split; [done|]. split; [done|].
          split; intros k Hk; [|arr_lia].
          destruct (decide (k = j)) as [->|]; arr_lia.
      + repeat ostep. same_reads. split; [lia|]. split; [lia|].
        split; [done|]. split; [done|]. split; intros k Hk; [arr_lia|].
        destruct (decide (k = j)) as [->|]; arr_lia.
    - split; [lia|]. split; [lia|]. split; [constructor|].
      split; [by apply zget_hget|]. split; intros k Hk; lia. }
  intros [i j] s1 (Hi & Hex & Hpiv & Hle & Hgt). cbn [fst].
  repeat ostep. same_reads. split; [lia|].
  split; [eapply exchanged_swap; eauto; lia|].
  split; intros k Hk; arr_lia.
Qed.

Lemma quickSortHelper_order fuel : forall low high s,
  wp (quickSortHelper fuel low high)
    (fun _ s' => exchanged low high (heights s) (heights s') /\
                 sorted_range (heights s') low (high + 1)) s.
Proof.
  induction fuel as [|fuel IH]; intros low high s; [done|].
  cbn [quickSortHelper]. destruct (low <? high) eqn:Hc; zbool; cycle 1.
  { ostep. split; [constructor|]. intros a b Ha Hab Hb.
    by assert (a = b) as -> by lia. }
  ostep. eapply wp_mono; [apply partition_order; lia|].
  intros pi s1 (Hpi & Hex1 & Hle & Hgt). cbv beta. ostep.
  eapply wp_mono; [apply IH|].
  intros [] s2 (Hex2 & Hs2). cbv beta.
  eapply wp_mono; [apply IH|].
  intros [] s3 (Hex3 & Hs3). cbv beta. split.
  { eapply exchanged_trans; [apply Hex1|]. eapply exchanged_trans.
    - eapply exchanged_weaken; [apply Hex2|lia|lia].
    - eapply exchanged_weaken; [apply Hex3|lia|lia]. }
  pose proof (exchanged_outside _ _ _ _ pi Hex2) as Hpi2.
  assert (Hle2 : forall k, low <= k <= pi - 1 ->
                   hget (heights s2) k <= hget (heights s1) pi).
  { apply (exchanged_bound _ _ _ _ (fun x => x <= hget (heights s1) pi) Hex2).
    intros k Hk. apply Hle. lia. }
  assert (Hgt3 : forall k, pi + 1 <= k <= high ->
                   hget (heights s1) pi < hget (heights s3) k).
  { apply (exchanged_bound _ _ _ _ (fun x => hget (heights s1) pi < x) Hex3).
    intros k Hk. rewrite (exchanged_outside _ _ _ _ k Hex2) by lia.
    apply Hgt. lia. }
  assert (Hsame3 : forall k, k <= pi -> hget (heights s3) k = hget (heights s2) k).
  { intros k Hk. apply (exchanged_outside _ _ _ _ k Hex3). lia. }
  intros a b Ha Hab Hb.
  destruct (decide (a = b)) as [->|]; [lia|].
  unfold sorted_range in *. clear Hle Hgt IH.
  destruct (decide (b < pi)).
  { rewrite !Hsame3 by lia. apply Hs2; lia. }
  destruct (decide (pi < a)).
  { apply Hs3; lia. }
  destruct (decide (a = pi)) as [->|]; destruct (decide (b = pi)) as [->|];
    try lia.
  - rewrite Hsame3, Hpi2 by lia. specialize (Hgt3 b). lia.
  - rewrite !Hsame3, Hpi2 by lia. specialize (Hle2 a). lia.
  - rewrite (Hsame3 a) by lia. specialize (Hle2 a). specialize (Hgt3 b). lia.
Qed.

Lemma quickSort_order fuel s :
  wp (quickSort fuel)
    (fun _ s' => heights s' ≡ₚ bars s /\
                 sorted_range (heights s') 0 (Z.of_nat (length (bars s)))) s.
Proof.
  unfold quickSort. repeat ostep.
  eapply wp_mono; [apply quickSortHelper_order|].
  intros ? s1 (Hex & Hs). reduce_state. cbn [heights] in Hex. split.
  - by apply exchanged_perm in Hex.
  - by replace (Z.of_nat (length (bars s)) - 1 + 1)
      with (Z.of_nat (length (bars s))) in Hs by lia.
Qed.
End Order.

(** *** Merge sort *)

Section MergeOrder.
Implicit Types (s : state Z) (h l : list Z).

Lemma merge_list_nil_l l : merge_list [] l = l.
Proof. by destruct l. Qed.

Lemma merge_list_nil_r l : merge_list l [] = l.
Proof. by destruct l. Qed.

Lemma merge_list_cons a l1 b l2 :
  merge_list (a :: l1) (b :: l2) =
  if a <=? b then a :: merge_list l1 (b :: l2) else b :: merge_list (a :: l1) l2.
Proof. reflexivity. Qed.

Lemma merge_list_perm l1 l2 : merge_list l1 l2 ≡ₚ l1 ++ l2.
Proof.
  revert l2. induction l1 as [|a l1 IH1]; intros l2.
  { by rewrite merge_list_nil_l. }
  induction l2 as [|b l2 IH2].
  { by rewrite merge_list_nil_r, app_nil_r. }
  rewrite merge_list_cons. destruct (a <=? b).
  - by rewrite IH1.
  - rewrite IH2. by rewrite <- Permutation_middle.
Qed.

Lemma merge_list_sorted l1 l2 :
  StronglySorted Z.le l1 -> StronglySorted Z.le l2 ->
  StronglySorted Z.le (merge_list l1 l2).
Proof.
  intros Hs1. revert l2. induction Hs1 as [|a l1 Hs1 IH1 Ha]; intros l2 Hs2.
  { by rewrite merge_list_nil_l. }
  induction Hs2 as [|b l2 Hs2 IH2 Hb].
  { rewrite merge_list_nil_r. by constructor. }
  rewrite merge_list_cons. destruct (a <=? b) eqn:Hab; zbool.
  - constructor; [apply IH1; by constructor|].
    rewrite merge_list_perm. apply Forall_app. split; [done|].
    constructor; [done|]. eapply Forall_impl; [done|]. intros x Hx. simpl in *. lia.
  - constructor; [done|].
    rewrite merge_list_perm. apply Forall_app. split; [|done].
    constructor; [lia|]. eapply Forall_impl; [apply Ha|]. intros x Hx. simpl in *. lia.
Qed.

Lemma zget_drop {A} (l : list A) i a :
  zget l i = Some a -> drop (Z.to_nat i) l = a :: drop (Z.to_nat (i + 1)) l.
Proof.
  intros Hi. pose proof (zget_bounds _ _ _ Hi) as Hb. unfold zget in Hi.
  destruct (0 <=? i) eqn:E; [|done].
  replace (Z.to_nat (i + 1)) with (S (Z.to_nat i)) by lia.
  by apply drop_S.
Qed.

Lemma zget_nonneg {A} (l : list A) i : 0 <= i -> zget l i = l !! Z.to_nat i.
Proof. intros Hi. unfold zget. destruct (0 <=? i) eqn:E; [done|zbool; lia]. Qed.

Lemma drop_all_Z {A} (l : list A) i :
  Z.of_nat (length l) <= i -> drop (Z.to_nat i) l = [].
Proof. intros Hi. apply drop_ge. lia. Qed.

Lemma merge_write_step h left acc k x :
  0 <= left -> Z.of_nat (length acc) = k - left ->
  left <= k < Z.of_nat (length h) ->
  zset (take (Z.to_nat left) h ++ acc ++ drop (Z.to_nat k) h) k x =
  take (Z.to_nat left) h ++ (acc ++ [x]) ++ drop (Z.to_nat (k + 1)) h.
Proof.
  intros Hl Hacc Hk.
  assert (Hin : in_bounds h k = true) by (apply in_bounds_iff; lia).
  destruct (in_bounds_zget _ _ Hin) as [x0 Hx0].
  rewrite (zget_drop _ _ _ Hx0). unfold zset.
  destruct (0 <=? k) eqn:E; [|zbool; lia].
  rewrite app_assoc, insert_app_r_alt; cycle 1.
  { rewrite length_app, length_take. lia. }
  replace (Z.to_nat k - length (take (Z.to_nat left) h ++ acc))%nat with 0%nat;
    cycle 1.
  { rewrite length_app, length_take. lia. }
  simpl. by rewrite <- !app_assoc.
Qed.

Lemma merge_order fuel left mid right s :
  0 <= left <= mid -> mid < right < Z.of_nat (length (heights s)) ->
  wp (merge fuel left mid right)
    (fun _ s' =>
       heights s' =
       take (Z.to_nat left) (heights s) ++
       merge_list (slice (heights s) left (mid + 1))
                  (slice (heights s) (mid + 1) (right + 1)) ++
       drop (Z.to_nat (right + 1)) (heights s)) s.
Proof.
  intros Hl Hr. unfold merge.
  ostep. ostep. rename arr into L. ostep. ostep. rename arr into R.
  assert (HL : Z.of_nat (length L) = mid + 1 - left).
  { subst L. apply length_slice; lia. }
  assert (HR : Z.of_nat (length R) = right - mid).
  { subst R. rewrite length_slice; lia. }
  rewrite <- H, <- H0. clear H H0.
  set (h := heights s) in *.
  cbv zeta.
  set (I := fun '(i, j, k) (s' : state Z) =>
    0 <= i <= Z.of_nat (length L) /\ 0 <= j <= Z.of_nat (length R) /\
    k = left + i + j /\
    exists acc,
      heights s' = take (Z.to_nat left) h ++ acc ++ drop (Z.to_nat k) h /\
      Z.of_nat (length acc) = i + j /\
      acc ++ merge_list (drop (Z.to_nat i) L) (drop (Z.to_nat j) R) =
      merge_list L R).
  assert (Hstep : forall i j x s' acc,
    0 <= i <= Z.of_nat (length L) -> 0 <= j <= Z.of_nat (length R) ->
    i + j < Z.of_nat (length L) + Z.of_nat (length R) ->
    heights s' = take (Z.to_nat left) h ++ acc ++ drop (Z.to_nat (left + i + j)) h ->
    Z.of_nat (length acc) = i + j ->
    zset (heights s') (left + i + j) x =
    take (Z.to_nat left) h ++ (acc ++ [x]) ++
    drop (Z.to_nat (left + i + j + 1)) h).
  { intros i j x s' acc Hi Hj Hij -> Hacc.
    apply merge_write_step; lia. }
  ostep. eapply wp_mono.
  { apply (wp_while I _ _
             (fun x s' => I x s' /\
                (x.1.1 < Z.of_nat (length L) -> x.1.2 = Z.of_nat (length R)))).
    - intros [[i j] k] t (Hi & Hj & -> & acc & Hh & Hacc & Hm). ostep.
      destruct (_ && _) eqn:Hc; zbool; cycle 1.
      { split; [|cbn [fst snd]; lia]. unfold I.
        do 3 (split; [done|]). by exists acc. }
      repeat ostep. same_reads. rename v0 into a, v1 into b.
      assert (Hcons : merge_list (drop (Z.to_nat i) L) (drop (Z.to_nat j) R) =
                if a <=? b
                then a :: merge_list (drop (Z.to_nat (i + 1)) L) (drop (Z.to_nat j) R)
                else b :: merge_list (drop (Z.to_nat i) L) (drop (Z.to_nat (j + 1)) R)).
      { rewrite (zget_drop L i a), (zget_drop R j b) by done.
        rewrite merge_list_cons. destruct (a <=? b); [done|].
        by rewrite <- (zget_drop L i a). }
      destruct (leb a b) eqn:Hab; cbn [leb Z_JsOrd] in Hab; rewrite Hab in Hcons;
        repeat ostep; same_reads; unfold I.
      + split; [lia|]. split; [lia|]. split; [lia|]. exists (acc ++ [a]).
        split; [|split].
        * replace (left + (i + 1) + j) with (left + i + j + 1) by lia.
          by eapply Hstep; try done; lia.
        * rewrite length_app. simpl. lia.
        * by rewrite <- app_assoc, <- Hm, Hcons.
      + split; [lia|]. split; [lia|]. split; [lia|]. exists (acc ++ [b]).
        split; [|split].
        * replace (left + i + (j + 1)) with (left + i + j + 1) by lia.
          by eapply Hstep; try done; lia.
        * rewrite length_app. simpl. lia.
        * by rewrite <- app_assoc, <- Hm, Hcons.
    - unfold I. split; [lia|]. split; [lia|]. split; [lia|]. exists [].
      split; [|done]. simpl. replace (left + 0 + 0) with left by lia.
      by rewrite take_drop. }
  intros [[i1 j1] k1] s1 [HI1 Hij1]. cbn [fst snd] in Hij1. ostep.
  eapply wp_mono.
  { apply (wp_while
             (fun x s' => I x s' /\
                (x.1.1 < Z.of_nat (length L) -> x.1.2 = Z.of_nat (length R)))
             _ _
             (fun x s' => I x s' /\ x.1.1 = Z.of_nat (length L))); [|done].
    intros [[i j] k] t [(Hi & Hj & -> & acc & Hh & Hacc & Hm) Hij].
    cbn [fst snd] in Hij. ostep.
    destruct (_ <? _) eqn:Hc; zbool; cycle 1.
    { split; [|cbn [fst snd]; lia]. unfold I.
      do 3 (split; [done|]). by exists acc. }
    specialize (Hij Hc). subst j.
    repeat ostep. same_reads. rename v into a.
    split; [|cbn [fst snd]; lia]. unfold I.
    split; [lia|]. split; [lia|]. split; [lia|]. exists (acc ++ [a]).
    split; [|split].
    - replace (left + (i + 1) + Z.of_nat (length R))
        with (left + i + Z.of_nat (length R) + 1) by lia.
      by eapply Hstep; try done; lia.
    - rewrite length_app. simpl. lia.
    - rewrite <- app_assoc, <- Hm. f_equal.
      rewrite (drop_all_Z R) by lia.
      rewrite !merge_list_nil_r. simpl. symmetry. by apply zget_drop. }
  intros [[i2 j2] k2] s2 [HI2 Hi2]. cbn [fst snd] in Hi2. ostep.
  eapply wp_mono.
  { apply (wp_while
             (fun x s' => I x s' /\ x.1.1 = Z.of_nat (length L))
             _ _
             (fun x s' => I x s' /\ x.1.1 = Z.of_nat (length L) /\
                          x.1.2 = Z.of_nat (length R))); [|done].
    intros [[i j] k] t [(Hi & Hj & -> & acc & Hh & Hacc & Hm) Hil].
    cbn [fst snd] in Hil. subst i. ostep.
    destruct (_ <? _) eqn:Hc; zbool; cycle 1.
    { split; [|cbn [fst snd]; lia]. unfold I.
      do 3 (split; [done|]). by exists acc. }
    repeat ostep. same_reads. rename v into b.
    split; [|done]. unfold I.
    split; [lia|]. split; [lia|]. split; [lia|]. exists (acc ++ [b]).
    split; [|split].
    - replace (left + Z.of_nat (length L) + (j + 1))
        with (left + Z.of_nat (length L) + j + 1) by lia.
      by eapply Hstep; try done; lia.
    - rewrite length_app. simpl. lia.
    - rewrite <- app_assoc, <- Hm. f_equal.
      rewrite (drop_all_Z L) by lia.
      rewrite !merge_list_nil_l. simpl. symmetry. by apply zget_drop. }
  intros [[i3 j3] k3] s3 [(Hi & Hj & -> & acc & Hh & Hacc & Hm) [Hil Hjr]].
  cbn [fst snd] in Hil, Hjr. subst i3 j3. ostep.
  rewrite Hh. rewrite !drop_all_Z in Hm by lia.
  rewrite merge_list_nil_l, app_nil_r in Hm. subst acc.
  do 3 f_equal. lia.
Qed.

(** Replacing the slots [lo..hi] of an array by a list [M]. *)
Lemma splice_length h M lo hi :
  0 <= lo -> lo <= hi + 1 -> hi < Z.of_nat (length h) ->
  Z.of_nat (length M) = hi + 1 - lo ->
  length (take (Z.to_nat lo) h ++ M ++ drop (Z.to_nat (hi + 1)) h) = length h.
Proof.
  intros Hlo Hhi Hlen HM.
  rewrite !length_app, length_take, length_drop. lia.
Qed.

Lemma splice_inside h M lo hi k :
  0 <= lo -> lo <= hi + 1 -> hi < Z.of_nat (length h) ->
  Z.of_nat (length M) = hi + 1 - lo -> lo <= k <= hi ->
  zget (take (Z.to_nat lo) h ++ M ++ drop (Z.to_nat (hi + 1)) h) k =
  zget M (k - lo).
Proof.
  intros Hlo Hhi Hlen HM Hk.
  rewrite zget_app_r by (rewrite length_take; lia).
  rewrite zget_app_l by (rewrite length_take; lia).
  f_equal. rewrite length_take. lia.
Qed.

Lemma splice_outside h M lo hi :
  0 <= lo -> lo <= hi + 1 -> hi < Z.of_nat (length h) ->
  Z.of_nat (length M) = hi + 1 - lo ->
  same_outside lo hi h (take (Z.to_nat lo) h ++ M ++ drop (Z.to_nat (hi + 1)) h).
Proof.
  intros Hlo Hhi Hlen HM. split; [by apply splice_length|].
  intros k [Hk|Hk].
  - destruct (decide (0 <= k)); cycle 1.
    { unfold zget. destruct (0 <=? k) eqn:E; [zbool; lia|done]. }
    rewrite zget_app_l by (rewrite length_take; lia).
    unfold zget. destruct (0 <=? k); [|done].
    rewrite lookup_take. case_decide; [done|lia].
  - rewrite zget_app_r by (rewrite length_take; lia).
    rewrite zget_app_r by (rewrite length_take; lia).
    rewrite length_take, !zget_nonneg by lia.
    rewrite lookup_drop. f_equal. lia.
Qed.

Lemma slice_split h a b c :
  0 <= a -> a <= b -> b <= c -> c <= Z.of_nat (length h) ->
  take (Z.to_nat a) h ++ (slice h a b ++ slice h b c) ++ drop (Z.to_nat c) h = h.
Proof.
  intros Ha Hab Hbc Hc.
  rewrite !slice_inside by lia. rewrite !app_assoc.
  rewrite take_take_drop.
  replace (Z.to_nat a + Z.to_nat (b - a))%nat with (Z.to_nat b) by lia.
  rewrite take_take_drop.
  replace (Z.to_nat b + Z.to_nat (c - b))%nat with (Z.to_nat c) by lia.
  apply take_drop.
Qed.

Lemma sorted_range_slice h a b :
  0 <= a -> a <= b -> b <= Z.of_nat (length h) ->
  sorted_range h a b -> StronglySorted Z.le (slice h a b).
Proof.
  intros Ha Hab Hb Hs. apply Sorted_StronglySorted; [intros x y z; lia|].
  apply sorted_range_Sorted. rewrite length_slice by lia.
  intros i j Hi Hij Hj. unfold hget. rewrite !zget_slice by lia.
  apply Hs; lia.
Qed.

Lemma sorted_range_splice h M lo hi :
  0 <= lo -> lo <= hi + 1 -> hi < Z.of_nat (length h) ->
  Z.of_nat (length M) = hi + 1 - lo -> StronglySorted Z.le M ->
  sorted_range (take (Z.to_nat lo) h ++ M ++ drop (Z.to_nat (hi + 1)) h)
    lo (hi + 1).
Proof.
  intros Hlo Hhi Hlen HM Hs a b Ha Hab Hb. unfold hget.
  rewrite !splice_inside by lia.
  apply StronglySorted_Sorted, Sorted_sorted_range in Hs.
  apply Hs; lia.
Qed.

Lemma sorted_range_same_outside h h' lo hi a b :
  same_outside lo hi h h' -> sorted_range h a b ->
  (b <= lo \/ hi < a) -> sorted_range h' a b.
Proof.
  intros [_ Hout] Hs Hab i j Hi Hij Hj. unfold hget.
  rewrite !Hout by lia. by apply Hs.
Qed.

Lemma mergeSortHelper_order fuel : forall left right s,
  0 <= left -> right < Z.of_nat (length (heights s)) ->
  wp (mergeSortHelper fuel left right)
    (fun _ s' => heights s' ≡ₚ heights s /\
                 same_outside left right (heights s) (heights s') /\
                 sorted_range (heights s') left (right + 1)) s.
Proof.
  induction fuel as [|fuel IH]; intros left right s Hl Hr; [done|].
  cbn [mergeSortHelper]. destruct (left <? right) eqn:Hc; zbool; cycle 1.
  { ostep. split; [done|]. split; [apply same_outside_refl|].
    intros a b Ha Hab Hb. by assert (a = b) as -> by lia. }
  cbv zeta. set (mid := (left + right) / 2).
  assert (Hmid : left <= mid < right) by (subst mid; zdiv).
  ostep. eapply wp_mono; [apply IH; lia|].
  intros [] s1 (Hp1 & Hf1 & Hs1). cbv beta.
  assert (Hlen1 : length (heights s1) = length (heights s)) by apply Hf1.
  ostep. eapply wp_mono; [apply IH; lia|].
  intros [] s2 (Hp2 & Hf2 & Hs2). cbv beta.
  assert (Hlen2 : length (heights s2) = length (heights s1)) by apply Hf2.
  eapply wp_mono; [apply merge_order; lia|].
  intros [] s3 Hh3. cbv beta.
  set (L := slice (heights s2) left (mid + 1)) in *.
  set (R := slice (heights s2) (mid + 1) (right + 1)) in *.
  assert (HLR : Z.of_nat (length (merge_list L R)) = right + 1 - left).
  { rewrite merge_list_perm, length_app. subst L R.
    pose proof (length_slice (heights s2) left (mid + 1)).
    pose proof (length_slice (heights s2) (mid + 1) (right + 1)). lia. }
  rewrite Hh3. split; [|split].
  - rewrite merge_list_perm. subst L R.
    rewrite slice_split by lia. by rewrite Hp2.
  - eapply same_outside_trans.
    { eapply same_outside_weaken; [apply Hf1|lia|lia]. }
    eapply same_outside_trans.
    { eapply same_outside_weaken; [apply Hf2|lia|lia]. }
    apply splice_outside; lia.
  - apply sorted_range_splice; try lia.
    apply merge_list_sorted; apply sorted_range_slice; try lia; [|done].
    eapply sorted_range_same_outside; [apply Hf2|done|lia].
Qed.

Lemma mergeSort_order fuel s :
  wp (mergeSort fuel)
    (fun _ s' => heights s' ≡ₚ bars s /\
                 sorted_range (heights s') 0 (Z.of_nat (length (bars s)))) s.
Proof.
  unfold mergeSort. repeat ostep.
  eapply wp_mono; [apply mergeSortHelper_order; reduce_state; lia|].
  intros [] s1 (Hp & _ & Hs). reduce_state. cbn [heights] in Hp. split; [done|].
  by replace (Z.of_nat (length (bars s)) - 1 + 1)
    with (Z.of_nat (length (bars s))) in Hs by lia.
Qed.
End MergeOrder.

(** *** Heap sort *)

Section HeapOrder.
Implicit Types (s : state Z) (h : list Z).

Lemma below_inv i k :
  below i k -> k = i \/ exists p, below i p /\ (k = 2 * p + 1 \/ k = 2 * p + 2).
Proof. destruct 1; eauto. Qed.

(** A node between [i] and its child [c] has no slot in the subtree of
    [c], and neither have its children. *)
Lemma below_child_node i c k :
  0 <= i -> (c = 2 * i + 1 \/ c = 2 * i + 2) -> i < k < c -> ~ below c k.
Proof. intros Hi Hc Hk Hb. apply below_ge in Hb; lia. Qed.

Lemma below_child_children i c k x :
  0 <= i -> (c = 2 * i + 1 \/ c = 2 * i + 2) -> i < k < c ->
  (x = 2 * k + 1 \/ x = 2 * k + 2) -> ~ below c x.
Proof.
  intros Hi Hc Hk Hx Hb. apply below_inv in Hb as [->|(p & Hp & Hxp)]; [lia|].
  assert (p = k) as -> by lia. apply below_ge in Hp; lia.
Qed.

Lemma below_sibling i c x :
  0 <= i -> (c = 2 * i + 1 \/ c = 2 * i + 2) ->
  (x = 2 * i + 1 \/ x = 2 * i + 2) -> x <> c -> ~ below c x.
Proof.
  intros Hi Hc Hx Hne Hb. apply below_inv in Hb as [->|(p & Hp & Hxp)]; [lia|].
  assert (p = i) as -> by lia. apply below_ge in Hp; lia.
Qed.

Lemma same_unless_below_hget n i h h' k :
  same_unless_below n i h h' -> ~ below i k -> hget h' k = hget h k.
Proof. intros [_ Hout] Hk. unfold hget. rewrite Hout; [done|tauto]. Qed.

Lemma heapify_order fuel : forall n i s,
  0 <= i -> (forall k, i < k < n -> heap_at (heights s) n k) ->
  wp (heapify fuel n i)
    (fun _ s' =>
       exchanged 0 (n - 1) (heights s) (heights s') /\
       same_unless_below n i (heights s) (heights s') /\
       (forall k, i <= k < n -> heap_at (heights s') n k) /\
       (hget (heights s') i = hget (heights s) i \/
        (2 * i + 1 < n /\ hget (heights s') i = hget (heights s) (2 * i + 1)) \/
        (2 * i + 2 < n /\ hget (heights s') i = hget (heights s) (2 * i + 2)))) s.
Proof.
  induction fuel as [|fuel IH]; intros n i s Hi Hheap; [done|].
  cbn [heapify]. cbv zeta. set (h := heights s) in *.
  apply wp_bind.
  apply (wp_mono _ (fun lg s' => s' = s /\
           (lg = i /\ (2 * i + 1 < n -> hget h (2 * i + 1) <= hget h i) \/
            lg = 2 * i + 1 /\ lg < n /\ hget h i < hget h lg))).
  { destruct (2 * i + 1 <? n) eqn:Hc; zbool; [|ostep; split; [done|left; lia]].
    repeat ostep. norm_reads. fold h.
    destruct (gtb _ _) eqn:Hgt; use_cmp; (split; [done|]); lia. }
  intros lg1 ? [-> Hlg1]. apply wp_bind.
  apply (wp_mono _ (fun lg s' => s' = s /\
           (lg = i \/ (lg = 2 * i + 1 \/ lg = 2 * i + 2) /\ lg < n /\
                      hget h i < hget h lg) /\
           (2 * i + 1 < n -> hget h (2 * i + 1) <= hget h lg) /\
           (2 * i + 2 < n -> hget h (2 * i + 2) <= hget h lg))).
  { destruct Hlg1 as [[-> Hlg1]|(-> & Hlg1 & Hlg1')];
      (destruct (2 * i + 2 <? n) eqn:Hc; zbool; [|ostep; split; [done|lia]]);
      repeat ostep; norm_reads; fold h;
      destruct (gtb _ _) eqn:Hgt; use_cmp; (split; [done|]); lia. }
  intros lg ? (-> & Hlg & Hleft & Hright). clear Hlg1.
  destruct (negb (lg =? i)) eqn:Hli; zbool; cycle 1.
  { ostep. subst lg. split; [constructor|]. split; [apply same_unless_below_refl|].
    split; [|by left]. intros k Hk.
    destruct (decide (k = i)) as [->|]; [by split|]. apply Hheap. lia. }
  assert (Hlg' : (lg = 2 * i + 1 \/ lg = 2 * i + 2) /\ lg < n /\
                 hget h i < hget h lg) by lia.
  clear Hlg. destruct Hlg' as (Hlg & Hlgn & Hlt).
  repeat ostep. same_reads. norm_reads. fold h. fold h in Hbnd, Hbnd0.
  set (h1 := zset (zset h i (hget h lg)) lg (hget h i)).
  assert (Hh1 : forall k, hget h1 k =
                  if k =? lg then hget h i else if k =? i then hget h lg else hget h k).
  { intros k. subst h1. by rewrite !hget_zset by in_bounds_solve. }
  eapply wp_mono.
  { apply IH; [lia|]. reduce_state. fold h1. intros k Hk.
    specialize (Hheap k). unfold heap_at in *. rewrite !Hh1.
    repeat case_match; zbool; first [lia | apply Hheap; lia]. }
  intros [] s2 (Hex2 & Hf2 & Hheap2 & Hroot2). reduce_state.
  cbn [heights] in Hex2, Hf2, Hroot2. fold h1 in Hex2, Hf2, Hroot2.
  assert (Hi2 : hget (heights s2) i = hget h lg).
  { rewrite (same_unless_below_hget _ _ _ _ i Hf2), Hh1.
    - repeat case_match; zbool; lia.
    - intros Hb'. apply below_ge in Hb'; lia. }
  assert (Hlg2 : hget (heights s2) lg <= hget h lg).
  { specialize (Hheap lg). unfold heap_at in Hheap. rewrite !Hh1 in Hroot2.
    repeat case_match; zbool; lia. }
  split; [|split; [|split]].
  - eapply exchanged_trans; [|apply Hex2].
    apply exchanged_step; [constructor| | |done|done]; norm_bounds; lia.
  - destruct Hf2 as [Hlen2 Hout2]. split.
    { rewrite Hlen2. subst h1. by rewrite !length_zset. }
    intros k Hk. rewrite Hout2.
    + subst h1. rewrite zget_exchange_other; [done| |].
      * intros ->. apply Hk. split; [constructor|lia].
      * intros ->. apply Hk. split; [|lia].
        destruct Hlg as [-> | ->]; constructor; constructor.
    + intros [Hb' Hkn]. apply Hk. split; [|done].
      eapply below_trans; [|apply Hb'].
      destruct Hlg as [-> | ->]; constructor; constructor.
  - intros k Hk. destruct (decide (lg <= k)); [apply Hheap2; lia|].
    destruct (decide (k = i)) as [->|Hki].
    + assert (Hsib : forall x, (x = 2 * i + 1 \/ x = 2 * i + 2) -> x < n ->
                hget (heights s2) x <= hget h lg).
      { intros x Hx Hxn. destruct (decide (x = lg)) as [->|]; [done|].
        rewrite (same_unless_below_hget _ _ _ _ x Hf2)
          by (eapply below_sibling; eauto).
        rewrite Hh1. repeat case_match; zbool; try lia.
        destruct Hx as [-> | ->]; auto. }
      split; intros Hc; rewrite Hi2; apply Hsib; lia.
    + assert (Hsame : forall x, x = k \/ x = 2 * k + 1 \/ x = 2 * k + 2 ->
                hget (heights s2) x = hget h x).
      { intros x Hx. rewrite (same_unless_below_hget _ _ _ _ x Hf2); cycle 1.
        { destruct Hx as [->|Hx].
          - eapply (below_child_node i); eauto; lia.
          - eapply (below_child_children i _ k); eauto; lia. }
        rewrite Hh1. repeat case_match; zbool; lia. }
      specialize (Hheap k). unfold heap_at in *.
      rewrite !Hsame by auto. apply Hheap. lia.
  - right. rewrite Hi2. destruct Hlg as [-> | ->]; [left|right]; split; (lia || done).
Qed.

Lemma heap_root_max h n :
  (forall k, 0 <= k < n -> heap_at h n k) ->
  forall k, 0 <= k < n -> hget h k <= hget h 0.
Proof.
  intros Hheap k Hk.
  remember (Z.to_nat k) as m eqn:Hm. revert k Hk Hm.
  induction m as [m IH] using lt_wf_ind. intros k Hk ->.
  destruct (decide (k = 0)) as [->|Hne]; [lia|].
  set (p := (k - 1) / 2).
  assert (Hp : 0 <= p < k /\ (k = 2 * p + 1 \/ k = 2 * p + 2)) by (subst p; zdiv).
  clearbody p.
  assert (Hp0 : hget h p <= hget h 0).
  { apply (IH (Z.to_nat p)); [lia|lia|done]. }
  destruct (Hheap p) as [Hl Hr]; [lia|].
  destruct Hp as [_ [-> | ->]]; [specialize (Hl ltac:(lia))|specialize (Hr ltac:(lia))]; lia.
Qed.

Lemma heapSort_order fuel s :
  wp (heapSort fuel)
    (fun _ s' => heights s' ≡ₚ bars s /\
                 sorted_range (heights s') 0 (Z.of_nat (length (bars s)))) s.
Proof.
  unfold heapSort. set (N := Z.of_nat (length (bars s))).
  repeat ostep. fold N. eapply wp_mono.
  { apply (wp_while
             (fun i s' => heights s' ≡ₚ bars s /\
                          forall k, i < k < N -> heap_at (heights s') N k)
             _ _
             (fun _ s' => heights s' ≡ₚ bars s /\
                          forall k, 0 <= k < N -> heap_at (heights s') N k)).
    - intros i s1 (Hp & Hheap). ostep.
      destruct (i >=? 0) eqn:Hc; zbool; cycle 1.
      { split; [done|]. intros k Hk. apply Hheap. lia. }
      repeat ostep.
      assert (Hlen : Z.of_nat (length (heights s1)) = N).
      { subst N. by rewrite Hp. }
      rewrite Hlen. eapply wp_mono; [by apply heapify_order|].
      intros [] s2 (Hex & _ & Hheap2 & _). ostep. split.
      + by rewrite (exchanged_perm _ _ _ _ Hex).
      + intros k Hk. apply Hheap2. lia.
    - split; [done|]. intros k Hk. split; intros Hc; zdiv. }
  intros i1 s1 (Hp1 & Hheap1). repeat ostep.
  assert (Hlen1 : Z.of_nat (length (heights s1)) = N).
  { subst N. by rewrite Hp1. }
  rewrite Hlen1. eapply wp_mono.
  { apply (wp_while
             (fun i s' => i < N /\ heights s' ≡ₚ bars s /\
                (forall k, 0 <= k <= i -> heap_at (heights s') (i + 1) k) /\
                (forall a b, i < a -> a <= b -> b < N ->
                   hget (heights s') a <= hget (heights s') b) /\
                (forall a b, 0 <= a <= i -> i < b < N ->
                   hget (heights s') a <= hget (heights s') b))
             _ _
             (fun _ s' => heights s' ≡ₚ bars s /\
                          sorted_range (heights s') 0 N)).
    - intros i s2 (Hi & Hp & Hheap & Hsuf & Hcross). ostep.
      destruct (i >? 0) eqn:Hc; zbool; cycle 1.
      { split; [done|]. intros a b Ha Hab Hb.
        destruct (decide (a = b)) as [->|]; [lia|].
        destruct (decide (i < a)); [apply Hsuf; lia|apply Hcross; lia]. }
      repeat ostep. same_reads. norm_reads.
      set (h := heights s2) in *.
      set (h1 := zset (zset h 0 (hget h i)) i (hget h 0)).
      assert (Hh1 : forall k, hget h1 k =
                if k =? i then hget h 0 else if k =? 0 then hget h i else hget h k).
      { intros k. subst h1. by rewrite !hget_zset by in_bounds_solve. }
      assert (Hmax : forall k, 0 <= k < i + 1 -> hget h k <= hget h 0).
      { apply heap_root_max. intros k Hk. apply Hheap. lia. }
      eapply wp_mono.
      { apply heapify_order; [lia|]. reduce_state. fold h1. intros k Hk.
        specialize (Hheap k). unfold heap_at in *. rewrite !Hh1.
        repeat case_match; zbool; lia. }
      intros [] s3 (Hex & _ & Hheap3 & _). reduce_state.
      cbn [heights] in Hex. fold h1 in Hex. ostep.
      assert (Hout : forall k, i <= k -> hget (heights s3) k = hget h1 k).
      { intros k Hk. apply (exchanged_outside _ _ _ _ k Hex). lia. }
      split; [lia|]. split; [|split; [|split]].
      + rewrite (exchanged_perm _ _ _ _ Hex). subst h1.
        by rewrite exchange_perm by in_bounds_solve.
      + intros k Hk. replace (i - 1 + 1) with i by lia. apply Hheap3. lia.
      + intros a b Ha Hab Hb. rewrite !Hout, !Hh1 by lia.
        destruct (decide (a = b)) as [->|]; [lia|].
        repeat case_match; zbool; try lia;
          first [apply Hcross; lia | apply Hsuf; lia].
      + intros a b Ha Hb. rewrite (Hout b) by lia.
        apply (exchanged_bound _ _ _ _ (fun x => x <= hget h1 b) Hex); [|lia].
        intros k Hk. rewrite !Hh1.
        repeat case_match; zbool; try lia.
        * apply Hmax; lia.
        * apply Hcross; lia.
        * apply Hmax; lia.
        * apply Hcross; lia.
    - split; [lia|]. split; [done|]. split; [|split].
      + intros k Hk. replace (N - 1 + 1) with N by lia. apply Hheap1. lia.
      + intros a b Ha Hab Hb. lia.
      + intros a b Ha Hb. lia. }
  intros i2 s2 (Hp & Hs). ostep. ostep. done.
Qed.
End HeapOrder.

(** ** Traces and logs *)

Section Replay.
Context {V : Type} `{JsOrd V}.
Implicit Types (s : state V) (b : list V) (lg : list (event V)).

Lemma replay_rev lg b : replay (rev lg) b = replay_log lg b.
Proof.
  unfold replay, replay_log. revert b.
  induction lg as [|e lg IH]; intros b; [done|].
  simpl. by rewrite fold_left_app, IH.
Qed.

Lemma marks_app lg1 lg2 : marks (lg1 ++ lg2) = marks lg1 ++ marks lg2.
Proof.
  induction lg1 as [|e lg1 IH]; [done|].
  destruct e as [i []| | |]; simpl; by rewrite ?IH.
Qed.

Lemma marks_rev lg : marks (rev lg) = reverse (marks lg).
Proof.
  induction lg as [|e lg IH]; [done|].
  simpl rev. rewrite marks_app, IH.
  destruct e as [i []| | |]; simpl; rewrite ?reverse_cons, ?app_nil_r; done.
Qed.


End Replay.

(** ** Runs on an array that is already in order *)

(** The state is taken apart, so that the array and the bars are [h]
    itself; writing to a slot the value it holds changes nothing. *)
Ltac rest_open s Hs :=
  let hh := fresh "hh" in
  let bb := fresh "bb" in
  let lg := fresh "lg" in
  let Hh := fresh "Hh" in
  let Hb := fresh "Hb" in
  let Hq := fresh "Hq" in
  destruct s as [hh bb lg]; destruct Hs as (Hh & Hb & Hq);
  cbn [heights bars log] in Hh, Hb, Hq; subst hh bb.

Ltac rest_done :=
  try apply wp_ret; cbv beta iota;
  repeat match goal with
  | Hs : at_rest _ _ |- _ => destruct Hs as (? & ? & ?)
  end;
  unfold at_rest; reduce_state;
  repeat match goal with
  | |- _ /\ _ => split
  end;
  try done; try lia;
  unfold quiet;
  repeat (apply Forall_cons; split; [by simpl|]);
  try assumption.

Ltac rstep :=
  ostep; rewrite ?setPx_valid by reflexivity; rewrite ?zset_id by eassumption.

Section AtRest.
Implicit Types (s : state Z) (h : list Z).

Lemma bubbleSort_rest fuel s h0 :
  sorted_range h0 0 (Z.of_nat (length h0)) ->
  bars s = h0 -> quiet h0 (log s) ->
  wp (bubbleSort fuel) (fun _ s' => at_rest h0 s') s.
Proof.
  intros Hsorted Hb Hq. unfold bubbleSort, sorted_range in *.
  set (N := Z.of_nat (length h0)) in *.
  repeat rstep. rewrite Hb.
  eapply wp_mono.
  { apply (wp_while (fun i s' => 0 <= i /\ at_rest h0 s') _ _
             (fun _ s' => at_rest h0 s')).
    - intros i s1 (Hi & Hs1). rest_open s1 Hs1. repeat rstep. fold N.
      destruct (i <? N) eqn:Hc; zbool; [|rest_done].
      repeat rstep. eapply wp_mono.
      { apply (wp_while (fun j s' => 0 <= j /\ at_rest h0 s') _ _
                 (fun _ s' => at_rest h0 s')).
        - intros j s2 (Hj & Hs2). rest_open s2 Hs2. repeat rstep. fold N.
          destruct (j <? N - i - 1) eqn:Hc2; zbool; [|rest_done].
          repeat rstep. destruct (gtb _ _) eqn:Hgt; use_cmp.
          + exfalso. arr_lia.
          + repeat rstep. rest_done.
        - rest_done. }
      intros ? s2 Hs2. rstep. by split; [lia|].
    - rest_done. }
  intros ? s1 Hs1. repeat rstep.
  eapply wp_mono.
  { apply (wp_while (fun (_ : Z) s' => at_rest h0 s') _ _
             (fun _ s' => at_rest h0 s')); [|done].
    intros i s2 Hs2. rest_open s2 Hs2. repeat rstep.
    destruct (_ <? _); [|rest_done]. repeat rstep. rest_done. }
  intros ? s2 Hs2. by rstep.
Qed.

Lemma selectionSort_rest fuel s h0 :
  sorted_range h0 0 (Z.of_nat (length h0)) ->
  bars s = h0 -> quiet h0 (log s) ->
  wp (selectionSort fuel) (fun _ s' => at_rest h0 s') s.
Proof.
  intros Hsorted Hb Hq. unfold selectionSort, sorted_range in *.
  set (N := Z.of_nat (length h0)) in *.
  repeat rstep. rewrite Hb.
  eapply wp_mono.
  { apply (wp_while (fun i s' => 0 <= i /\ at_rest h0 s') _ _
             (fun _ s' => at_rest h0 s')).
    - intros i s1 (Hi & Hs1). rest_open s1 Hs1. repeat rstep. fold N.
      destruct (i <? N) eqn:Hc; zbool; [|rest_done].
      repeat rstep. eapply wp_mono.
      { apply (wp_while
                 (fun '(j, m) s' => i < j /\ m = i /\ at_rest h0 s') _ _
                 (fun '(j, m) s' => m = i /\ at_rest h0 s')).
        - intros [j m] s2 (Hj & -> & Hs2). rest_open s2 Hs2. repeat rstep.
          fold N. destruct (j <? N) eqn:Hc2; zbool; [|rest_done].
          repeat rstep. destruct (ltb _ _) eqn:Hlt; use_cmp.
          + exfalso. arr_lia.
          + repeat rstep. rest_done.
        - rest_done. }
      intros [j m] s2 (-> & Hs2). rest_open s2 Hs2. reduce_state.
      rewrite Z.eqb_refl. cbn [negb]. repeat rstep. rest_done.
    - rest_done. }
  intros ? s1 Hs1. by rstep.
Qed.

Lemma insertionSort_rest fuel s h0 :
  sorted_range h0 0 (Z.of_nat (length h0)) ->
  bars s = h0 -> quiet h0 (log s) ->
  wp (insertionSort fuel) (fun _ s' => at_rest h0 s') s.
Proof.
  intros Hsorted Hb Hq. unfold insertionSort, sorted_range in *.
  set (N := Z.of_nat (length h0)) in *.
  repeat rstep. rewrite Hb.
  eapply wp_mono.
  { apply (wp_while (fun i s' => 1 <= i /\ at_rest h0 s') _ _
             (fun _ s' => at_rest h0 s')).
    - intros i s1 (Hi & Hs1). rest_open s1 Hs1. repeat rstep. fold N.
      destruct (i <? N) eqn:Hc; zbool; [|rest_done].
      repeat rstep. eapply wp_mono.
      { apply (wp_while (fun j s' => j = i - 1 /\ at_rest h0 s') _ _
                 (fun j s' => j = i - 1 /\ at_rest h0 s')).
        - intros j s2 (-> & Hs2). rest_open s2 Hs2.
          destruct (i - 1 >=? 0) eqn:Hc2; zbool; [|rest_done].
          repeat rstep. destruct (gtb _ _) eqn:Hgt; use_cmp; [|rest_done].
          exfalso. arr_lia.
        - rest_done. }
      intros j s2 (-> & Hs2). rest_open s2 Hs2.
      replace (i - 1 + 1) with i by lia. repeat rstep. rest_done.
    - rest_done. }
  intros ? s1 Hs1. by rstep.
Qed.

Lemma shellSort_rest fuel s h0 :
  sorted_range h0 0 (Z.of_nat (length h0)) ->
  bars s = h0 -> quiet h0 (log s) ->
  wp (shellSort fuel) (fun _ s' => at_rest h0 s') s.
Proof.
  intros Hsorted Hb Hq. unfold shellSort, sorted_range in *.
  set (N := Z.of_nat (length h0)) in *.
  repeat rstep. rewrite Hb. fold N.
  eapply wp_mono.
  { apply (wp_while (fun (_ : Z) s' => at_rest h0 s') _ _
             (fun _ s' => at_rest h0 s')).
    - intros gap s1 Hs1. rest_open s1 Hs1. repeat rstep.
      destruct (gap >? 0) eqn:Hc; zbool; [|rest_done].
      repeat rstep. eapply wp_mono.
      { apply (wp_while (fun i s' => gap <= i /\ at_rest h0 s') _ _
                 (fun _ s' => at_rest h0 s')).
        - intros i s2 (Hi & Hs2). rest_open s2 Hs2. repeat rstep.
          destruct (i <? N) eqn:Hc2; zbool; [|rest_done].
          repeat rstep. eapply wp_mono.
          { apply (wp_while (fun j s' => j = i /\ at_rest h0 s') _ _
                     (fun j s' => j = i /\ at_rest h0 s')).
            - intros j s3 (-> & Hs3). rest_open s3 Hs3.
              destruct (i >=? gap) eqn:Hc3; zbool; [|rest_done].
              repeat rstep. destruct (gtb _ _) eqn:Hgt; use_cmp; [|rest_done].
              exfalso. arr_lia.
            - rest_done. }
          intros j s3 (-> & Hs3). rest_open s3 Hs3. repeat rstep. rest_done.
        - rest_done. }
      intros ? s2 Hs2. by rstep.
    - rest_done. }
  intros ? s1 Hs1. repeat rstep.
  eapply wp_mono.
  { apply (wp_while (fun (_ : Z) s' => at_rest h0 s') _ _
             (fun _ s' => at_rest h0 s')); [|done].
    intros i s2 Hs2. rest_open s2 Hs2. repeat rstep.
    destruct (_ <? _); [|rest_done]. repeat rstep. rest_done. }
  intros ? s2 Hs2. by rstep.
Qed.

Lemma partition_rest fuel low high s h0 :
  sorted_range h0 0 (Z.of_nat (length h0)) ->
  0 <= low <= high -> high < Z.of_nat (length h0) -> at_rest h0 s ->
  wp (partition fuel low high) (fun pi s' => pi = high /\ at_rest h0 s') s.
Proof.
  intros Hsorted Hlow Hhigh Hs. unfold partition, sorted_range in *.
  set (N := Z.of_nat (length h0)) in *.
  rest_open s Hs. repeat rstep. eapply wp_mono.
  { apply (wp_while
             (fun '(i, j) s' => i = j - 1 /\ low <= j <= high /\ at_rest h0 s')
             _ _
             (fun '(i, j) s' => i = high - 1 /\ at_rest h0 s')).
    - intros [i j] s1 (-> & Hj & Hs1). rest_open s1 Hs1. rstep.
      destruct (j <? high) eqn:Hc; zbool; [|rest_done].
      repeat rstep. destruct (leb _ _) eqn:Hle; use_cmp; cycle 1.
      { exfalso. arr_lia. }
      cbv zeta. replace (j - 1 + 1) with j by lia. rewrite Z.eqb_refl.
      cbn [negb]. repeat rstep. rest_done.
    - rest_done. }
  intros [i j] s1 (-> & Hs1). rest_open s1 Hs1. reduce_state.
  replace (high - 1 + 1) with high by lia. repeat rstep. rest_done.
Qed.

Lemma quickSortHelper_rest h0 fuel : forall low high s,
  sorted_range h0 0 (Z.of_nat (length h0)) ->
  0 <= low -> high < Z.of_nat (length h0) -> at_rest h0 s ->
  wp (quickSortHelper fuel low high) (fun _ s' => at_rest h0 s') s.
Proof.
  induction fuel as [|fuel IH]; intros low high s Hsorted Hlow Hhigh Hs; [done|].
  simpl. destruct (low <? high) eqn:Hc; zbool; [|done].
  apply wp_bind. eapply wp_mono; [apply partition_rest; [done|lia|lia|done]|].
  intros pi s1 (-> & Hs1). apply wp_bind.
  eapply wp_mono; [apply IH; [done|lia|lia|done]|].
  intros [] s2 Hs2. apply IH; [done|lia|lia|done].
Qed.

Lemma quickSort_rest fuel s h0 :
  sorted_range h0 0 (Z.of_nat (length h0)) ->
  bars s = h0 -> quiet h0 (log s) ->
  wp (quickSort fuel) (fun _ s' => at_rest h0 s') s.
Proof.
  intros Hsorted Hb Hq. unfold quickSort. repeat rstep. rewrite Hb.
  apply quickSortHelper_rest; [done|lia|lia|done].
Qed.

Lemma merge_rest fuel left mid right s h0 :
  sorted_range h0 0 (Z.of_nat (length h0)) ->
  0 <= left <= mid -> mid < right < Z.of_nat (length h0) -> at_rest h0 s ->
  wp (merge fuel left mid right) (fun _ s' => at_rest h0 s') s.
Proof.
  intros Hsorted Hl Hr Hs. unfold merge, sorted_range in *.
  set (N := Z.of_nat (length h0)) in *.
  rest_open s Hs. rstep. rstep. rename arr into L. rstep. rstep.
  rename arr into R.
  assert (HL : Z.of_nat (length L) = mid + 1 - left).
  { subst L. apply length_slice; lia. }
  assert (HR : Z.of_nat (length R) = right - mid).
  { subst R. rewrite length_slice; lia. }
  assert (HgL : forall i v, zget L i = Some v -> 0 <= i < mid + 1 - left ->
                  zget h0 (left + i) = Some v).
  { intros i v Hv Hi. subst L. by rewrite zget_slice in Hv by lia. }
  assert (HgR : forall j v, zget R j = Some v -> 0 <= j < right - mid ->
                  zget h0 (mid + 1 + j) = Some v).
  { intros j v Hv Hj. subst R. by rewrite zget_slice in Hv by lia. }
  clear H H0. cbv zeta. rewrite HL, HR. rstep. eapply wp_mono.
  { apply (wp_while
             (fun '(i, j, k) s' =>
                0 <= i <= mid + 1 - left /\ j = 0 /\ k = left + i /\
                at_rest h0 s')
             _ _
             (fun '(i, j, k) s' =>
                i = mid + 1 - left /\ j = 0 /\ k = left + i /\ at_rest h0 s')).
    - intros [[i j] k] s1 (Hi & -> & -> & Hs1). rest_open s1 Hs1. rstep.
      destruct (i <? mid + 1 - left) eqn:Hc; zbool; simpl andb; cycle 1.
      { destruct (0 <? right - mid); rest_done. }
      destruct (0 <? right - mid) eqn:Hc'; zbool; [|lia].
      repeat rstep.
      match goal with
      | Ha : zget L i = Some _, Hb : zget R 0 = Some _ |- _ =>
          apply HgL in Ha; [|lia]; apply HgR in Hb; [|lia]
      end.
      destruct (leb _ _) eqn:Hle; use_cmp; cycle 1.
      { exfalso. arr_lia. }
      rstep. rstep.
      match goal with
      | Ha : zget L i = Some _ |- _ => apply HgL in Ha; [|lia]
      end.
      repeat rstep. rest_done.
    - rest_done. }
  intros [[i j] k] s1 (-> & -> & -> & Hs1). rstep. eapply wp_mono.
  { apply (wp_while
             (fun '(i, j, k) s' =>
                i = mid + 1 - left /\ j = 0 /\ k = left + i /\ at_rest h0 s')
             _ _
             (fun '(i, j, k) s' =>
                i = mid + 1 - left /\ j = 0 /\ k = left + i /\ at_rest h0 s')).
    - intros [[i j] k] s2 (-> & -> & -> & Hs2). rest_open s2 Hs2. rstep.
      destruct (_ <? _) eqn:Hc; zbool; [lia|]. rest_done.
    - rest_done. }
  intros [[i j] k] s2 (-> & -> & -> & Hs2). rstep. eapply wp_mono.
  { apply (wp_while
             (fun '(i, j, k) s' =>
                0 <= j /\ k = mid + 1 + j /\ at_rest h0 s')
             _ _
             (fun _ s' => at_rest h0 s')).
    - intros [[i j] k] s3 (Hj & -> & Hs3). rest_open s3 Hs3. rstep.
      destruct (j <? right - mid) eqn:Hc; zbool; [|rest_done].
      rstep. rstep.
      match goal with
      | Ha : zget R j = Some _ |- _ => apply HgR in Ha; [|lia]
      end.
      repeat rstep. rest_done.
    - rest_done. }
  intros ? s3 Hs3. by rstep.
Qed.

Lemma mergeSortHelper_rest h0 fuel : forall left right s,
  sorted_range h0 0 (Z.of_nat (length h0)) ->
  0 <= left -> right < Z.of_nat (length h0) -> at_rest h0 s ->
  wp (mergeSortHelper fuel left right) (fun _ s' => at_rest h0 s') s.
Proof.
  induction fuel as [|fuel IH]; intros left right s Hsorted Hl Hr Hs; [done|].
  cbn [mergeSortHelper]. destruct (left <? right) eqn:Hc; zbool; [|done].
  cbv zeta. assert (left <= (left + right) / 2 < right) by zdiv.
  apply wp_bind. eapply wp_mono; [apply IH; [done|lia|lia|done]|].
  intros [] s1 Hs1. apply wp_bind.
  eapply wp_mono; [apply IH; [done|lia|lia|done]|].
  intros [] s2 Hs2. apply merge_rest; [done|lia|lia|done].
Qed.

Lemma mergeSort_rest fuel s h0 :
  sorted_range h0 0 (Z.of_nat (length h0)) ->
  bars s = h0 -> quiet h0 (log s) ->
  wp (mergeSort fuel) (fun _ s' => at_rest h0 s') s.
Proof.
  intros Hsorted Hb Hq. unfold mergeSort. repeat rstep. rewrite Hb.
  apply mergeSortHelper_rest; [done|lia|lia|done].
Qed.
End AtRest.

(** ** The helpers do not look at the log *)

Section LogBlind.
Context {V : Type} `{JsOrd V}.
Implicit Types (s : state V).

Lemma same_store_refl s : same_store s s.
Proof. done. Qed.

Lemma log_blind_ret {A} (a : A) : log_blind (V:=V) (ret a).
Proof. by intros s1 s2 Hs. Qed.

Lemma log_blind_throw {A} e : log_blind (V:=V) (A:=A) (throw e).
Proof. by intros s1 s2 Hs. Qed.

Lemma log_blind_bind {A B} (m : M V A) (f : A -> M V B) :
  log_blind m -> (forall a, log_blind (f a)) -> log_blind (bind m f).
Proof.
  intros Hm Hf s1 s2 Hs. specialize (Hm s1 s2 Hs). unfold bind.
  destruct (m s1) as [a s1'|e s1'], (m s2) as [b s2'|e' s2']; try done.
  destruct Hm as [<- Hs']. by apply Hf.
Qed.

Lemma log_blind_while {L} (cond : L -> M V bool) (body : L -> M V L) :
  (forall x, log_blind (cond x)) -> (forall x, log_blind (body x)) ->
  forall fuel x, log_blind (while fuel cond body x).
Proof.
  intros Hc Hb fuel. induction fuel as [|fuel IH]; intros x; simpl.
  - apply log_blind_throw.
  - apply log_blind_bind; [apply Hc|]. intros [].
    + apply log_blind_bind; [apply Hb|apply IH].
    + apply log_blind_ret.
Qed.

Lemma log_blind_readH i : log_blind (V:=V) (readH i).
Proof.
  intros s1 s2 [Hh Hb]. unfold readH. rewrite Hh.
  by destruct (zget _ _).
Qed.

Lemma log_blind_writeH i v : log_blind (V:=V) (writeH i v).
Proof.
  intros s1 s2 [Hh Hb]. unfold writeH. rewrite Hh.
  destruct (in_bounds _ _); [|done]. split; [done|]. split; simpl; congruence.
Qed.

Lemma log_blind_onBar i op : log_blind (V:=V) (onBar i op).
Proof.
  intros s1 s2 [Hh Hb]. unfold onBar. rewrite Hb.
  destruct (in_bounds _ _); [|done]. split; [done|]. split; simpl; congruence.
Qed.

Lemma log_blind_emit e : log_blind (V:=V) (emit e).
Proof. by intros s1 s2 Hs. Qed.

Lemma log_blind_delay : log_blind (V:=V) delay.
Proof. by intros s1 s2 Hs. Qed.

Lemma log_blind_lengthH : log_blind (V:=V) lengthH.
Proof. intros s1 s2 [Hh Hb]. unfold lengthH. by rewrite Hh. Qed.

Lemma log_blind_sliceH a b : log_blind (V:=V) (sliceH a b).
Proof. intros s1 s2 [Hh Hb]. unfold sliceH. by rewrite Hh. Qed.

Lemma log_blind_readA arr i : log_blind (V:=V) (readA arr i).
Proof. intros s1 s2 Hs. unfold readA. by destruct (zget _ _). Qed.
End LogBlind.

Ltac blind_step :=
  cbv beta;
  lazymatch goal with
  | |- log_blind (bind _ _) => apply log_blind_bind; [|intros ?]
  | |- log_blind (while _ _ _ _) => apply log_blind_while; intros ?
  | |- log_blind (ret _) => apply log_blind_ret
  | |- log_blind (throw _) => apply log_blind_throw
  | |- log_blind (readH _) => apply log_blind_readH
  | |- log_blind (readA _ _) => apply log_blind_readA
  | |- log_blind (sliceH _ _) => apply log_blind_sliceH
  | |- log_blind lengthH => apply log_blind_lengthH
  | |- log_blind (writeH _ _) => apply log_blind_writeH
  | |- log_blind (onBar _ _) => apply log_blind_onBar
  | |- log_blind playSound => apply log_blind_emit
  | |- log_blind delay => apply log_blind_delay
  | |- log_blind (highlightBar _ _ _) => apply log_blind_onBar
  | |- log_blind (updateBarHeight _ _) => apply log_blind_onBar
  | |- log_blind (addPulse _) => apply log_blind_onBar
  | |- log_blind (resetBarStyle _) => apply log_blind_onBar
  | |- log_blind (markAsSorted _) => apply log_blind_onBar
  | |- log_blind (swapH _ _) => unfold swapH
  | |- log_blind (syncBar _) => unfold syncBar
  | |- log_blind (match ?x with _ => _ end) => destruct x
  end.

Section Frames.
Context {V : Type} `{JsOrd V}.
Implicit Types (s : state V).

Lemma partition_log_blind fuel low high :
  log_blind (V:=V) (partition fuel low high).
Proof. unfold partition. repeat blind_step. Qed.

Lemma heapify_log_blind fuel : forall n i, log_blind (V:=V) (heapify fuel n i).
Proof.
  induction fuel as [|fuel IH]; intros n i; simpl.
  - apply log_blind_throw.
  - apply log_blind_bind; [repeat blind_step|]. intros l1.
    apply log_blind_bind; [repeat blind_step|]. intros l2.
    destruct (negb (l2 =? i)); [|apply log_blind_ret].
    repeat (apply log_blind_bind; [repeat blind_step|intros ?]). apply IH.
Qed.

(** A call of [partition] returns and leaves the slots outside
    [low..high] alone. *)
Lemma partition_frame fuel N low high s :
  in_len N s -> 0 <= low <= high -> high < N ->
  (Z.to_nat (high - low) < fuel)%nat ->
  exists pi s', partition fuel low high s = Ok pi s' /\
    low <= pi <= high /\ in_len N s' /\
    same_outside low high (heights s) (heights s').
Proof.
  intros Hs Hlow Hhigh Hfuel.
  set (s0 := {| heights := heights s; bars := bars s; log := [] |}).
  assert (Hs0 : in_step N [] s0) by (by split).
  pose proof (partition_structure fuel N [] low high s0 Hs0 Hlow Hhigh) as Hp.
  apply twp_elim in Hp as (pi & s0' & Hrun & Hpi & [Hsync _] & Hout);
    [|by intros k Hk%elem_of_nil|done].
  pose proof (partition_log_blind fuel low high s s0 (same_store_refl _)) as Hb.
  cbv beta in Hb. fold s0 in Hb. rewrite Hrun in Hb.
  destruct (partition fuel low high s) as [pi' s'|]; [|done].
  destruct Hb as [-> [Hh Hbars]]. exists pi, s'. split; [done|].
  split; [done|]. unfold in_len. rewrite Hh, Hbars. by split.
Qed.

(** A call of [heapify] returns and leaves alone the slots that are
    not below [i] in the heap. *)
Lemma heapify_frame fuel N n i s :
  in_len N s -> 0 <= i -> n <= N ->
  (Z.to_nat (n - i) < fuel)%nat ->
  exists s', heapify fuel n i s = Ok tt s' /\ in_len N s' /\
    same_unless_below n i (heights s) (heights s').
Proof.
  intros Hs Hi Hn Hfuel.
  set (s0 := {| heights := heights s; bars := bars s; log := [] |}).
  assert (Hs0 : in_step N [] s0) by (by split).
  pose proof (heapify_structure fuel N [] n i s0 Hs0 Hi Hn) as Hp.
  apply twp_elim in Hp as ([] & s0' & Hrun & [Hsync _] & Hout);
    [|by intros k Hk%elem_of_nil|done].
  pose proof (heapify_log_blind fuel n i s s0 (same_store_refl _)) as Hb.
  cbv beta in Hb. fold s0 in Hb. rewrite Hrun in Hb.
  destruct (heapify fuel n i s) as [[] s'|]; [|done].
  destruct Hb as [_ [Hh Hbars]]. exists s'. split; [done|].
  unfold in_len. rewrite Hh, Hbars. by split.
Qed.

(** A call of [merge] returns and leaves the slots outside
    [left..right] alone. *)
Lemma merge_frame fuel N left mid right s :
  in_len N s -> 0 <= left <= mid -> mid < right < N ->
  (Z.to_nat (right - left + 1) < fuel)%nat ->
  exists s', merge fuel left mid right s = Ok tt s' /\ in_len N s' /\
    same_outside left right (heights s) (heights s').
Proof.
  intros Hs Hl Hr Hfuel.
  pose proof (merge_structure fuel N left mid right s Hs Hl Hr Hfuel) as Hp.
  apply twp_elim in Hp as ([] & s' & Hrun & Hsync & Hout). by exists s'.
Qed.

(** The slots below [i] in a heap of [n] slots are slots [i..n-1]. *)
Lemma same_unless_below_outside n i (h h' : list V) :
  0 <= i -> same_unless_below n i h h' -> same_outside i (n - 1) h h'.
Proof.
  intros Hi [Hlen Hout]. split; [done|]. intros k Hk. apply Hout.
  intros [Hb Hkn]. apply below_ge in Hb; lia.
Qed.
End Frames.

(** ** Whole runs *)

Section Runs.
Context {V : Type} `{JsOrd V}.
Implicit Types (s : state V) (values : list V).

(** Every run with enough fuel returns, but heap sort without bars. *)
Lemma runSort_in_len alg values fuel :
  (length values < fuel)%nat -> (alg = Heap -> values <> []) ->
  exists s', runSort fuel alg values = Ok tt s' /\
             in_len (Z.of_nat (length values)) s'.
Proof.
  intros Hfuel Hne. unfold runSort.
  destruct alg; cbn [sortBy].
  - destruct (twp_elim _ _ _ (bubbleSort_structure fuel (page values) Hfuel
                                eq_refl Logic.I)) as ([] & s' & Hrun & Hs & _).
    by exists s'.
  - destruct (twp_elim _ _ _ (selectionSort_structure fuel (page values) Hfuel
                                eq_refl Logic.I)) as ([] & s' & Hrun & Hs & _).
    by exists s'.
  - destruct (twp_elim _ _ _ (insertionSort_structure fuel (page values) Hfuel))
      as ([] & s' & Hrun & Hs).
    by exists s'.
  - destruct (twp_elim _ _ _ (quickSort_structure fuel (page values) Hfuel
                                eq_refl Logic.I))
      as ([] & s' & Hrun & mk & (Hs & _) & _).
    by exists s'.
  - destruct (twp_elim _ _ _ (mergeSort_structure fuel (page values) Hfuel))
      as ([] & s' & Hrun & Hs).
    by exists s'.
  - destruct (twp_elim _ _ _ (heapSort_structure fuel (page values) Hfuel
                                (Hne eq_refl) eq_refl Logic.I))
      as ([] & s' & Hrun & Hs & _).
    by exists s'.
  - destruct (twp_elim _ _ _ (shellSort_structure fuel (page values) Hfuel
                                eq_refl Logic.I)) as ([] & s' & Hrun & Hs & _).
    by exists s'.
Qed.

Lemma runSort_heap_empty fuel :
  (0 < fuel)%nat ->
  runSort fuel Heap (@nil V) =
  Err TypeError {| heights := []; bars := []; log := [] |}.
Proof. intros Hfuel. unfold runSort. cbn [sortBy]. by apply heapSort_empty. Qed.

Lemma runSort_cases alg values fuel :
  (length values < fuel)%nat ->
  (exists s', runSort fuel alg values = Ok tt s' /\
              in_len (Z.of_nat (length values)) s') \/
  (alg = Heap /\ values = [] /\
   runSort fuel alg values =
   Err TypeError {| heights := []; bars := []; log := [] |}).
Proof.
  intros Hfuel.
  assert (Hc : (alg = Heap /\ values = []) \/ (alg = Heap -> values <> [])).
  { destruct values; [destruct alg|]; first [by left | by right]. }
  destruct Hc as [[-> ->]|Hne].
  - right. split; [done|]. split; [done|]. by apply runSort_heap_empty.
  - left. by apply runSort_in_len.
Qed.

(** The bars marked by bubble, selection, shell and heap sort; by quick
    sort. *)
Lemma runSort_marks alg values fuel :
  (length values < fuel)%nat ->
  alg = Bubble \/ alg = Selection \/ alg = Shell \/
    (alg = Heap /\ values <> []) ->
  exists s', runSort fuel alg values = Ok tt s' /\
             marks (log s') ≡ₚ seqZ 0 (Z.of_nat (length values)) /\
             settled (log s').
Proof.
  intros Hfuel Halg. unfold runSort.
  destruct Halg as [->|[->|[->|[-> Hne]]]]; cbn [sortBy].
  - destruct (twp_elim _ _ _ (bubbleSort_structure fuel (page values) Hfuel
                                eq_refl Logic.I))
      as ([] & s' & Hrun & _ & Hm & Hset).
    exists s'. split; [done|]. split; [|done]. rewrite Hm.
    apply reverse_Permutation.
  - destruct (twp_elim _ _ _ (selectionSort_structure fuel (page values) Hfuel
                                eq_refl Logic.I))
      as ([] & s' & Hrun & _ & Hm & Hset).
    exists s'. split; [done|]. split; [|done]. rewrite Hm.
    apply reverse_Permutation.
  - destruct (twp_elim _ _ _ (shellSort_structure fuel (page values) Hfuel
                                eq_refl Logic.I))
      as ([] & s' & Hrun & _ & Hm & Hset).
    exists s'. split; [done|]. split; [|done]. rewrite Hm.
    apply reverse_Permutation.
  - destruct (twp_elim _ _ _ (heapSort_structure fuel (page values) Hfuel
                                Hne eq_refl Logic.I))
      as ([] & s' & Hrun & _ & Hm & Hset).
    exists s'. split; [done|]. split; [|done]. by rewrite Hm.
Qed.



(** The loop that resets the style of every bar. *)
Lemma reset_loop_spec fuel s :
  (length (bars s) < fuel)%nat ->
  twp (while fuel
         (fun i => n <- lengthB ;; ret (i <? n))
         (fun i => resetBarStyle i ;; ret (i + 1))
         0)
    (fun _ s' =>
       heights s' = heights s /\ bars s' = bars s /\
       log s' =
       reverse ((fun i => Bar i ResetStyle) <$>
                  seqZ 0 (Z.of_nat (length (bars s)))) ++ log s) s.
Proof.
  intros Hfuel. set (N := Z.of_nat (length (bars s))).
  apply (twp_while
           (fun i s' => 0 <= i <= N /\ heights s' = heights s /\
                        bars s' = bars s /\
                        log s' = reverse ((fun i => Bar i ResetStyle) <$>
                                            seqZ 0 i) ++ log s)
           (fun i => Z.to_nat (N - i))); cycle 1.
  { split; [lia|]. by repeat split. }
  { lia. }
  intros i s1 (Hi & Hh & Hb & Hl). repeat tstep. rewrite Hb. fold N.
  destruct (i <? N) eqn:Hc; zbool.
  - tstep. { apply in_bounds_iff. rewrite Hb. fold N. lia. }
    tstep. split; [|lia]. split; [lia|]. repeat split; try done.
    reduce_state. rewrite Hl.
    replace (i + 1) with (Z.of_nat (S (Z.to_nat i))) by lia.
    rewrite seqZ_S, fmap_app, reverse_app, Z2Nat.id by lia. simpl.
    by rewrite Z.add_0_l.
  - assert (i = N) as -> by lia. by repeat split.
Qed.

Lemma bind_Ok {A B} (m : M V A) (f : A -> M V B) s a s' :
  m s = Ok a s' -> bind m f s = f a s'.
Proof. intros Hm. unfold bind. by rewrite Hm. Qed.

(** [startSort] returns whatever it is asked to run: a name that the
    [switch] does not know runs nothing. *)
Lemma startSort_unknown name values fuel :
  algorithm_of_name name = None ->
  (length values < fuel)%nat ->
  startSort fuel name (page values) =
  Ok tt {| heights := [];
           bars := values;
           log := reverse ((fun i => Bar i ResetStyle) <$>
                             seqZ 0 (Z.of_nat (length values))) ++ [Sound] |}.
Proof.
  intros Hname Hfuel. unfold startSort. rewrite Hname.
  set (s1 := {| heights := []; bars := values; log := [Sound] |} : state V).
  pose proof (reset_loop_spec fuel s1 Hfuel) as Hloop.
  apply twp_elim in Hloop as (i & s' & Hrun & Hh & Hb & Hl).
  rewrite (bind_Ok _ _ _ tt s1) by done.
  rewrite (bind_Ok _ _ _ _ _ Hrun). unfold ret.
  destruct s' as [hh bb lg]. cbn [heights bars log] in *. by subst.
Qed.

Lemma startSort_returns name values fuel :
  (length values < fuel)%nat ->
  exists s', startSort fuel name (page values) = Ok tt s'.
Proof.
  intros Hfuel. destruct (algorithm_of_name name) as [alg|] eqn:Hname; cycle 1.
  { eexists. by apply startSort_unknown. }
  unfold startSort. rewrite Hname.
  assert (Hsort : exists s1,
    try_catch (sortBy alg fuel ;; playSound) (page values) = Ok tt s1 /\
    length (bars s1) = length values).
  { unfold try_catch, bind.
    destruct (runSort_cases alg values fuel Hfuel)
      as [(s' & Hrun & Hb & Hlen)|(-> & -> & Hrun)];
      unfold runSort in Hrun; rewrite Hrun.
    - eexists. split; [done|]. cbn [bars]. rewrite Hb. lia.
    - eexists. split; [done|]. done. }
  destruct Hsort as (s1 & Hrun & Hlen).
  assert (Hfuel1 : (length (bars s1) < fuel)%nat) by lia.
  pose proof (reset_loop_spec fuel s1 Hfuel1) as Hloop.
  apply twp_elim in Hloop as (i & s' & Hrun' & _).
  exists s'. rewrite (bind_Ok _ _ _ _ _ Hrun), (bind_Ok _ _ _ _ _ Hrun'). done.
Qed.
End Runs.

Section RunsOfHeights.
Implicit Types (s : state Z) (values : list Z).

Lemma sortBy_order alg fuel s :
  wp (sortBy alg fuel)
    (fun _ s' => heights s' ≡ₚ bars s /\
                 sorted_range (heights s') 0 (Z.of_nat (length (bars s)))) s.
Proof.
  destruct alg; cbn [sortBy].
  - apply bubbleSort_order.
  - apply selectionSort_order.
  - apply insertionSort_order.
  - apply quickSort_order.
  - apply mergeSort_order.
  - apply heapSort_order.
  - apply shellSort_order.
Qed.

Lemma sortBy_rest alg fuel s h0 :
  alg <> Heap ->
  sorted_range h0 0 (Z.of_nat (length h0)) ->
  bars s = h0 -> quiet h0 (log s) ->
  wp (sortBy alg fuel) (fun _ s' => at_rest h0 s') s.
Proof.
  intros Hne Hsorted Hb Hq. destruct alg; cbn [sortBy]; try done.
  - by apply bubbleSort_rest.
  - by apply selectionSort_rest.
  - by apply insertionSort_rest.
  - by apply quickSort_rest.
  - by apply mergeSort_rest.
  - by apply shellSort_rest.
Qed.

(** The state a run ends in holds the values of the page in order. *)
Lemma runSort_sorted alg values fuel :
  (length values < fuel)%nat ->
  Sorted Z.le (heights (final (runSort fuel alg values))) /\
  heights (final (runSort fuel alg values)) ≡ₚ values.
Proof.
  intros Hfuel.
  destruct (runSort_cases alg values fuel Hfuel)
    as [(s' & Hrun & Hb & Hlen)|(-> & -> & Hrun)]; rewrite Hrun; cbn [final].
  - pose proof (wp_elim _ _ _ _ _ (sortBy_order alg fuel (page values)) Hrun)
      as [Hp Hs].
    cbn [page bars] in Hp, Hs. split; [|done].
    apply sorted_range_Sorted. by rewrite Hlen.
  - cbn [heights]. split; [constructor|done].
Qed.
End RunsOfHeights.

(** ** What the helpers of quick, merge and heap sort establish *)

Section HelperRuns.
Context {V : Type} `{JsOrd V}.
Implicit Types (s : state V).

(** A run from a state with the same array and bars ends the same
    way. *)
Lemma log_blind_Ok {A} (m : M V A) s s0 a s0' :
  log_blind m -> same_store s s0 -> m s0 = Ok a s0' ->
  exists s', m s = Ok a s' /\ same_store s' s0'.
Proof.
  intros Hm Hs Hrun. specialize (Hm s s0 Hs). rewrite Hrun in Hm.
  destruct (m s) as [a' s'|]; [|done]. destruct Hm as [-> Hs'].
  by exists s'.
Qed.

Lemma quickSortHelper_log_blind fuel : forall low high,
  log_blind (V:=V) (quickSortHelper fuel low high).
Proof.
  induction fuel as [|fuel IH]; intros low high; simpl.
  - apply log_blind_throw.
  - destruct (low <? high); [|apply log_blind_ret].
    apply log_blind_bind; [apply partition_log_blind|]. intros pi.
    apply log_blind_bind; [apply IH|]. intros _. apply IH.
Qed.

(** [quickSortHelper] returns, with as many bars as slots. *)
Lemma quickSortHelper_returns fuel N low high s :
  in_len N s -> 0 <= low -> high < N ->
  (Z.to_nat (high - low + 1) < fuel)%nat ->
  exists s', quickSortHelper fuel low high s = Ok tt s' /\ in_len N s'.
Proof.
  intros Hs Hlow Hhigh Hfuel.
  set (s0 := {| heights := heights s; bars := bars s; log := [] |}).
  assert (Hs0 : in_step N [] s0) by (by split).
  pose proof (quickSortHelper_structure fuel N [] low high s0 Hs0 Hlow Hhigh)
    as Hp.
  apply twp_elim in Hp as ([] & s0' & Hrun & new & [Hsync _] & _);
    [|by intros k Hk%elem_of_nil|done].
  destruct (log_blind_Ok _ s s0 _ _ (quickSortHelper_log_blind fuel low high)
              (same_store_refl _) Hrun) as (s' & Hrun' & Hh & Hb).
  exists s'. split; [done|]. unfold in_len. rewrite Hh, Hb. apply Hsync.
Qed.
End HelperRuns.

Section HelperContracts.
Implicit Types (s : state Z) (h : list Z).

Lemma exchanged_same_outside lo hi h h' :
  exchanged lo hi h h' -> same_outside lo hi h h'.
Proof.
  induction 1 as [|h' i j Hex IH Hi Hj Hbi Hbj]; [apply same_outside_refl|].
  apply same_outside_zset; [|done]. by apply same_outside_zset.
Qed.

(** [partition]: the pivot ends at the index returned, after the slots
    with values up to it and before the slots with larger values. *)
Lemma partition_contract fuel N low high s :
  in_len N s -> 0 <= low <= high -> high < N ->
  (Z.to_nat (high - low) < fuel)%nat ->
  exists pi s', partition fuel low high s = Ok pi s' /\
    low <= pi <= high /\
    heights s' ≡ₚ heights s /\
    same_outside low high (heights s) (heights s') /\
    (forall k, low <= k < pi -> hget (heights s') k <= hget (heights s') pi) /\
    (forall k, pi < k <= high -> hget (heights s') pi < hget (heights s') k).
Proof.
  intros Hs Hlow Hhigh Hfuel.
  destruct (partition_frame fuel N low high s Hs Hlow Hhigh Hfuel)
    as (pi & s' & Hrun & Hpi & _ & Hout).
  destruct (wp_elim _ _ _ _ _ (partition_order fuel low high s (proj2 Hlow))
              Hrun) as (_ & Hex & Hle & Hgt).
  exists pi, s'. split; [done|]. split; [done|].
  split; [by apply (exchanged_perm low high)|]. split; [done|]. by split.
Qed.

(** [quickSortHelper] puts the slots [low..high] in order and leaves
    the others alone. *)
Lemma quickSortHelper_contract fuel N low high s :
  in_len N s -> 0 <= low -> high < N ->
  (Z.to_nat (high - low + 1) < fuel)%nat ->
  exists s', quickSortHelper fuel low high s = Ok tt s' /\
    heights s' ≡ₚ heights s /\
    same_outside low high (heights s) (heights s') /\
    sorted_range (heights s') low (high + 1).
Proof.
  intros Hs Hlow Hhigh Hfuel.
  destruct (quickSortHelper_returns fuel N low high s Hs Hlow Hhigh Hfuel)
    as (s' & Hrun & _).
  destruct (wp_elim _ _ _ _ _ (quickSortHelper_order fuel low high s) Hrun)
    as (Hex & Hsorted).
  exists s'. split; [done|]. split; [by apply (exchanged_perm low high)|].
  split; [by apply exchanged_same_outside|done].
Qed.

(** [merge]: from two runs in order, one run in order. *)
Lemma merge_contract fuel N left mid right s :
  in_len N s -> 0 <= left <= mid -> mid < right < N ->
  (Z.to_nat (right - left + 1) < fuel)%nat ->
  sorted_range (heights s) left (mid + 1) ->
  sorted_range (heights s) (mid + 1) (right + 1) ->
  exists s', merge fuel left mid right s = Ok tt s' /\
    heights s' ≡ₚ heights s /\
    same_outside left right (heights s) (heights s') /\
    sorted_range (heights s') left (right + 1).
Proof.
  intros Hs Hl Hr Hfuel HsL HsR.
  destruct (merge_frame fuel N left mid right s Hs Hl Hr Hfuel)
    as (s' & Hrun & _ & Hout).
  assert (Hlen : Z.of_nat (length (heights s)) = N) by apply Hs.
  assert (Hr' : mid < right < Z.of_nat (length (heights s))) by lia.
  pose proof (wp_elim _ _ _ _ _ (merge_order fuel left mid right s Hl Hr') Hrun)
    as Hh. cbv beta in Hh.
  set (L := slice (heights s) left (mid + 1)) in *.
  set (R := slice (heights s) (mid + 1) (right + 1)) in *.
  assert (HLR : Z.of_nat (length (merge_list L R)) = right + 1 - left).
  { rewrite merge_list_perm, length_app. subst L R.
    pose proof (length_slice (heights s) left (mid + 1)).
    pose proof (length_slice (heights s) (mid + 1) (right + 1)). lia. }
  exists s'. split; [done|]. split; [|split; [done|]].
  - rewrite Hh, merge_list_perm. subst L R. by rewrite slice_split by lia.
  - rewrite Hh. apply sorted_range_splice; try lia.
    apply merge_list_sorted; apply sorted_range_slice; try lia; done.
Qed.

(** [mergeSortHelper] puts the slots [left..right] in order and leaves
    the others alone. *)
Lemma mergeSortHelper_contract fuel N left right s :
  in_len N s -> 0 <= left -> right < N ->
  (Z.to_nat (right - left + 1) < fuel)%nat ->
  exists s', mergeSortHelper fuel left right s = Ok tt s' /\
    heights s' ≡ₚ heights s /\
    same_outside left right (heights s) (heights s') /\
    sorted_range (heights s') left (right + 1).
Proof.
  intros Hs Hl Hr Hfuel.
  destruct (twp_elim _ _ _
              (mergeSortHelper_structure fuel N left right s Hs Hl Hr Hfuel))
    as ([] & s' & Hrun & _ & _).
  assert (Hlen : Z.of_nat (length (heights s)) = N) by apply Hs.
  assert (Hr' : right < Z.of_nat (length (heights s))) by lia.
  destruct (wp_elim _ _ _ _ _ (mergeSortHelper_order fuel left right s Hl Hr')
              Hrun) as (Hp & Hout & Hsorted).
  by exists s'.
Qed.

(** [heapify] at [i]: when the nodes below [i] are heaps already, so is
    the node [i] afterwards. *)
Lemma heapify_contract fuel N n i s :
  in_len N s -> 0 <= i -> n <= N ->
  (Z.to_nat (n - i) < fuel)%nat ->
  (forall k, i < k < n -> heap_at (heights s) n k) ->
  exists s', heapify fuel n i s = Ok tt s' /\
    heights s' ≡ₚ heights s /\
    same_unless_below n i (heights s) (heights s') /\
    (forall k, i <= k < n -> heap_at (heights s') n k).
Proof.
  intros Hs Hi Hn Hfuel Hheap.
  destruct (heapify_frame fuel N n i s Hs Hi Hn Hfuel)
    as (s' & Hrun & _ & Hout).
  destruct (wp_elim _ _ _ _ _ (heapify_order fuel n i s Hi Hheap) Hrun)
    as (Hex & _ & Hheap' & _).
  exists s'. split; [done|]. split; [by apply (exchanged_perm 0 (n - 1))|].
  by split.
Qed.
End HelperContracts.

(** ** Counting comparisons *)

Section Counting.
Context {V : Type} `{JsOrd V}.
Implicit Types (s : state V) (lg : list (event V)).

Lemma compares_cons (e : event V) lg :
  compares (e :: lg) =
  (match e with Bar _ (Highlight Red Glow) => 1 | _ => 0 end + compares lg)%nat.
Proof. unfold compares. by destruct e as [i [[] []| | | |]| | |]. Qed.

Lemma compares_app lg1 lg2 :
  compares (lg1 ++ lg2) = (compares lg1 + compares lg2)%nat.
Proof.
  induction lg1 as [|e lg1 IH]; [done|].
  rewrite <- app_comm_cons, !compares_cons, IH. lia.
Qed.

Lemma compares_rev lg : compares (rev lg) = compares lg.
Proof.
  induction lg as [|e lg IH]; [done|].
  simpl rev. rewrite compares_app, !compares_cons, IH.
  change (compares (@nil (event V))) with 0%nat. lia.
Qed.

Lemma wp_conj {A} (m : M V A) (Q Q' : A -> state V -> Prop) s :
  wp m Q s -> wp m Q' s -> wp m (fun a s' => Q a s' /\ Q' a s') s.
Proof. unfold wp. by destruct (m s). Qed.

(** The closing cascade of marks compares nothing. *)
Lemma mark_cascade_compares fuel s (cond : Z -> M V bool) :
  (forall i s', exists b, cond i s' = Ok b s') ->
  wp (while fuel cond (fun i => markAsSorted i ;; delay ;; ret (i + 1)) 0)
    (fun _ s' => compares (log s') = compares (log s)) s.
Proof.
  intros Hcond.
  apply (wp_while (fun (_ : Z) s' => compares (log s') = compares (log s)));
    [|done].
  intros i s1 Hc. unfold wp at 1. destruct (Hcond i s1) as [b ->].
  destruct b; [|done]. repeat ostep. by rewrite !compares_cons.
Qed.
End Counting.

(** The count after a step: every event of the step is looked at. *)
Ltac count_step :=
  reduce_state; rewrite ?length_zset, ?compares_cons; cbv beta iota.

Section CountingRuns.
Context {V : Type} `{JsOrd V}.
Implicit Types (s : state V).

Lemma bubbleSort_compares fuel s :
  wp (bubbleSort fuel)
    (fun _ s' =>
       2 * Z.of_nat (compares (log s')) =
       2 * Z.of_nat (compares (log s)) +
       Z.of_nat (length (bars s)) * (Z.of_nat (length (bars s)) - 1)) s.
Proof.
  unfold bubbleSort. set (N := Z.of_nat (length (bars s))).
  set (C0 := Z.of_nat (compares (log s))).
  repeat ostep. eapply wp_mono.
  { apply (wp_while
             (fun i s' =>
                0 <= i <= N /\ Z.of_nat (length (heights s')) = N /\
                2 * Z.of_nat (compares (log s')) =
                2 * C0 + i * (2 * N - i - 1))
             _ _
             (fun _ s' =>
                2 * Z.of_nat (compares (log s')) = 2 * C0 + N * (N - 1))).
    - intros i s1 (Hi & Hlen & HC). repeat ostep. rewrite Hlen.
      destruct (i <? N) eqn:Hc; zbool; cycle 1.
      { assert (i = N) as -> by lia. lia. }
      repeat ostep. eapply wp_mono.
      { apply (wp_while
                 (fun j s' =>
                    0 <= j <= N - i - 1 /\
                    Z.of_nat (length (heights s')) = N /\
                    2 * Z.of_nat (compares (log s')) =
                    2 * C0 + i * (2 * N - i - 1) + 2 * j)
                 _ _
                 (fun _ s' =>
                    Z.of_nat (length (heights s')) = N /\
                    2 * Z.of_nat (compares (log s')) =
                    2 * C0 + i * (2 * N - i - 1) + 2 * (N - i - 1))).
        - intros j s2 (Hj & Hlen2 & HC2). repeat ostep. rewrite Hlen2.
          destruct (j <? N - i - 1) eqn:Hc2; zbool; cycle 1.
          { assert (j = N - i - 1) as -> by lia. by split. }
          repeat ostep.
          destruct (gtb _ _); repeat ostep; count_step;
            (split; [lia|]); (split; [done|]); lia.
        - split; [lia|]. split; [done|]. lia. }
      intros j s2 (Hlen2 & HC2). ostep. split; [lia|]. split; [done|]. lia.
    - reduce_state. fold C0. split; [lia|]. split; [done|]. lia. }
  intros i s1 HC. cbv beta. ostep. eapply wp_mono.
  { apply mark_cascade_compares. intros j s2. by eexists. }
  intros j s2 HC2. ostep. cbv beta in HC, HC2. lia.
Qed.

Lemma selectionSort_compares fuel s :
  wp (selectionSort fuel)
    (fun _ s' =>
       2 * Z.of_nat (compares (log s')) =
       2 * Z.of_nat (compares (log s)) +
       Z.of_nat (length (bars s)) * (Z.of_nat (length (bars s)) - 1)) s.
Proof.
  unfold selectionSort. set (N := Z.of_nat (length (bars s))).
  set (C0 := Z.of_nat (compares (log s))).
  repeat ostep. eapply wp_mono.
  { apply (wp_while
             (fun i s' =>
                0 <= i <= N /\ Z.of_nat (length (heights s')) = N /\
                2 * Z.of_nat (compares (log s')) =
                2 * C0 + i * (2 * N - i - 1))
             _ _
             (fun _ s' =>
                2 * Z.of_nat (compares (log s')) = 2 * C0 + N * (N - 1))).
    - intros i s1 (Hi & Hlen & HC). repeat ostep. rewrite Hlen.
      destruct (i <? N) eqn:Hc; zbool; cycle 1.
      { assert (i = N) as -> by lia. lia. }
      repeat ostep. eapply wp_mono.
      { apply (wp_while
                 (fun '(j, m) s' =>
                    i + 1 <= j <= N /\
                    Z.of_nat (length (heights s')) = N /\
                    2 * Z.of_nat (compares (log s')) =
                    2 * C0 + i * (2 * N - i - 1) + 2 * (j - i - 1))
                 _ _
                 (fun _ s' =>
                    Z.of_nat (length (heights s')) = N /\
                    2 * Z.of_nat (compares (log s')) =
                    2 * C0 + i * (2 * N - i - 1) + 2 * (N - i - 1))).
        - intros [j m] s2 (Hj & Hlen2 & HC2). repeat ostep. rewrite Hlen2.
          destruct (j <? N) eqn:Hc2; zbool; cycle 1.
          { assert (j = N) as -> by lia. by split. }
          repeat ostep.
          destruct (ltb _ _); repeat ostep; count_step;
            (split; [lia|]); (split; [done|]); lia.
        - split; [lia|]. split; [done|]. lia. }
      intros [j m] s2 (Hlen2 & HC2). reduce_state.
      ostep. destruct (negb _); repeat ostep; count_step;
        (split; [lia|]); (split; [done|]); lia.
    - reduce_state. fold C0. split; [lia|]. split; [done|]. lia. }
  intros i s1 HC. cbv beta in *. ostep. lia.
Qed.

(** [partition] compares every slot before [high] with the pivot. *)
Lemma partition_compares fuel low high s :
  low <= high ->
  wp (partition fuel low high)
    (fun pi s' =>
       low <= pi <= high /\
       Z.of_nat (compares (log s')) =
       Z.of_nat (compares (log s)) + (high - low)) s.
Proof.
  intros Hlow. unfold partition. set (C0 := Z.of_nat (compares (log s))).
  repeat ostep. eapply wp_mono.
  { apply (wp_while
             (fun '(i, j) s' =>
                low - 1 <= i < j /\ low <= j <= high /\
                Z.of_nat (compares (log s')) = C0 + (j - low))
             _ _
             (fun '(i, j) s' =>
                low - 1 <= i < high /\
                Z.of_nat (compares (log s')) = C0 + (high - low))).
    - intros [i j] s1 (Hi & Hj & HC). ostep.
      destruct (j <? high) eqn:Hc; zbool; cycle 1.
      { assert (j = high) as -> by lia. split; [lia|done]. }
      repeat ostep. destruct (leb _ _); cbv zeta.
      + destruct (negb _); repeat ostep; count_step;
          (split; [lia|]); (split; [lia|]); lia.
      + repeat ostep. count_step. split; [lia|]. split; [lia|]. lia.
    - count_step. fold C0. split; [lia|]. split; [lia|]. lia. }
  intros [i j] s1 (Hi & HC). reduce_state. repeat ostep. count_step.
  split; [lia|]. lia.
Qed.

(** On a range of [m] slots [quickSortHelper] makes at most
    [m (m - 1) / 2] comparisons. *)
Lemma quickSortHelper_compares fuel : forall low high s,
  low <= high + 1 ->
  wp (quickSortHelper fuel low high)
    (fun _ s' =>
       Z.of_nat (compares (log s)) <= Z.of_nat (compares (log s')) /\
       2 * (Z.of_nat (compares (log s')) - Z.of_nat (compares (log s))) <=
       (high - low + 1) * (high - low)) s.
Proof.
  induction fuel as [|fuel IH]; intros low high s Hlow; [done|].
  cbn [quickSortHelper]. destruct (low <? high) eqn:Hc; zbool; cycle 1.
  { ostep. split; [lia|]. nia. }
  ostep. eapply wp_mono; [apply partition_compares; lia|].
  intros pi s1 (Hpi & HC1). cbv beta. ostep.
  eapply wp_mono; [apply IH; lia|].
  intros [] s2 (Hle2 & HC2). cbv beta.
  eapply wp_mono; [apply IH; lia|].
  intros [] s3 (Hle3 & HC3). cbv beta. split; [lia|]. nia.
Qed.

Lemma quickSort_compares fuel s :
  wp (quickSort fuel)
    (fun _ s' =>
       2 * (Z.of_nat (compares (log s')) - Z.of_nat (compares (log s))) <=
       Z.of_nat (length (bars s)) * (Z.of_nat (length (bars s)) - 1)) s.
Proof.
  unfold quickSort. repeat ostep. eapply wp_mono.
  { apply quickSortHelper_compares. lia. }
  intros [] s1 (Hle & HC). cbv beta in *. reduce_state. cbn [log] in *. nia.
Qed.
End CountingRuns.

Section CountingSorted.
Implicit Types (s : state Z) (h : list Z).

(** On a range of [m] slots that are in order [quickSortHelper] makes
    exactly [m (m - 1) / 2] comparisons: every pivot is the maximum of
    its range. *)
Lemma quickSortHelper_rest_compares h0 fuel : forall low high s,
  sorted_range h0 0 (Z.of_nat (length h0)) ->
  0 <= low -> high < Z.of_nat (length h0) -> low <= high + 1 ->
  at_rest h0 s ->
  wp (quickSortHelper fuel low high)
    (fun _ s' =>
       2 * Z.of_nat (compares (log s')) =
       2 * Z.of_nat (compares (log s)) + (high - low + 1) * (high - low)) s.
Proof.
  induction fuel as [|fuel IH];
    intros low high s Hsorted Hlow Hhigh Hlh Hs; [done|].
  cbn [quickSortHelper]. destruct (low <? high) eqn:Hc; zbool; cycle 1.
  { ostep. nia. }
  ostep. eapply wp_mono.
  { apply wp_conj.
    - apply (partition_rest _ low high s h0); [done|lia|lia|done].
    - apply partition_compares. lia. }
  intros pi s1 ((-> & Hs1) & (_ & HC1)). cbv beta. ostep.
  eapply wp_mono.
  { apply wp_conj.
    - apply (quickSortHelper_rest h0 fuel low (high - 1) s1); [done|lia|lia|done].
    - apply IH; [done|lia|lia|lia|done]. }
  intros [] s2 (Hs2 & HC2). cbv beta.
  eapply wp_mono; [apply IH; [done|lia|lia|lia|done]|].
  intros [] s3 HC3. cbv beta. nia.
Qed.

Lemma quickSort_rest_compares fuel s h0 :
  sorted_range h0 0 (Z.of_nat (length h0)) ->
  bars s = h0 -> quiet h0 (log s) ->
  wp (quickSort fuel)
    (fun _ s' =>
       2 * Z.of_nat (compares (log s')) =
       2 * Z.of_nat (compares (log s)) +
       Z.of_nat (length h0) * (Z.of_nat (length h0) - 1)) s.
Proof.
  intros Hsorted Hb Hq. unfold quickSort. repeat ostep. rewrite Hb.
  eapply wp_mono.
  { apply (quickSortHelper_rest_compares h0); [done|lia|lia|lia|].
    split; [done|]. by split. }
  intros [] s1 HC. cbv beta in *. reduce_state. cbn [log] in HC. nia.
Qed.
End CountingSorted.

(** ** The controller and the console *)

Section Console.
Context {V : Type} `{JsOrd V}.
Implicit Types (s : state V) (lg : list (event V)) (el : list error).

Lemma errors_app lg1 lg2 : errors (lg1 ++ lg2) = errors lg1 ++ errors lg2.
Proof.
  induction lg1 as [|e lg1 IH]; [done|].
  destruct e as [i op| | |e]; simpl; by rewrite ?IH.
Qed.

Lemma errors_resets (l : list Z) :
  errors ((fun i => Bar (V:=V) i ResetStyle) <$> l) = [].
Proof. by induction l. Qed.

Lemma marks_resets (l : list Z) :
  marks ((fun i => Bar (V:=V) i ResetStyle) <$> l) = [].
Proof. by induction l. Qed.

Lemma rev_reverse {A} (l : list A) : rev l = reverse l.
Proof. unfold reverse. apply rev_alt. Qed.

(** The algorithms write nothing to the console. *)
Lemma silent_getBarHeights el :
  preserves (fun s => errors (log s) = el) getBarHeights.
Proof. by intros s Hs. Qed.

Lemma silent_writeH el i v :
  preserves (fun s => errors (log s) = el) (writeH i v).
Proof. intros s Hs. unfold writeH. by destruct (in_bounds _ _). Qed.

Lemma silent_onBar el i op :
  preserves (fun s => errors (log s) = el) (onBar i op).
Proof. intros s Hs. unfold onBar. by destruct (in_bounds _ _). Qed.

Lemma silent_playSound el : preserves (fun s => errors (log s) = el) playSound.
Proof. by intros s Hs. Qed.

Lemma silent_delay el : preserves (fun s => errors (log s) = el) delay.
Proof. by intros s Hs. Qed.
End Console.

Ltac silent_step :=
  cbv beta;
  lazymatch goal with
  | |- preserves _ (bind _ _) => apply preserves_bind; [|intros ?]
  | |- preserves _ (while _ _ _ _) => apply preserves_while; intros ?
  | |- preserves _ (ret _) => apply preserves_ret
  | |- preserves _ (throw _) => apply preserves_throw
  | |- preserves _ (readH _) => apply preserves_readH
  | |- preserves _ (readA _ _) => apply preserves_readA
  | |- preserves _ (sliceH _ _) => apply preserves_sliceH
  | |- preserves _ lengthH => apply preserves_lengthH
  | |- preserves _ lengthB => apply preserves_lengthB
  | |- preserves _ getBarHeights => apply silent_getBarHeights
  | |- preserves _ (writeH _ _) => apply silent_writeH
  | |- preserves _ (onBar _ _) => apply silent_onBar
  | |- preserves _ playSound => apply silent_playSound
  | |- preserves _ delay => apply silent_delay
  | |- preserves _ (highlightBar _ _ _) => apply silent_onBar
  | |- preserves _ (updateBarHeight _ _) => apply silent_onBar
  | |- preserves _ (addPulse _) => apply silent_onBar
  | |- preserves _ (resetBarStyle _) => apply silent_onBar
  | |- preserves _ (markAsSorted _) => apply silent_onBar
  | |- preserves _ (swapH _ _) => unfold swapH
  | |- preserves _ (syncBar _) => unfold syncBar
  | |- preserves _ (match ?x with _ => _ end) => destruct x
  end.

Section Controller.
Context {V : Type} `{JsOrd V}.
Implicit Types (s : state V) (values : list V) (el : list error).

Lemma quickSortHelper_silent el fuel : forall low high,
  preserves (fun s => errors (log s) = el) (quickSortHelper fuel low high).
Proof.
  induction fuel as [|fuel IH]; intros low high; simpl.
  - apply preserves_throw.
  - destruct (low <? high); [|apply preserves_ret].
    apply preserves_bind; [unfold partition; repeat silent_step|]. intros pi.
    apply preserves_bind; [apply IH|]. intros _. apply IH.
Qed.

Lemma mergeSortHelper_silent el fuel : forall left right,
  preserves (fun s => errors (log s) = el) (mergeSortHelper fuel left right).
Proof.
  induction fuel as [|fuel IH]; intros left right; simpl.
  - apply preserves_throw.
  - destruct (left <? right); [|apply preserves_ret].
    apply preserves_bind; [apply IH|]. intros _.
    apply preserves_bind; [apply IH|]. intros _.
    unfold merge. repeat silent_step.
Qed.

Lemma heapify_silent el fuel : forall n i,
  preserves (fun s => errors (log s) = el) (heapify fuel n i).
Proof.
  induction fuel as [|fuel IH]; intros n i; simpl.
  - apply preserves_throw.
  - apply preserves_bind; [repeat silent_step|]. intros l1.
    apply preserves_bind; [repeat silent_step|]. intros l2.
    destruct (negb (l2 =? i)); [|apply preserves_ret].
    repeat (apply preserves_bind; [repeat silent_step|intros ?]). apply IH.
Qed.

Lemma sortBy_silent el alg fuel :
  preserves (fun s => errors (log s) = el) (sortBy alg fuel).
Proof.
  destruct alg; cbn [sortBy].
  - unfold bubbleSort. repeat silent_step.
  - unfold selectionSort. repeat silent_step.
  - unfold insertionSort. repeat silent_step.
  - unfold quickSort. repeat first [apply quickSortHelper_silent | silent_step].
  - unfold mergeSort. repeat first [apply mergeSortHelper_silent | silent_step].
  - unfold heapSort. repeat first [apply heapify_silent | silent_step].
  - unfold shellSort. repeat silent_step.
Qed.

Lemma runSort_silent alg values fuel :
  errors (log (final (runSort fuel alg values))) = [].
Proof. by apply (sortBy_silent [] alg fuel (page values)). Qed.

(** [startSort] with a name of the [switch]: the run, then the sound of
    completion or the error on the console, then the style of every bar
    is reset. *)
Lemma startSort_known name alg values fuel :
  algorithm_of_name name = Some alg ->
  (length values < fuel)%nat ->
  startSort fuel name (page values) =
  Ok tt {| heights := heights (final (runSort fuel alg values));
           bars := bars (final (runSort fuel alg values));
           log := reverse ((fun i => Bar i ResetStyle) <$>
                             seqZ 0 (Z.of_nat (length values))) ++
                  match runSort fuel alg values with
                  | Ok _ _ => Sound
                  | Err e _ => ConsoleError e
                  end :: log (final (runSort fuel alg values)) |}.
Proof.
  intros Hname Hfuel. unfold startSort. rewrite Hname.
  assert (Hsort : exists s1,
    try_catch (sortBy alg fuel ;; playSound) (page values) = Ok tt s1 /\
    length (bars s1) = length values /\
    s1 = {| heights := heights (final (runSort fuel alg values));
            bars := bars (final (runSort fuel alg values));
            log := match runSort fuel alg values with
                   | Ok _ _ => Sound
                   | Err e _ => ConsoleError e
                   end :: log (final (runSort fuel alg values)) |}).
  { unfold try_catch, bind.
    destruct (runSort_cases alg values fuel Hfuel)
      as [(s' & Hrun & Hb & Hlen)|(-> & -> & Hrun)];
      rewrite Hrun; unfold runSort in Hrun; rewrite Hrun.
    - eexists. split; [done|]. cbn [bars final]. split; [|done].
      rewrite Hb. lia.
    - eexists. split; [done|]. by split. }
  destruct Hsort as (s1 & Hrun & Hlen & Hs1).
  assert (Hfuel1 : (length (bars s1) < fuel)%nat) by lia.
  pose proof (reset_loop_spec fuel s1 Hfuel1) as Hloop.
  apply twp_elim in Hloop as (i & s' & Hrun' & Hh & Hb & Hl).
  rewrite (bind_Ok _ _ _ _ _ Hrun), (bind_Ok _ _ _ _ _ Hrun'). unfold ret.
  rewrite Hlen in Hl.
  destruct s' as [hh bb lg]. cbn [heights bars log] in *. subst hh bb lg.
  by rewrite Hs1.
Qed.
End Controller.

(** ** The page around the sorts *)

(** *** The number of bars *)

Lemma calculateOptimalBarCount_le w : calculateOptimalBarCount w <= 54.
Proof.
  unfold calculateOptimalBarCount.
  repeat case_match; zbool; zdiv.
Qed.

Lemma calculateOptimalBarCount_wide w :
  1300 <= w -> calculateOptimalBarCount w = 54.
Proof.
  intros Hw. unfold calculateOptimalBarCount.
  repeat case_match; zbool; try lia.
  by rewrite Z.min_r by lia.
Qed.

Lemma calculateOptimalBarCount_narrow w :
  w < 110 -> calculateOptimalBarCount w < 5.
Proof.
  intros Hw. unfold calculateOptimalBarCount.
  repeat case_match; zbool; zdiv.
Qed.

(** *** Colours of a gradient *)

Lemma match_colors_from_no_hash (p rest : string) :
  has_hash p = false ->
  match_colors_from 0 (p ++ rest) = match_colors_from 0 rest.
Proof.
  induction p as [|c p IH]; [done|]. cbn [has_hash]. intros Hp.
  apply orb_false_iff in Hp as [Hc Hp]. cbn [append match_colors_from].
  rewrite Hc. cbn [andb]. by apply IH.
Qed.

Lemma match_colors_from_hit c s :
  Ascii.eqb c "#"%char = true -> hex_prefix 6 s = true ->
  match_colors_from 0 (String c s) =
  String c (substring 0 6 s) :: match_colors_from 6 s.
Proof. intros Hc Hs. cbn [match_colors_from]. by rewrite Hc, Hs. Qed.

Lemma match_colors_from_skip k c s :
  match_colors_from (S k) (String c s) = match_colors_from k s.
Proof. done. Qed.

Lemma substring_0_0 s : substring 0 0 s = EmptyString.
Proof. by destruct s. Qed.

Lemma match_colors_from_color (c rest : string) :
  is_simple_color c = true ->
  match_colors_from 0 (c ++ rest) = c :: match_colors_from 0 rest.
Proof.
  destruct c as [|h [|a1 [|a2 [|a3 [|a4 [|a5 [|a6 [|a7 t]]]]]]]];
    cbn [is_simple_color hex_prefix String.length Nat.eqb];
    rewrite ?andb_false_r; try done.
  intros Hc. repeat (apply andb_true_iff in Hc as [Hc ?]).
  cbn [append]. rewrite match_colors_from_hit; [|done|]; cycle 1.
  { cbn [hex_prefix].
    by repeat match goal with Hx : is_hex_digit _ = true |- _ =>
                rewrite Hx; clear Hx end. }
  rewrite !match_colors_from_skip. cbn [substring].
  by rewrite substring_0_0.
Qed.

Lemma savedGradientColors_customGradient (direction c1 c2 : string) :
  has_hash direction = false ->
  is_simple_color c1 = true -> is_simple_color c2 = true ->
  savedGradientColors (customGradient direction c1 c2) = Some (c1, c2).
Proof.
  intros Hd H1 H2. unfold savedGradientColors, customGradient, match_colors.
  rewrite (match_colors_from_no_hash "linear-gradient(") by done.
  rewrite (match_colors_from_no_hash direction) by done.
  rewrite (match_colors_from_no_hash ", ") by done.
  rewrite (match_colors_from_color c1) by done.
  rewrite (match_colors_from_no_hash " 0%, ") by done.
  by rewrite (match_colors_from_color c2) by done.
Qed.

(** ** No height is made up *)

Section FromInput.
Context {V : Type} `{JsOrd V}.
Implicit Types (s : state V) (h vals : list V).

Lemma elem_of_zget h i v : zget h i = Some v -> v ∈ h.
Proof.
  unfold zget. destruct (0 <=? i); [|done]. apply list_elem_of_lookup_2.
Qed.

Lemma Forall_zget (P : V -> Prop) h i v :
  zget h i = Some v -> Forall P h -> P v.
Proof. intros Hv Hh. rewrite Forall_forall in Hh. by eapply Hh, elem_of_zget. Qed.

Lemma Forall_zset (P : V -> Prop) h i v :
  Forall P h -> P v -> Forall P (zset h i v).
Proof.
  intros Hh Hv. unfold zset. destruct (0 <=? i); [|done].
  by apply Forall_insert.
Qed.

Lemma Forall_setPx (P : V -> Prop) h i v :
  Forall P h -> P v -> Forall P (setPx h i v).
Proof.
  intros Hh Hv. unfold setPx. destruct (px v); [by apply Forall_zset|done].
Qed.

Lemma Forall_slice (P : V -> Prop) h a b : Forall P h -> Forall P (slice h a b).
Proof. intros Hh. unfold slice. by apply Forall_take, Forall_drop. Qed.
End FromInput.

(** The heights met on the way are heights of [vals]. *)
Ltac from_solve :=
  lazymatch goal with
  | |- _ /\ _ => split; from_solve
  | |- True => exact Logic.I
  | |- Forall _ (zset _ _ _) => apply Forall_zset; from_solve
  | |- Forall _ (setPx _ _ _) => apply Forall_setPx; from_solve
  | |- Forall _ (slice _ _ _) => apply Forall_slice; from_solve
  | |- Forall _ (_ :: _) =>
      apply Forall_cons; split; [cbn [update_from]; from_solve|from_solve]
  | |- Forall _ _ => assumption
  | |- _ ∈ _ =>
      first
        [ assumption
        | match goal with
          | Hv : zget ?h _ = Some ?v |- ?v ∈ ?l =>
              apply (Forall_zget (fun x => x ∈ l) h _ v Hv); from_solve
          end ]
  end.

Ltac from_done :=
  cbv beta iota; unfold from_input; reduce_state; subst; from_solve.

Ltac from_open :=
  cbv beta in *;
  repeat match goal with
  | Hs : from_input _ _ |- _ => destruct Hs as (? & ? & ?)
  end;
  cbn [heights bars log] in *.

Ltac from_step vals :=
  first
    [ progress ostep
    | lazymatch goal with
      | |- wp (while _ _ _ _) _ _ =>
          eapply wp_mono;
          [ apply (wp_while (fun _ s' => from_input vals s') _ _
                     (fun _ s' => from_input vals s'));
            [intros ? ? ?; from_open|from_done]
          | intros ? ? ?; from_open ]
      | |- wp (if ?c then _ else _) _ _ => destruct c
      | |- wp (match ?x with _ => _ end) _ _ => destruct x
      | |- if ?c then _ else _ => destruct c
      end ].

Section FromInputRuns.
Context {V : Type} `{JsOrd V}.
Implicit Types (s : state V) (vals : list V).

Lemma getBarHeights_from vals s :
  from_input vals s ->
  from_input vals {| heights := bars s; bars := bars s; log := log s |}.
Proof. intros (Hh & Hb & Hl). by repeat split. Qed.

Lemma bubbleSort_from vals fuel s :
  from_input vals s -> wp (bubbleSort fuel) (fun _ s' => from_input vals s') s.
Proof.
  intros Hs. apply getBarHeights_from in Hs. unfold bubbleSort. from_open.
  repeat from_step vals; from_done.
Qed.

Lemma selectionSort_from vals fuel s :
  from_input vals s -> wp (selectionSort fuel) (fun _ s' => from_input vals s') s.
Proof.
  intros Hs. apply getBarHeights_from in Hs. unfold selectionSort. from_open.
  repeat from_step vals; from_done.
Qed.

Lemma insertionSort_from vals fuel s :
  from_input vals s -> wp (insertionSort fuel) (fun _ s' => from_input vals s') s.
Proof.
  intros Hs. apply getBarHeights_from in Hs. unfold insertionSort. from_open.
  repeat from_step vals; from_done.
Qed.

Lemma shellSort_from vals fuel s :
  from_input vals s -> wp (shellSort fuel) (fun _ s' => from_input vals s') s.
Proof.
  intros Hs. apply getBarHeights_from in Hs. unfold shellSort. from_open.
  repeat from_step vals; from_done.
Qed.

Lemma partition_from vals fuel low high s :
  from_input vals s ->
  wp (partition fuel low high) (fun _ s' => from_input vals s') s.
Proof.
  intros Hs. unfold partition. from_open.
  repeat from_step vals; from_done.
Qed.

Lemma quickSortHelper_from vals fuel : forall low high s,
  from_input vals s ->
  wp (quickSortHelper fuel low high) (fun _ s' => from_input vals s') s.
Proof.
  induction fuel as [|fuel IH]; intros low high s Hs; [done|].
  cbn [quickSortHelper]. destruct (low <? high); [|done].
  apply wp_bind. eapply wp_mono; [by apply partition_from|].
  intros pi s1 Hs1. apply wp_bind. eapply wp_mono; [by apply IH|].
  intros [] s2 Hs2. by apply IH.
Qed.

Lemma quickSort_from vals fuel s :
  from_input vals s -> wp (quickSort fuel) (fun _ s' => from_input vals s') s.
Proof.
  intros Hs. apply getBarHeights_from in Hs. unfold quickSort.
  repeat ostep. by apply quickSortHelper_from.
Qed.

Lemma merge_from vals fuel left mid right s :
  from_input vals s ->
  wp (merge fuel left mid right) (fun _ s' => from_input vals s') s.
Proof.
  intros Hs. unfold merge. from_open.
  repeat from_step vals; from_done.
Qed.

Lemma mergeSortHelper_from vals fuel : forall left right s,
  from_input vals s ->
  wp (mergeSortHelper fuel left right) (fun _ s' => from_input vals s') s.
Proof.
  induction fuel as [|fuel IH]; intros left right s Hs; [done|].
  cbn [mergeSortHelper]. destruct (left <? right); [|done]. cbv zeta.
  apply wp_bind. eapply wp_mono; [by apply IH|].
  intros [] s1 Hs1. apply wp_bind. eapply wp_mono; [by apply IH|].
  intros [] s2 Hs2. by apply merge_from.
Qed.

Lemma mergeSort_from vals fuel s :
  from_input vals s -> wp (mergeSort fuel) (fun _ s' => from_input vals s') s.
Proof.
  intros Hs. apply getBarHeights_from in Hs. unfold mergeSort.
  repeat ostep. by apply mergeSortHelper_from.
Qed.

Lemma heapify_from vals fuel : forall n i s,
  from_input vals s ->
  wp (heapify fuel n i) (fun _ s' => from_input vals s') s.
Proof.
  induction fuel as [|fuel IH]; intros n i s Hs; [done|].
  cbn [heapify]. from_open.
  repeat from_step vals; try from_done.
  all: apply IH; from_done.
Qed.

Lemma heapSort_from vals fuel s :
  from_input vals s -> wp (heapSort fuel) (fun _ s' => from_input vals s') s.
Proof.
  intros Hs. apply getBarHeights_from in Hs. unfold heapSort. from_open.
  repeat first
    [ from_step vals
    | lazymatch goal with
      | |- wp (heapify _ _ _) _ _ =>
          eapply wp_mono;
          [apply (heapify_from vals); from_done|intros ? ? ?; from_open]
      end ];
    from_done.
Qed.

Lemma sortBy_from vals alg fuel s :
  from_input vals s -> wp (sortBy alg fuel) (fun _ s' => from_input vals s') s.
Proof.
  intros Hs. destruct alg; cbn [sortBy].
  - by apply bubbleSort_from.
  - by apply selectionSort_from.
  - by apply insertionSort_from.
  - by apply quickSort_from.
  - by apply mergeSort_from.
  - by apply heapSort_from.
  - by apply shellSort_from.
Qed.
End FromInputRuns.

(** ** The trace and the array never diverge *)

Section ShownFacts.
Context {V : Type} `{JsOrd V}.
Implicit Types (s : state V) (b : list V) (lg : list (event V)).

Lemma pauses_ok_split b lg :
  pauses_ok b lg ->
  forall l1 h l2, lg = l1 ++ Wait h :: l2 -> replay_log l2 b = h.
Proof.
  induction lg as [|e lg IH]; intros Hp l1 h l2 Heq.
  { by destruct l1. }
  destruct l1 as [|e1 l1]; simpl in Heq; injection Heq as -> Heq.
  - subst lg. simpl in Hp. tauto.
  - apply (IH (ltac:(destruct e1 as [i op| |h'|e1]; simpl in Hp; tauto))
              l1 h l2 Heq).
Qed.

(** In a trace: the updates before a pause give the array of the
    pause. *)
Lemma pauses_ok_trace b lg :
  pauses_ok b lg ->
  forall t1 h t2, rev lg = t1 ++ Wait h :: t2 -> replay t1 b = h.
Proof.
  intros Hp t1 h t2 Heq.
  assert (Hlg : lg = rev t2 ++ Wait h :: rev t1).
  { rewrite <- (rev_involutive lg), Heq, rev_app_distr. simpl.
    by rewrite <- app_assoc. }
  rewrite <- (rev_involutive t1), replay_rev.
  by apply (pauses_ok_split b lg Hp (rev t2) h (rev t1)).
Qed.

(** Statements that leave the array alone. *)
Lemma show_onBar b i op :
  (forall v, op <> SetHeight v) -> preserves (on_show b) (onBar i op).
Proof.
  intros Hop s (Hr & Hp & Hlen & Hb). unfold onBar.
  destruct (in_bounds _ _); [|done].
  destruct op as [c e|v| | |]; [|by destruct (Hop v)| | |]; by repeat split.
Qed.

Lemma show_playSound b : preserves (on_show b) playSound.
Proof. by intros s Hs. Qed.

Lemma show_delay b : preserves (on_show b) delay.
Proof. intros s (Hr & Hp & Hlen & Hb). by repeat split. Qed.

(** An assignment to a slot with the update of its bar. *)
Lemma show_write b i v s :
  on_show b s -> in_bounds (heights s) i = true ->
  on_show b {| heights := zset (heights s) i v; bars := setPx (bars s) i v;
               log := Bar i (SetHeight v) :: log s |}.
Proof.
  intros (Hr & Hp & Hlen & Hb) Hi. split; [|split; [|split]].
  - simpl. by rewrite Hr.
  - done.
  - simpl. by rewrite length_setPx, length_zset.
  - intros Hpx. simpl. by rewrite setPx_valid, (Hb Hpx) by apply Hpx.
Qed.

Lemma bars_in_bounds b s i :
  on_show b s -> in_bounds (heights s) i = true -> in_bounds (bars s) i = true.
Proof.
  intros (_ & _ & Hlen & _) Hi. apply in_bounds_iff.
  apply in_bounds_iff in Hi. lia.
Qed.

Lemma show_write_sync {A} b i v (k : M V A) :
  preserves (on_show b) k ->
  preserves (on_show b) (writeH i v ;; syncBar i ;; k).
Proof.
  intros Hk s Hs. unfold bind at 1. unfold writeH.
  destruct (in_bounds (heights s) i) eqn:Hi; [|done].
  unfold bind at 1. unfold syncBar, bind at 1, readH. cbn [heights].
  rewrite zget_zset_eq by done. unfold updateBarHeight, onBar. cbn [bars].
  rewrite (bars_in_bounds b s i Hs Hi). cbn [heights bars log].
  apply Hk. by apply show_write.
Qed.

Lemma show_write_update {A} b i v (k : M V A) :
  preserves (on_show b) k ->
  preserves (on_show b) (writeH i v ;; updateBarHeight i v ;; k).
Proof.
  intros Hk s Hs. unfold bind at 1. unfold writeH.
  destruct (in_bounds (heights s) i) eqn:Hi; [|done].
  unfold bind at 1. unfold updateBarHeight, onBar. cbn [bars].
  rewrite (bars_in_bounds b s i Hs Hi). cbn [heights bars log].
  apply Hk. by apply show_write.
Qed.

(** An exchange of two slots with the updates of their bars. *)
Lemma show_swap_sync {A} b i j (k : M V A) :
  preserves (on_show b) k ->
  preserves (on_show b) (swapH i j ;; syncBar i ;; syncBar j ;; k).
Proof.
  intros Hk s Hs.
  unfold swapH, syncBar, updateBarHeight, bind, readH, writeH, onBar.
  destruct (zget (heights s) j) as [a|] eqn:Hj; [|done].
  destruct (zget (heights s) i) as [c|] eqn:Hi; [|done].
  pose proof (zget_in_bounds _ _ _ Hi) as Hbi.
  pose proof (zget_in_bounds _ _ _ Hj) as Hbj.
  pose proof (bars_in_bounds b s i Hs Hbi) as Hci.
  pose proof (bars_in_bounds b s j Hs Hbj) as Hcj.
  rewrite Hbi. cbv beta iota. cbn [heights bars log].
  rewrite in_bounds_zset, Hbj. cbv beta iota. cbn [heights bars log].
  rewrite (zget_exchange_l _ i j a c Hj Hi). cbv beta iota.
  cbn [heights bars log]. rewrite Hci. cbv beta iota. cbn [heights bars log].
  rewrite (zget_exchange_r _ i j a c Hj Hi). cbv beta iota.
  cbn [heights bars log]. rewrite in_bounds_setPx, Hcj. cbv beta iota.
  apply Hk.
  apply (show_write b j c
           {| heights := zset (heights s) i a; bars := setPx (bars s) i a;
              log := Bar i (SetHeight a) :: log s |}).
  - by apply show_write.
  - cbn [heights]. by rewrite in_bounds_zset.
Qed.

(** The array is read off the bars first. *)
Lemma show_getBarHeights {A} b (k : M V A) s :
  preserves (on_show b) k ->
  replay_log (log s) b = bars s -> pauses_ok b (log s) ->
  on_show b (final ((getBarHeights ;; k) s)).
Proof. intros Hk Hr Hp. apply Hk. by repeat split. Qed.
End ShownFacts.

(** Decomposition of a body into its statements. *)
Ltac show_step :=
  cbv beta;
  lazymatch goal with
  | |- preserves _ (bind (swapH _ _)
                      (fun _ => bind (syncBar _) (fun _ => bind (syncBar _) _))) =>
      apply show_swap_sync
  | |- preserves _ (bind (writeH _ _) (fun _ => bind (syncBar _) _)) =>
      apply show_write_sync
  | |- preserves _ (bind (writeH _ _) (fun _ => bind (updateBarHeight _ _) _)) =>
      apply show_write_update
  | |- preserves _ (bind _ _) => apply preserves_bind; [|intros ?]
  | |- preserves _ (while _ _ _ _) => apply preserves_while; intros ?
  | |- preserves _ (ret _) => apply preserves_ret
  | |- preserves _ (throw _) => apply preserves_throw
  | |- preserves _ (readH _) => apply preserves_readH
  | |- preserves _ (readA _ _) => apply preserves_readA
  | |- preserves _ (sliceH _ _) => apply preserves_sliceH
  | |- preserves _ lengthH => apply preserves_lengthH
  | |- preserves _ lengthB => apply preserves_lengthB
  | |- preserves _ playSound => apply show_playSound
  | |- preserves _ delay => apply show_delay
  | |- preserves _ (highlightBar _ _ _) => by apply show_onBar
  | |- preserves _ (addPulse _) => by apply show_onBar
  | |- preserves _ (resetBarStyle _) => by apply show_onBar
  | |- preserves _ (markAsSorted _) => by apply show_onBar
  | |- preserves _ (match ?x with _ => _ end) => destruct x
  end.

Section ShownRuns.
Context {V : Type} `{JsOrd V}.
Implicit Types (s : state V) (b : list V).

Lemma partition_show b fuel low high :
  preserves (on_show b) (partition fuel low high).
Proof. unfold partition. repeat show_step. Qed.

Lemma quickSortHelper_show b fuel : forall low high,
  preserves (on_show b) (quickSortHelper fuel low high).
Proof.
  induction fuel as [|fuel IH]; intros low high; simpl.
  - apply preserves_throw.
  - destruct (low <? high); [|apply preserves_ret].
    apply preserves_bind; [apply partition_show|]. intros pi.
    apply preserves_bind; [apply IH|]. intros _. apply IH.
Qed.

Lemma merge_show b fuel left mid right :
  preserves (on_show b) (merge fuel left mid right).
Proof. unfold merge. repeat show_step. Qed.

Lemma mergeSortHelper_show b fuel : forall left right,
  preserves (on_show b) (mergeSortHelper fuel left right).
Proof.
  induction fuel as [|fuel IH]; intros left right; simpl.
  - apply preserves_throw.
  - destruct (left <? right); [|apply preserves_ret].
    apply preserves_bind; [apply IH|]. intros _.
    apply preserves_bind; [apply IH|]. intros _. apply merge_show.
Qed.

Lemma heapify_show b fuel : forall n i,
  preserves (on_show b) (heapify fuel n i).
Proof.
  induction fuel as [|fuel IH]; intros n i; simpl.
  - apply preserves_throw.
  - apply preserves_bind; [repeat show_step|]. intros l1.
    apply preserves_bind; [repeat show_step|]. intros l2.
    destruct (negb (l2 =? i)); [|apply preserves_ret].
    repeat first [apply IH | show_step].
Qed.

(** However a run ends, and wherever it is cut off for lack of fuel, the
    state it ends in is on show. *)
Lemma sortBy_show b alg fuel s :
  replay_log (log s) b = bars s -> pauses_ok b (log s) ->
  on_show b (final (sortBy alg fuel s)).
Proof.
  intros Hr Hp. destruct alg; cbn [sortBy].
  - unfold bubbleSort. apply show_getBarHeights; [|done|done].
    repeat show_step.
  - unfold selectionSort. apply show_getBarHeights; [|done|done].
    repeat show_step.
  - unfold insertionSort. apply show_getBarHeights; [|done|done].
    repeat show_step.
  - unfold quickSort. apply show_getBarHeights; [|done|done].
    repeat first [apply quickSortHelper_show | show_step].
  - unfold mergeSort. apply show_getBarHeights; [|done|done].
    repeat first [apply mergeSortHelper_show | show_step].
  - unfold heapSort. apply show_getBarHeights; [|done|done].
    repeat first [apply heapify_show | show_step].
  - unfold shellSort. apply show_getBarHeights; [|done|done].
    repeat show_step.
Qed.

Lemma runSort_show alg (values : list V) fuel :
  on_show values (final (runSort fuel alg values)).
Proof. by apply sortBy_show. Qed.
End ShownRuns.

(** ** The marks of insertion sort and of merge sort *)

Section MarkFacts.
Context {V : Type} `{JsOrd V}.
Implicit Types (s : state V) (values : list V) (lg : list (event V)).













End MarkFacts.


Section MarkRuns.
Context {V : Type} `{JsOrd V}.
Implicit Types (s : state V) (values : list V).













End MarkRuns.

(** ** The properties of the specification *)

(** *** Sorting *)

(** C1: for every array of finite heights, of any length, and each of
    the seven algorithms, a run whose fuel exceeds the length ends with
    the heights in non-decreasing order, and they are a permutation of
    the heights the page showed.  ([final] is the state the run ends in;
    how it ends is the subject of [every_run_ends].) *)
Theorem sorts_and_permutes (alg : algorithm) (values : list Z) (fuel : nat) :
  (length values < fuel)%nat ->
  Sorted Z.le (heights (final (runSort fuel alg values))) /\
  heights (final (runSort fuel alg values)) ≡ₚ values.
Proof. apply runSort_sorted. Qed.

Lemma sorts_and_permutes_witness :
  Sorted Z.le (heights (final (runSort 6 Quick [9; 7; 5; 3; 1]))) /\
  heights (final (runSort 6 Quick [9; 7; 5; 3; 1])) ≡ₚ [9; 7; 5; 3; 1].
Proof. apply (sorts_and_permutes Quick [9; 7; 5; 3; 1] 6). simpl. lia. Defined.

(** *** The trace and the array *)

(** C2: for each algorithm and every array, replaying the height updates
    of the trace on the heights the page showed gives the array of the
    algorithm: at the end of the run, wherever a run is cut off (the
    statement holds for every fuel, and a run that lacks fuel stops at
    the head of a loop or at the call of a helper), and at every pause.
    For every pause [Wait h] of the trace, where [h] is the array the
    algorithm holds while it is suspended, the updates emitted before
    the pause, replayed on the heights of the start, give [h].  When the
    style of a bar takes every height, the bars show the array as
    well. *)
Theorem replay_gives_final_heights {V : Type} `{JsOrd V}
    (alg : algorithm) (values : list V) (fuel : nat) :
  replay (trace (final (runSort fuel alg values))) values =
    heights (final (runSort fuel alg values)) /\
  (forall t1 h t2,
     trace (final (runSort fuel alg values)) = t1 ++ Wait h :: t2 ->
     replay t1 values = h) /\
  ((forall v : V, px v = true) ->
   bars (final (runSort fuel alg values)) =
     heights (final (runSort fuel alg values))).
Proof.
  destruct (runSort_show alg values fuel) as (Hr & Hp & _ & Hb).
  unfold trace. split; [|split; [|done]].
  - by rewrite replay_rev.
  - by apply pauses_ok_trace.
Qed.

Lemma replay_gives_final_heights_witness :
  replay (trace (final (runSort 4 Merge [3; 1; 2]))) [3; 1; 2] =
    heights (final (runSort 4 Merge [3; 1; 2])) /\
  (forall t1 h t2,
     trace (final (runSort 4 Merge [3; 1; 2])) = t1 ++ Wait h :: t2 ->
     replay t1 [3; 1; 2] = h) /\
  ((forall v : Z, px v = true) ->
   bars (final (runSort 4 Merge [3; 1; 2])) =
     heights (final (runSort 4 Merge [3; 1; 2]))).
Proof. apply (replay_gives_final_heights Merge [3; 1; 2] 4). Defined.

(** *** Marks *)




(** *** Input that is not finite *)

(** C4 (as the code has it): nothing checks the values of the bars.
    For every array of JavaScript numbers, finite or not, [startSort]
    returns normally whatever the name, and every algorithm runs to its
    end on an array and a list of bars of the length of the start (heap
    sort needs a bar, see [out_of_range_only_without_bars]). *)
Theorem no_input_is_rejected (values : list jsnum) (fuel : nat) :
  (length values < fuel)%nat ->
  (forall name, exists s', startSort fuel name (page values) = Ok tt s') /\
  (forall alg, (alg = Heap -> values <> []) ->
     exists s', runSort fuel alg values = Ok tt s' /\
                length (heights s') = length values /\
                length (bars s') = length values).
Proof.
  intros Hfuel. split.
  - intros name. by apply startSort_returns.
  - intros alg Hne.
    destruct (runSort_in_len alg values fuel Hfuel Hne)
      as (s' & Hrun & Hb & Hlen).
    exists s'. split; [done|]. split; lia.
Qed.

Lemma no_input_is_rejected_witness :
  (exists s', startSort 4 "heap"%string (page [Fin 3; PosInf; NaN]) = Ok tt s') /\
  (exists s', runSort 4 Heap [Fin 3; PosInf; NaN] = Ok tt s' /\
              length (heights s') = length [Fin 3; PosInf; NaN] /\
              length (bars s') = length [Fin 3; PosInf; NaN]).
Proof.
  assert (Hfuel : (length [Fin 3; PosInf; NaN] < 4)%nat) by (simpl; lia).
  destruct (no_input_is_rejected [Fin 3; PosInf; NaN] 4 Hfuel) as [Hstart Hrun].
  split; [apply Hstart|]. apply Hrun. intros _. discriminate.
Defined.

(** C4 (counterexample): with the bars [3, 1, NaN], [startSort] runs
    bubble sort to its end: nothing is written to the console, the first
    two bars are exchanged and all three bars are marked as sorted.
    Merge sort on the bars [NaN, 1] ends with the array [1, NaN], which
    is not in order, and with the bars [1, 1]: the second bar did not
    take the height NaN. *)
Lemma non_finite_input_counterexample :
  match startSort 4 "bubble"%string (page [Fin 3; Fin 1; NaN]) with
  | Ok _ s' =>
      bars s' = [Fin 1; Fin 3; NaN] /\
      errors (trace s') = [] /\
      marks (trace s') = [0; 1; 2]
  | Err _ _ => False
  end /\
  runSort 3 Merge [NaN; Fin 1] =
  Ok tt {| heights := [Fin 1; NaN];
           bars := [Fin 1; Fin 1];
           log := log (final (runSort 3 Merge [NaN; Fin 1])) |}.
Proof. vm_compute. by repeat split. Qed.

(** *** Names of algorithms *)

(** C5 (as the code has it): the [switch] of [startSort] has no default
    case.  A name that is none of the seven runs no algorithm:
    [startSort] plays the completion sound, resets the style of every
    bar and returns normally; the array and the bars are untouched and
    nothing is written to the console. *)
Theorem unknown_name_runs_nothing {V : Type} `{JsOrd V}
    (name : string) (values : list V) (fuel : nat) :
  algorithm_of_name name = None ->
  (length values < fuel)%nat ->
  startSort fuel name (page values) =
  Ok tt {| heights := [];
           bars := values;
           log := reverse ((fun i => Bar i ResetStyle) <$>
                             seqZ 0 (Z.of_nat (length values))) ++ [Sound] |}.
Proof. apply startSort_unknown. Qed.

Lemma unknown_name_runs_nothing_witness :
  startSort 3 "bogo"%string (page [3; 1]) =
  Ok tt {| heights := [];
           bars := [3; 1];
           log := reverse ((fun i => Bar i ResetStyle) <$>
                             seqZ 0 (Z.of_nat (length [3; 1]))) ++ [Sound] |}.
Proof.
  apply (unknown_name_runs_nothing "bogo"%string [3; 1] 3).
  - reflexivity.
  - simpl. lia.
Defined.

(** C5 (counterexample): asked for the algorithm "bogus" on the bars
    [3, 1], [startSort] returns normally with the log of a sound and two
    style resets. *)
Lemma unknown_name_counterexample :
  startSort 3 "bogus"%string (page [3; 1]) =
  Ok tt {| heights := [];
           bars := [3; 1];
           log := [Bar 1 ResetStyle; Bar 0 ResetStyle; Sound] |}.
Proof. vm_compute. reflexivity. Qed.

(** *** Accesses out of range *)

(** C6: a run reads out of range exactly when heap sort is run without
    bars: its last statement is [markAsSorted(bars[0])], and [bars[0]]
    is [undefined] then.  Every other run ends normally. *)
Theorem out_of_range_only_without_bars
    (alg : algorithm) (values : list Z) (fuel : nat) :
  (length values < fuel)%nat ->
  match runSort fuel alg values with
  | Ok _ _ => alg <> Heap \/ values <> []
  | Err e _ => e = TypeError /\ alg = Heap /\ values = []
  end.
Proof.
  intros Hfuel.
  assert (Hc : (alg = Heap /\ values = []) \/ (alg = Heap -> values <> [])).
  { destruct values; [destruct alg|]; first [by left | by right]. }
  destruct Hc as [[-> ->]|Hne].
  - by rewrite runSort_heap_empty.
  - destruct (runSort_in_len alg values fuel Hfuel Hne) as (s' & -> & _).
    destruct values; [|by right]. left. intros ->. by apply Hne.
Qed.

Lemma out_of_range_only_without_bars_witness :
  match runSort 1 Heap (@nil Z) with
  | Ok _ _ => Heap <> Heap \/ @nil Z <> []
  | Err e _ => e = TypeError /\ Heap = Heap /\ @nil Z = []
  end.
Proof. apply (out_of_range_only_without_bars Heap [] 1). simpl. lia. Defined.

(** *** Arrays that are already in order *)

(** C7 (as the code has it): every algorithm ends with an array that was
    in order unchanged.  All but heap sort never give a bar another
    height than the one it has: every height update of the trace writes
    to a bar the value the array has there.  Bubble, selection and shell
    sort, and heap sort on an array that is not empty, emit [N] marks,
    one for each index. *)
Theorem sorted_input_stays (alg : algorithm) (values : list Z) (fuel : nat) :
  Sorted Z.le values ->
  (length values < fuel)%nat ->
  heights (final (runSort fuel alg values)) = values /\
  (alg <> Heap -> quiet values (trace (final (runSort fuel alg values)))) /\
  (alg = Bubble \/ alg = Selection \/ alg = Shell \/
     (alg = Heap /\ values <> []) ->
   marks (trace (final (runSort fuel alg values))) ≡ₚ
     seqZ 0 (Z.of_nat (length values))).
Proof.
  intros Hsorted Hfuel. split; [|split].
  - destruct (runSort_sorted alg values fuel Hfuel) as [Hs Hp].
    by apply (Sorted_unique Z.le).
  - intros Hne.
    destruct (runSort_in_len alg values fuel Hfuel) as (s' & Hrun & _).
    { by intros ->. }
    rewrite Hrun. cbn [final].
    assert (Hrest : at_rest values s').
    { apply (wp_elim _ _ _ _ _ (sortBy_rest alg fuel (page values) values Hne
               (Sorted_sorted_range _ Hsorted) eq_refl (Forall_nil_2 _)) Hrun). }
    destruct Hrest as (_ & _ & Hq). unfold trace, quiet. by apply Forall_rev.
  - intros Halg.
    destruct (runSort_marks alg values fuel Hfuel Halg) as (s' & Hrun & Hm & _).
    rewrite Hrun. cbn [final]. unfold trace.
    by rewrite marks_rev, reverse_Permutation.
Qed.

Lemma sorted_input_stays_witness :
  heights (final (runSort 4 Shell [1; 2; 3])) = [1; 2; 3] /\
  quiet [1; 2; 3] (trace (final (runSort 4 Shell [1; 2; 3]))) /\
  marks (trace (final (runSort 4 Shell [1; 2; 3]))) ≡ₚ
    seqZ 0 (Z.of_nat (length [1; 2; 3])).
Proof.
  assert (Hsorted : Sorted Z.le [1; 2; 3]) by (repeat constructor; lia).
  assert (Hfuel : (length [1; 2; 3] < 4)%nat) by (simpl; lia).
  destruct (sorted_input_stays Shell [1; 2; 3] 4 Hsorted Hfuel)
    as (Hh & Hq & Hm).
  split; [exact Hh|]. split; [apply Hq; discriminate|].
  apply Hm. right. right. by left.
Defined.

(** C7 (counterexample): heap sort on [1, 2, 3] starts by exchanging the
    first and the last value, so that bar 0 gets the height 3; insertion
    sort on [1, 2, 3] marks two indices, not three. *)
Lemma sorted_input_counterexample :
  trace (final (runSort 4 Heap [1; 2; 3])) !! 4%nat =
    Some (Bar 0 (SetHeight 3)) /\
  marks (trace (final (runSort 4 Insertion [1; 2; 3]))) = [1; 2].
Proof. vm_compute. by split. Qed.

(** *** Quick sort at its worst *)

(** C8: quick sort on [9, 7, 5, 3, 1] highlights a bar for comparison
    with the pivot ten times, that is N(N-1)/2 times for N = 5. *)
Theorem quick_sort_worst_case :
  compares (trace (final (runSort 6 Quick [9; 7; 5; 3; 1]))) =
  (5 * (5 - 1) / 2)%nat.
Proof. vm_compute. reflexivity. Qed.

(** *** Termination *)

(** C9: with fuel beyond the length of the array no run stops for lack
    of fuel, whatever the values: the loops and the recursions of the
    seven algorithms come to an end.  The run returns; only heap sort
    without bars ends with the exception of
    [out_of_range_only_without_bars]. *)
Theorem every_run_ends {V : Type} `{JsOrd V}
    (alg : algorithm) (values : list V) (fuel : nat) :
  (length values < fuel)%nat ->
  (exists s', runSort fuel alg values = Ok tt s') \/
  (alg = Heap /\ values = [] /\
   exists s', runSort fuel alg values = Err TypeError s').
Proof.
  intros Hfuel.
  destruct (runSort_cases alg values fuel Hfuel)
    as [(s' & Hrun & _)|(-> & -> & Hrun)].
  - left. by exists s'.
  - right. split; [done|]. split; [done|]. by eexists.
Qed.

Lemma every_run_ends_witness :
  (exists s', runSort 9 Shell [4; 8; 1; 7; 3; 6; 2; 5] = Ok tt s') \/
  (Shell = Heap /\ [4; 8; 1; 7; 3; 6; 2; 5] = [] /\
   exists s', runSort 9 Shell [4; 8; 1; 7; 3; 6; 2; 5] = Err TypeError s').
Proof.
  apply (every_run_ends Shell [4; 8; 1; 7; 3; 6; 2; 5] 9). simpl. lia.
Defined.

(** *** Frames of the helpers *)

(** C10: in a state where the bars show the array of [N] heights, a call
    of [partition] on [low..high], of [merge] on [left..right] and of
    [heapify] on the heap of [n] slots returns and leaves every slot
    outside [low..high], outside [left..right] and outside [0..n-1]
    as it was ([heapify] at [i] even every slot that is not below [i]
    in the heap). *)
Theorem helpers_keep_to_their_range {V : Type} `{JsOrd V}
    (fuel : nat) (N : Z) (s : state V) :
  in_sync N s ->
  (forall low high,
     0 <= low <= high -> high < N -> (Z.to_nat (high - low) < fuel)%nat ->
     exists pi s', partition fuel low high s = Ok pi s' /\
       same_outside low high (heights s) (heights s')) /\
  (forall left mid right,
     0 <= left <= mid -> mid < right < N ->
     (Z.to_nat (right - left + 1) < fuel)%nat ->
     exists s', merge fuel left mid right s = Ok tt s' /\
       same_outside left right (heights s) (heights s')) /\
  (forall n i,
     0 <= i -> n <= N -> (Z.to_nat (n - i) < fuel)%nat ->
     exists s', heapify fuel n i s = Ok tt s' /\
       same_outside 0 (n - 1) (heights s) (heights s') /\
       same_unless_below n i (heights s) (heights s')).
Proof.
  intros Hs%in_sync_len. split; [|split].
  - intros low high Hlow Hhigh Hfuel.
    destruct (partition_frame fuel N low high s Hs Hlow Hhigh Hfuel)
      as (pi & s' & Hrun & _ & _ & Hout).
    by exists pi, s'.
  - intros left mid right Hl Hr Hfuel.
    destruct (merge_frame fuel N left mid right s Hs Hl Hr Hfuel)
      as (s' & Hrun & _ & Hout).
    by exists s'.
  - intros n i Hi Hn Hfuel.
    destruct (heapify_frame fuel N n i s Hs Hi Hn Hfuel)
      as (s' & Hrun & _ & Hout).
    exists s'. split; [done|]. split; [|done].
    apply (same_outside_weaken i (n - 1)); [|lia|lia].
    by apply same_unless_below_outside.
Qed.

Lemma helpers_keep_to_their_range_witness :
  (exists pi s',
     partition 3 1 3 (final (getBarHeights (page [4; 9; 7; 8; 1]))) = Ok pi s' /\
     same_outside 1 3 [4; 9; 7; 8; 1] (heights s')) /\
  (exists s',
     merge 4 1 2 3 (final (getBarHeights (page [4; 9; 7; 8; 1]))) = Ok tt s' /\
     same_outside 1 3 [4; 9; 7; 8; 1] (heights s')) /\
  (exists s',
     heapify 4 4 1 (final (getBarHeights (page [4; 9; 7; 8; 1]))) = Ok tt s' /\
     same_outside 0 (4 - 1) [4; 9; 7; 8; 1] (heights s') /\
     same_unless_below 4 1 [4; 9; 7; 8; 1] (heights s')).
Proof.
  assert (Hs : in_sync 5 (final (getBarHeights (page [4; 9; 7; 8; 1]))))
    by (by split).
  destruct (helpers_keep_to_their_range 3 5 _ Hs) as (Hp & _ & _).
  destruct (helpers_keep_to_their_range 4 5 _ Hs) as (_ & Hm & Hh).
  split; [|split].
  - apply Hp; [lia|lia|simpl; lia].
  - apply Hm; [lia|lia|simpl; lia].
  - apply Hh; [lia|lia|simpl; lia].
Defined.

(** ** Further properties of the script *)

(** *** The helpers of quick sort *)

(** X1: in a state where the bars show the array of [N] heights, a call
    [partition(low, high)] inside the array returns an index [pi] of the
    range such that afterwards no slot of [low..pi-1] holds more than
    slot [pi] and every slot of [pi+1..high] holds more; the array is a
    permutation of the one before and unchanged outside the range. *)
Theorem partition_places_pivot
    (fuel : nat) (N low high : Z) (s : state Z) :
  in_sync N s -> 0 <= low <= high -> high < N ->
  (Z.to_nat (high - low) < fuel)%nat ->
  exists pi s', partition fuel low high s = Ok pi s' /\
    low <= pi <= high /\
    heights s' ≡ₚ heights s /\
    same_outside low high (heights s) (heights s') /\
    (forall k, low <= k < pi -> hget (heights s') k <= hget (heights s') pi) /\
    (forall k, pi < k <= high -> hget (heights s') pi < hget (heights s') k).
Proof. intros Hs%in_sync_len. by apply partition_contract. Qed.

Lemma partition_places_pivot_witness :
  exists pi s',
    partition 3 1 3 (final (getBarHeights (page [4; 9; 7; 8; 1]))) = Ok pi s' /\
    1 <= pi <= 3 /\
    heights s' ≡ₚ [4; 9; 7; 8; 1] /\
    same_outside 1 3 [4; 9; 7; 8; 1] (heights s') /\
    (forall k, 1 <= k < pi -> hget (heights s') k <= hget (heights s') pi) /\
    (forall k, pi < k <= 3 -> hget (heights s') pi < hget (heights s') k).
Proof.
  apply (partition_places_pivot 3 5 1 3
           (final (getBarHeights (page [4; 9; 7; 8; 1])))).
  - by split.
  - lia.
  - lia.
  - simpl. lia.
Defined.

(** X2: in such a state [quickSortHelper(low, high)] returns with the
    slots [low..high] in non-decreasing order, the array a permutation
    of the one before and unchanged outside the range. *)
Theorem quick_sort_helper_sorts_range
    (fuel : nat) (N low high : Z) (s : state Z) :
  in_sync N s -> 0 <= low -> high < N ->
  (Z.to_nat (high - low + 1) < fuel)%nat ->
  exists s', quickSortHelper fuel low high s = Ok tt s' /\
    heights s' ≡ₚ heights s /\
    same_outside low high (heights s) (heights s') /\
    sorted_range (heights s') low (high + 1).
Proof. intros Hs%in_sync_len. by apply quickSortHelper_contract. Qed.

Lemma quick_sort_helper_sorts_range_witness :
  exists s',
    quickSortHelper 4 1 3 (final (getBarHeights (page [4; 9; 7; 8; 1]))) =
      Ok tt s' /\
    heights s' ≡ₚ [4; 9; 7; 8; 1] /\
    same_outside 1 3 [4; 9; 7; 8; 1] (heights s') /\
    sorted_range (heights s') 1 (3 + 1).
Proof.
  apply (quick_sort_helper_sorts_range 4 5 1 3
           (final (getBarHeights (page [4; 9; 7; 8; 1])))).
  - by split.
  - lia.
  - lia.
  - simpl. lia.
Defined.

(** *** The helpers of merge sort *)

(** X3: in such a state, when the slots [left..mid] and the slots
    [mid+1..right] are each in non-decreasing order, [merge] returns
    with the slots [left..right] in non-decreasing order, the array a
    permutation of the one before and unchanged outside the range. *)
Theorem merge_joins_sorted_runs
    (fuel : nat) (N left mid right : Z) (s : state Z) :
  in_sync N s -> 0 <= left <= mid -> mid < right < N ->
  (Z.to_nat (right - left + 1) < fuel)%nat ->
  sorted_range (heights s) left (mid + 1) ->
  sorted_range (heights s) (mid + 1) (right + 1) ->
  exists s', merge fuel left mid right s = Ok tt s' /\
    heights s' ≡ₚ heights s /\
    same_outside left right (heights s) (heights s') /\
    sorted_range (heights s') left (right + 1).
Proof. intros Hs%in_sync_len. by apply merge_contract. Qed.

Lemma merge_joins_sorted_runs_witness :
  exists s',
    merge 5 1 2 4 (final (getBarHeights (page [9; 3; 8; 2; 5; 0]))) = Ok tt s' /\
    heights s' ≡ₚ [9; 3; 8; 2; 5; 0] /\
    same_outside 1 4 [9; 3; 8; 2; 5; 0] (heights s') /\
    sorted_range (heights s') 1 (4 + 1).
Proof.
  apply (merge_joins_sorted_runs 5 6 1 2 4
           (final (getBarHeights (page [9; 3; 8; 2; 5; 0])))).
  - by split.
  - lia.
  - lia.
  - simpl. lia.
  - intros a b Ha Hab Hb.
    assert (Hc : (a = 1 \/ a = 2) /\ (b = 1 \/ b = 2)) by lia.
    destruct Hc as [[-> | ->] [-> | ->]];
      first [lia | vm_compute; discriminate].
  - intros a b Ha Hab Hb.
    assert (Hc : (a = 3 \/ a = 4) /\ (b = 3 \/ b = 4)) by lia.
    destruct Hc as [[-> | ->] [-> | ->]];
      first [lia | vm_compute; discriminate].
Defined.

(** X4: in such a state [mergeSortHelper(left, right)] returns with the
    slots [left..right] in non-decreasing order, the array a permutation
    of the one before and unchanged outside the range. *)
Theorem merge_sort_helper_sorts_range
    (fuel : nat) (N left right : Z) (s : state Z) :
  in_sync N s -> 0 <= left -> right < N ->
  (Z.to_nat (right - left + 1) < fuel)%nat ->
  exists s', mergeSortHelper fuel left right s = Ok tt s' /\
    heights s' ≡ₚ heights s /\
    same_outside left right (heights s) (heights s') /\
    sorted_range (heights s') left (right + 1).
Proof. intros Hs%in_sync_len. by apply mergeSortHelper_contract. Qed.

Lemma merge_sort_helper_sorts_range_witness :
  exists s',
    mergeSortHelper 4 1 3 (final (getBarHeights (page [4; 9; 7; 8; 1]))) =
      Ok tt s' /\
    heights s' ≡ₚ [4; 9; 7; 8; 1] /\
    same_outside 1 3 [4; 9; 7; 8; 1] (heights s') /\
    sorted_range (heights s') 1 (3 + 1).
Proof.
  apply (merge_sort_helper_sorts_range 4 5 1 3
           (final (getBarHeights (page [4; 9; 7; 8; 1])))).
  - by split.
  - lia.
  - lia.
  - simpl. lia.
Defined.

(** *** The helper of heap sort *)

(** X5: in such a state, when every node below [i] of the heap of the
    first [n] slots is at least as large as its children, [heapify(n, i)]
    returns with that true of [i] as well; the array is a permutation of
    the one before and only slots below [i] in the heap have changed. *)
Theorem heapify_restores_heap
    (fuel : nat) (N n i : Z) (s : state Z) :
  in_sync N s -> 0 <= i -> n <= N ->
  (Z.to_nat (n - i) < fuel)%nat ->
  (forall k, i < k < n -> heap_at (heights s) n k) ->
  exists s', heapify fuel n i s = Ok tt s' /\
    heights s' ≡ₚ heights s /\
    same_unless_below n i (heights s) (heights s') /\
    (forall k, i <= k < n -> heap_at (heights s') n k).
Proof. intros Hs%in_sync_len. by apply heapify_contract. Qed.

Lemma heapify_restores_heap_witness :
  exists s',
    heapify 4 3 0 (final (getBarHeights (page [1; 5; 3; 9]))) = Ok tt s' /\
    heights s' ≡ₚ [1; 5; 3; 9] /\
    same_unless_below 3 0 [1; 5; 3; 9] (heights s') /\
    (forall k, 0 <= k < 3 -> heap_at (heights s') 3 k).
Proof.
  apply (heapify_restores_heap 4 4 3 0
           (final (getBarHeights (page [1; 5; 3; 9])))).
  - by split.
  - lia.
  - lia.
  - simpl. lia.
  - intros k Hk. split; intros Hc; lia.
Defined.

(** *** Comparisons *)

(** X6: bubble sort and selection sort compare [N (N - 1) / 2] times
    on every array of [N] heights, in order or not: neither loop ends
    early. *)
Theorem bubble_and_selection_comparisons {V : Type} `{JsOrd V}
    (alg : algorithm) (values : list V) (fuel : nat) :
  alg = Bubble \/ alg = Selection ->
  (length values < fuel)%nat ->
  2 * Z.of_nat (compares (trace (final (runSort fuel alg values)))) =
  Z.of_nat (length values) * (Z.of_nat (length values) - 1).
Proof.
  intros Halg Hfuel.
  destruct (runSort_in_len alg values fuel Hfuel) as (s' & Hrun & _).
  { by destruct Halg as [-> | ->]. }
  rewrite Hrun. cbn [final]. unfold trace. rewrite compares_rev.
  unfold runSort in Hrun. destruct Halg as [-> | ->]; cbn [sortBy] in Hrun.
  - pose proof (wp_elim _ _ _ _ _ (bubbleSort_compares fuel (page values)) Hrun)
      as HC. cbn [page bars log] in HC. by rewrite HC.
  - pose proof (wp_elim _ _ _ _ _ (selectionSort_compares fuel (page values))
                  Hrun) as HC. cbn [page bars log] in HC. by rewrite HC.
Qed.

Lemma bubble_and_selection_comparisons_witness :
  2 * Z.of_nat (compares (trace (final (runSort 5 Selection [1; 2; 3; 4])))) =
  Z.of_nat (length [1; 2; 3; 4]) * (Z.of_nat (length [1; 2; 3; 4]) - 1).
Proof.
  apply (bubble_and_selection_comparisons Selection [1; 2; 3; 4] 5).
  - by right.
  - simpl. lia.
Defined.

(** X7: quick sort compares at most [N (N - 1) / 2] times, on every
    array of [N] heights. *)
Theorem quick_sort_comparisons_bound {V : Type} `{JsOrd V}
    (values : list V) (fuel : nat) :
  (length values < fuel)%nat ->
  2 * Z.of_nat (compares (trace (final (runSort fuel Quick values)))) <=
  Z.of_nat (length values) * (Z.of_nat (length values) - 1).
Proof.
  intros Hfuel.
  destruct (runSort_in_len Quick values fuel Hfuel) as (s' & Hrun & _);
    [done|].
  rewrite Hrun. cbn [final]. unfold trace. rewrite compares_rev.
  pose proof (wp_elim _ _ _ _ _ (quickSort_compares fuel (page values)) Hrun)
    as HC. cbn [page bars log] in HC.
  change (compares (@nil (event V))) with 0%nat in HC. lia.
Qed.

Lemma quick_sort_comparisons_bound_witness :
  2 * Z.of_nat (compares (trace (final (runSort 6 Quick [3; 1; 4; 1; 5])))) <=
  Z.of_nat (length [3; 1; 4; 1; 5]) * (Z.of_nat (length [3; 1; 4; 1; 5]) - 1).
Proof. apply (quick_sort_comparisons_bound [3; 1; 4; 1; 5] 6). simpl. lia. Defined.

(** X8: on an array that is already in non-decreasing order quick sort
    reaches that bound: it compares exactly [N (N - 1) / 2] times. *)
Theorem quick_sort_comparisons_sorted (values : list Z) (fuel : nat) :
  Sorted Z.le values ->
  (length values < fuel)%nat ->
  2 * Z.of_nat (compares (trace (final (runSort fuel Quick values)))) =
  Z.of_nat (length values) * (Z.of_nat (length values) - 1).
Proof.
  intros Hsorted Hfuel.
  destruct (runSort_in_len Quick values fuel Hfuel) as (s' & Hrun & _);
    [done|].
  rewrite Hrun. cbn [final]. unfold trace. rewrite compares_rev.
  pose proof (wp_elim _ _ _ _ _
                (quickSort_rest_compares fuel (page values) values
                   (Sorted_sorted_range _ Hsorted) eq_refl (Forall_nil_2 _))
                Hrun) as HC.
  cbn [page log] in HC. change (compares (@nil (event Z))) with 0%nat in HC.
  lia.
Qed.

Lemma quick_sort_comparisons_sorted_witness :
  2 * Z.of_nat (compares (trace (final (runSort 5 Quick [2; 4; 6; 8])))) =
  Z.of_nat (length [2; 4; 6; 8]) * (Z.of_nat (length [2; 4; 6; 8]) - 1).
Proof.
  apply (quick_sort_comparisons_sorted [2; 4; 6; 8] 5).
  - repeat constructor; lia.
  - simpl. lia.
Defined.

(** *** The controller *)

(** X9: [startSort] with one of the seven names returns normally and
    leaves the bars in non-decreasing order, a permutation of the bars
    it found. *)
Theorem start_sort_sorts_the_bars
    (name : string) (alg : algorithm) (values : list Z) (fuel : nat) :
  algorithm_of_name name = Some alg ->
  (length values < fuel)%nat ->
  exists s', startSort fuel name (page values) = Ok tt s' /\
    Sorted Z.le (bars s') /\ bars s' ≡ₚ values.
Proof.
  intros Hname Hfuel. eexists. split; [by apply startSort_known|].
  cbn [bars].
  destruct (runSort_show alg values fuel) as (_ & _ & _ & Hb).
  rewrite Hb by done. by apply runSort_sorted.
Qed.

Lemma start_sort_sorts_the_bars_witness :
  exists s', startSort 5 "shell"%string (page [7; 3; 9; 1]) = Ok tt s' /\
    Sorted Z.le (bars s') /\ bars s' ≡ₚ [7; 3; 9; 1].
Proof.
  apply (start_sort_sorts_the_bars "shell"%string Shell [7; 3; 9; 1] 5).
  - reflexivity.
  - simpl. lia.
Defined.

(** X10: the trace of [startSort] with one of the seven names is the
    trace of the algorithm, then the sound of completion, then a style
    reset of every bar in increasing order, so that no bar keeps a
    highlight or its mark.  Nothing is written to the console.  Only
    heap sort without bars differs: its TypeError is caught and written
    to the console, and the sound of completion is not played. *)
Theorem start_sort_trace {V : Type} `{JsOrd V}
    (name : string) (alg : algorithm) (values : list V) (fuel : nat) :
  algorithm_of_name name = Some alg ->
  (length values < fuel)%nat ->
  exists s', startSort fuel name (page values) = Ok tt s' /\
    trace s' =
      trace (final (runSort fuel alg values)) ++
      match alg, values with
      | Heap, [] => ConsoleError TypeError
      | _, _ => Sound
      end :: ((fun i => Bar i ResetStyle) <$> seqZ 0 (Z.of_nat (length values))) /\
    errors (trace s') =
      match alg, values with
      | Heap, [] => [TypeError]
      | _, _ => []
      end.
Proof.
  intros Hname Hfuel. eexists. split; [by apply startSort_known|].
  assert (Hclose :
    match runSort fuel alg values with
    | Ok _ _ => Sound
    | Err e _ => ConsoleError e
    end =
    match alg, values with
    | Heap, [] => ConsoleError (V:=V) TypeError
    | _, _ => Sound
    end).
  { destruct (runSort_cases alg values fuel Hfuel)
      as [(s' & Hrun & _)|(-> & -> & Hrun)]; [|by rewrite Hrun].
    destruct alg, values; try by rewrite Hrun.
    by rewrite runSort_heap_empty in Hrun by done. }
  rewrite Hclose. unfold trace. cbn [log].
  assert (Htrace :
    rev (reverse ((fun i => Bar (V:=V) i ResetStyle) <$>
                    seqZ 0 (Z.of_nat (length values))) ++
         match alg, values with
         | Heap, [] => ConsoleError TypeError
         | _, _ => Sound
         end :: log (final (runSort fuel alg values))) =
    rev (log (final (runSort fuel alg values))) ++
    match alg, values with
    | Heap, [] => ConsoleError TypeError
    | _, _ => Sound
    end :: ((fun i => Bar i ResetStyle) <$> seqZ 0 (Z.of_nat (length values)))).
  { rewrite rev_app_distr. cbn [rev]. rewrite <- app_assoc. cbn [app].
    by rewrite !rev_reverse, reverse_involutive. }
  rewrite Htrace. split; [done|].
  rewrite errors_app, rev_reverse.
  assert (Hsilent : errors (reverse (log (final (runSort fuel alg values)))) = []).
  { rewrite <- rev_reverse.
    pose proof (runSort_silent alg values fuel) as Hs.
    revert Hs. generalize (log (final (runSort fuel alg values))).
    intros lg. induction lg as [|e lg IH]; [done|].
    cbn [rev]. rewrite errors_app.
    destruct e as [i op| | |e]; cbn [errors]; intros Hs; try done;
      by rewrite IH. }
  rewrite Hsilent. cbn [app].
  destruct alg, values; cbn [errors]; by rewrite errors_resets.
Qed.

Lemma start_sort_trace_witness :
  exists s', startSort 1 "heap"%string (page (@nil Z)) = Ok tt s' /\
    trace s' =
      trace (final (runSort 1 Heap (@nil Z))) ++
      ConsoleError TypeError ::
      ((fun i => Bar i ResetStyle) <$> seqZ 0 (Z.of_nat (length (@nil Z)))) /\
    errors (trace s') = [TypeError].
Proof.
  apply (start_sort_trace "heap"%string Heap (@nil Z) 1).
  - reflexivity.
  - simpl. lia.
Defined.

(** *** Heights *)

(** X11: no algorithm makes up a height: every height given to a bar
    during a run, and every height in the array and on the bars at its
    end, is one of the heights the page showed at the start. *)
Theorem no_height_is_made_up {V : Type} `{JsOrd V}
    (alg : algorithm) (values : list V) (fuel : nat) :
  (length values < fuel)%nat ->
  (forall i v,
     Bar i (SetHeight v) ∈ trace (final (runSort fuel alg values)) ->
     v ∈ values) /\
  (forall v, v ∈ heights (final (runSort fuel alg values)) -> v ∈ values) /\
  (forall v, v ∈ bars (final (runSort fuel alg values)) -> v ∈ values).
Proof.
  intros Hfuel.
  assert (Hfrom : from_input values (final (runSort fuel alg values))).
  { destruct (runSort_cases alg values fuel Hfuel)
      as [(s' & Hrun & _)|(-> & -> & Hrun)]; rewrite Hrun; cbn [final].
    - assert (H0 : from_input values (page values)).
      { split; [by apply Forall_nil_2|]. split; [|by apply Forall_nil_2].
        by apply Forall_forall. }
      exact (wp_elim _ _ _ _ _ (sortBy_from values alg fuel (page values) H0)
               Hrun).
    - by repeat split. }
  destruct Hfrom as (Hh & Hb & Hl).
  rewrite Forall_forall in Hh. rewrite Forall_forall in Hb.
  rewrite Forall_forall in Hl.
  split; [|by split].
  intros i v Hin. unfold trace in Hin. rewrite rev_reverse in Hin.
  rewrite elem_of_reverse in Hin. by apply (Hl _ Hin).
Qed.

Lemma no_height_is_made_up_witness :
  (forall i v,
     Bar i (SetHeight v) ∈ trace (final (runSort 5 Insertion [7; 3; 9; 1])) ->
     v ∈ [7; 3; 9; 1]) /\
  (forall v, v ∈ heights (final (runSort 5 Insertion [7; 3; 9; 1])) ->
     v ∈ [7; 3; 9; 1]) /\
  (forall v, v ∈ bars (final (runSort 5 Insertion [7; 3; 9; 1])) ->
     v ∈ [7; 3; 9; 1]).
Proof. apply (no_height_is_made_up Insertion [7; 3; 9; 1] 5). simpl. lia. Defined.

(** *** The page *)

(** X12: whatever the width of the window, [updateBarCountInput] sets a
    count of 5 to 54 bars: [calculateOptimalBarCount] never exceeds 54,
    so the upper limit of 100 never applies. *)
Theorem bar_count_between_5_and_54 (screenWidth : Z) :
  5 <= updateBarCountInput screenWidth <= 54 /\
  updateBarCountInput screenWidth =
    Z.max 5 (calculateOptimalBarCount screenWidth).
Proof.
  pose proof (calculateOptimalBarCount_le screenWidth).
  unfold updateBarCountInput. lia.
Qed.

(** X13: the colours of a custom gradient survive saving and loading:
    from the gradient that [applyCustomGradient] builds out of a
    direction without number sign and two colours of the colour inputs,
    [loadSavedTheme] reads back these two colours, in order. *)
Theorem saved_gradient_gives_back_colours (direction c1 c2 : string) :
  has_hash direction = false ->
  is_simple_color c1 = true -> is_simple_color c2 = true ->
  savedGradientColors (customGradient direction c1 c2) = Some (c1, c2).
Proof. apply savedGradientColors_customGradient. Qed.

Lemma saved_gradient_gives_back_colours_witness :
  savedGradientColors
    (customGradient "to right"%string "#0c4a6e"%string "#FB7185"%string) =
  Some ("#0c4a6e"%string, "#FB7185"%string).
Proof.
  apply (saved_gradient_gives_back_colours
           "to right"%string "#0c4a6e"%string "#FB7185"%string);
    reflexivity.
Defined.
